(** * HopAlong: the recurrence engine and the frame loop of [hopalong.py]

    A shallow embedding of [hop_along_eq], [hop_along_for_n], [random_abc],
    the body of the [while True] loop of [plot_hop_along] and the part of
    [_main] that follows the parsing of the options, over the kernel's
    binary64 floats, followed by the properties of these functions.  The two
    functions that the source hands to [numba.njit] are modelled by the
    meaning of their Python text.

    Python floats and NumPy [float64] values are IEEE 754 binary64 numbers:
    they are modelled by the primitive type [float], whose operations are
    specified by [SpecFloat] through the axioms of [FloatAxioms].  The only
    thing the primitive type does not carry is the sign and payload of a NaN.
    Python integers are unbounded and are modelled by [Z]. *)

From Stdlib Require Import ZArith Floats Reals Lra Lia.
From stdpp Require Import base list.


(** ** Exceptions *)

(** The exceptions that the modelled code can raise.  [ValueError] comes from
    [np.zeros] on a negative dimension, [IndexError] from indexing an empty
    axis, [OverflowError] from [np.random.uniform] on a range that is not
    finite and from an integer quotient too large for a float,
    [ZeroDivisionError] from [/]. *)
Inductive exn : Set :=
  | ValueError
  | IndexError
  | OverflowError
  | ZeroDivisionError.

Inductive result (A : Type) : Type :=
  | Ok (a : A)
  | Raise (e : exn).
Arguments Ok {A} a.
Arguments Raise {A} e.

#[global] Instance result_ret : MRet result := λ A a, Ok a.
#[global] Instance result_bind : MBind result := λ A B f m,
  match m with
  | Ok a => f a
  | Raise e => Raise e
  end.

Definition is_ok {A} (r : result A) : Prop := ∃ a, r = Ok a.

(** ** Floating-point helpers *)

Module Np.
Local Open Scope float_scope.

  (** [np.copysign(x1, x2)]: the magnitude of [x1] with the sign bit of [x2].
      The primitive NaN has no sign bit, so [copysign x1 nan] takes the
      positive sign; [hop_along_eq] only applies it to a NaN second argument
      when the first argument is a NaN as well, where the result is a NaN
      either way. *)
Definition copysign (x1 x2 : float) : float :=
    if get_sign x2 then - abs x1 else abs x1.

  (** [np.isfinite]. *)
Definition isfinite (x : float) : bool := is_finite x.

  (** [np.zeros((n, 2))]: a negative dimension raises [ValueError]. *)
Definition zeros2 (n : Z) : result (list (float * float)) :=
    if (n <? 0)%Z then Raise ValueError
    else Ok (replicate (Z.to_nat n) (0, 0)).

  (** [np.swapaxes(v, 0, 1)] of an array of shape (n, 2), given as the list
      of its rows: the array of shape (2, n), given as its two rows. *)
Definition swapaxes (v : list (float * float)) : list float * list float :=
    (v.*1, v.*2).

  (** [v[:, -1]] for [v] of shape (2, n): the last column, [IndexError] when
      axis 1 is empty. *)
Definition last_column (v : list float * list float) : result (float * float) :=
    match last v.1, last v.2 with
    | Some x, Some y => Ok (x, y)
    | _, _ => Raise IndexError
    end.
End Np.

(** ** Recurrence engine *)

(** A point is the array [[x, y]]. *)
Abbreviation Point := (float * float)%type.

Section Engine.
Local Open Scope float_scope.

  (** [hop_along_eq(xy, a, b, c)] *)
Definition hop_along_eq (xy : Point) (a b c : float) : Point :=
    let sqrt_x := PrimFloat.sqrt (abs (b * xy.1 - c)) in
    let f_x := - Np.copysign sqrt_x xy.1 in
    let new_x := xy.2 + f_x in
    let new_y := a - xy.1 in
    (new_x, new_y).

  (** One turn of the [for index in range(n_iters)] loop of
      [hop_along_for_n]: the loop state is the current point and [ret]. *)
Definition for_n_body (a b c : float) (s : Point * list Point) (index : nat)
    : Point * list Point :=
    let xy := hop_along_eq s.1 a b c in
    let ret := alter (λ row, (xy.1, row.2)) index s.2 in
    let ret := alter (λ row, (row.1, xy.2)) index ret in
    (xy, ret).

  (** [hop_along_for_n(a, b, c, n_iters, xy_init)] *)
Definition hop_along_for_n (a b c : float) (n_iters : Z)
      (xy_init : option Point) : result (list Point) :=
    ret ← Np.zeros2 n_iters;
    let xy_init := match xy_init with None => (0, 0) | Some xy => xy end in
    let xy := xy_init in
    Ok (foldl (for_n_body a b c) (xy, ret) (seq 0 (Z.to_nat n_iters))).2.
End Engine.

(** The [k]-th iterate of [hop_along_eq] from [seed]. *)
Definition orbit (a b c : float) (seed : Point) (k : nat) : Point :=
  Nat.iter k (λ xy, hop_along_eq xy a b c) seed.

(** ** Parameter randomizer *)

(** The process-wide random source of [np.random]: the sequence of doubles
    that [random_sample] will return, and the number of them already
    consumed. *)
Record rng : Type := Rng { draws : nat → float; consumed : nat }.

Module Random.
Local Open Scope float_scope.

  (** The next double of the generator, in [[0, 1)] for NumPy's generators. *)
Definition next_double (g : rng) : float * rng :=
    (draws g (consumed g), Rng (draws g) (S (consumed g))).

  (** [np.random.uniform(low, high)] on scalars: NumPy computes
      [low + (high - low) * next_double()], after raising [OverflowError]
      when [high - low] is not finite.  It compares [low] and [high] nowhere. *)
Definition uniform (low high : float) (g : rng) : result (float * rng) :=
    let range := high - low in
    if negb (Np.isfinite range) then Raise OverflowError
    else
      let '(u, g) := next_double g in
      Ok (low + range * u, g).
End Random.

(** [random_abc(min_val, max_val)]: the generator expression is consumed by
    [tuple] from left to right. *)
Definition random_abc (min_val max_val : float) (g : rng)
  : result ((float * float * float) * rng) :=
  '(a, g) ← Random.uniform min_val max_val g;
  '(b, g) ← Random.uniform min_val max_val g;
  '(c, g) ← Random.uniform min_val max_val g;
  Ok ((a, b, c), g).

(** The default arguments of [random_abc]. *)
Definition default_min_val : float := (-10)%float.
Definition default_max_val : float := 10%float.

(** ** Frame loop *)

(** What [plot_hop_along] sends to matplotlib, in order.  The calls are
    recorded as they are made; what matplotlib does with them (the checks it
    makes on their arguments, the drawing, the waiting) is outside this
    model, so a turn of the loop that returns [Ok] below is a turn in which
    the steps of the code itself have raised nothing. *)
Inductive event : Type :=
  | Scatter (xs ys : list float) (c : list Z) (alpha : float)
  | Xticks
  | Yticks
  | Pause (t : float)
  | Clf.

(** The arguments of [plot_hop_along] that stay fixed during the loop. *)
Record config : Type := Config {
  n_iters : Z;
  n_hist : Z;
  n_reset : Z;
  alpha_init : float;
  pause_time : float;
}.

(** The variables of [plot_hop_along] that the loop updates, and the random
    source. *)
Record state : Type := State {
  a : float;
  b : float;
  c : float;
  values : list float * list float;
  history : list (list float * list float);
  full_iters : Z;
  gen : rng;
}.

Module Py.
  (** [list(range(0, n))] *)
Definition range (n : Z) : list Z := seqZ 0 n.

  (** [l[start:]] *)
Definition slice_from {A} (start : Z) (l : list A) : list A :=
    if (start <? 0)%Z then drop (Z.to_nat (Z.of_nat (length l) + start)) l
    else drop (Z.to_nat start) l.

Definition Z2SF (z : Z) : spec_float :=
    match z with
    | Z0 => S754_zero false
    | Zpos p => S754_finite false p 0
    | Zneg p => S754_finite true p 0
    end.

(** The quotient of two integers, correctly rounded to a float. *)
Definition quotient (x y : Z) : float :=
  SF2Prim (SFdiv prec emax (Z2SF x) (Z2SF y)).

(** [x / y] on integers: the correctly rounded quotient,
    [ZeroDivisionError] for a zero divisor, [OverflowError] when the
    quotient is too large for a float. *)
Definition int_truediv (x y : Z) : result float :=
  if (y =? 0)%Z then Raise ZeroDivisionError
  else
    let q := quotient x y in
    if is_infinity q then Raise OverflowError else Ok q.
End Py.

Section FrameLoop.
Variable cfg : config.

Definition positive_reset : bool := (0 <? n_reset cfg)%Z.
Definition positive_hist : bool := (0 <? n_hist cfg)%Z.

  (** The [for index, arr in enumerate(history)] loop, from [index] on. *)
Fixpoint draw_history (index : Z) (history : list (list float * list float))
    : result (list event) :=
    match history with
    | [] => Ok []
    | arr :: history =>
        q ← Py.int_truediv (index + 1) (n_hist cfg);
        let alpha := (q * alpha_init cfg)%float in
        evs ← draw_history (index + 1) history;
        Ok (Scatter arr.1 arr.2 (Py.range (n_iters cfg)) alpha :: evs)
    end.

  (** One turn of the [while True] loop. *)
Definition frame (s : state) : result (state * list event) :=
    xy_init ← Np.last_column (values s);
    ret ← hop_along_for_n (a s) (b s) (c s) (n_iters cfg) (Some xy_init);
    let values := Np.swapaxes ret in
    let ev_new :=
      [Scatter values.1 values.2 (Py.range (n_iters cfg)) (alpha_init cfg)] in
    '(history, ev_hist) ←
      (if positive_hist then
         evs ← draw_history 0 (history s);
         let history := history s ++ [values] in
         Ok (Py.slice_from (- n_hist cfg) history, evs)
       else Ok (history s, []));
    let ev_end := [Xticks; Yticks; Pause (pause_time cfg); Clf] in
    let full_iters := (full_iters s + 1)%Z in
    let evs := ev_new ++ ev_hist ++ ev_end in
    if positive_reset && (full_iters mod n_reset cfg =? 0)%Z then
      let values := Np.swapaxes [(0, 0)%float] in
      '(abc, g) ← random_abc default_min_val default_max_val (gen s);
      Ok (State abc.1.1 abc.1.2 abc.2 values history full_iters g, evs)
    else
      Ok (State (a s) (b s) (c s) values history full_iters (gen s), evs).

  (** The state on entry to the loop. *)
Definition init (a b c : float) (g : rng) : state :=
    State a b c (Np.swapaxes [(0, 0)%float]) [] 0 g.

  (** The first [k] turns of the loop, with everything sent to matplotlib. *)
Fixpoint run (k : nat) (s : state) : result (state * list event) :=
    match k with
    | O => Ok (s, [])
    | S k =>
        '(s, evs) ← run k s;
        '(s, evs') ← frame s;
        Ok (s, evs ++ evs')
    end.
End FrameLoop.



(** ** The batch generator on arrays that live in a store

    [hop_along_for_n] binds [xy] to the array it was given and then rebinds
    it to the fresh array of every [hop_along_eq] call; it writes into [ret]
    only.  Here arrays are cells of a store and variables hold addresses, so
    that what is written where can be stated. *)

Inductive ndarray : Type :=
  | Vec (xy : Point)
  | Mat (rows : list Point).

Module Store.
(** A new array gets the next free address. *)
Definition alloc (σ : list ndarray) (arr : ndarray) : nat * list ndarray :=
  (length σ, σ ++ [arr]).

(** Reads [xy[0]] and [xy[1]]. *)
Definition get_vec (σ : list ndarray) (l : nat) : result Point :=
  match σ !! l with
  | Some (Vec xy) => Ok xy
  | _ => Raise IndexError
  end.

(** [arr[index, col] = v] *)
Definition set_item (σ : list ndarray) (l index : nat) (col : bool) (v : float)
  : result (list ndarray) :=
  match σ !! l with
  | Some (Mat rows) =>
      if decide (index < length rows) then
        let rows := alter (λ row, if col then (row.1, v) else (v, row.2)) index rows in
        Ok (<[l := Mat rows]> σ)
      else Raise IndexError
  | _ => Raise IndexError
  end.
End Store.

(** [hop_along_eq] returns a fresh array. *)
Definition hop_along_eq_st (σ : list ndarray) (xy : nat) (a b c : float)
  : result (nat * list ndarray) :=
  p ← Store.get_vec σ xy;
  Ok (Store.alloc σ (Vec (hop_along_eq p a b c))).

(** The [for] loop of [hop_along_for_n], over the remaining indices. *)
Fixpoint for_n_loop_st (a b c : float) (ret : nat) (indices : list nat)
    (xy : nat) (σ : list ndarray) : result (nat * list ndarray) :=
  match indices with
  | [] => Ok (xy, σ)
  | index :: indices =>
      '(xy, σ) ← hop_along_eq_st σ xy a b c;
      p ← Store.get_vec σ xy;
      σ ← Store.set_item σ ret index false p.1;
      σ ← Store.set_item σ ret index true p.2;
      for_n_loop_st a b c ret indices xy σ
  end.

(** [hop_along_for_n] with [ret] and [xy_init] as addresses; it returns the
    address of [ret]. *)
Definition hop_along_for_n_st (σ : list ndarray) (a b c : float) (n_iters : Z)
    (xy_init : option nat) : result (nat * list ndarray) :=
  if (n_iters <? 0)%Z then Raise ValueError
  else
    let '(ret, σ) := Store.alloc σ (Mat (replicate (Z.to_nat n_iters) (0, 0)%float)) in
    let '(xy_init, σ) :=
      match xy_init with
      | None => Store.alloc σ (Vec (0, 0)%float)
      | Some l => (l, σ)
      end in
    '(_, σ) ← for_n_loop_st a b c ret (seq 0 (Z.to_nat n_iters)) xy_init σ;
    Ok (ret, σ).

(** ** The step as the specification words it *)

Section SpecStep.
Local Open Scope float_scope.

(** [sign(x)] with [sign(0) = +1]. *)
Definition spec_sign (x : float) : float := if x <? 0 then -1 else 1.

(** [x' = y + f(x)], [f(x) = -sign(x) * sqrt(|b*x - c|)], [y' = a - x]. *)
Definition spec_step (xy : Point) (a b c : float) : Point :=
  (xy.2 + (- spec_sign xy.1) * PrimFloat.sqrt (abs (b * xy.1 - c)), a - xy.1).

(** The sign that is read off the sign bit: [+1] for [+0.0], [-1] for [-0.0]. *)
Definition bit_sign (x : float) : float := if get_sign x then -1 else 1.

(** The same formula with the sign of the sign bit. *)
Definition bit_step (xy : Point) (a b c : float) : Point :=
  (xy.2 + (- bit_sign xy.1) * PrimFloat.sqrt (abs (b * xy.1 - c)), a - xy.1).

(** The opacity of a retained batch as the specification words it:
    [(rank + 1) / n_hist * alpha_init], [rank] counted from 1 at the oldest
    entry. *)
Definition spec_opacity (cfg : config) (rank : Z) : result float :=
  q ← Py.int_truediv (rank + 1) (n_hist cfg);
  Ok (q * alpha_init cfg).

(** The opacities of the [Scatter] calls of a list of events. *)
Definition opacities (evs : list event) : list float :=
  omap (λ ev, match ev with Scatter _ _ _ alpha => Some alpha | _ => None end) evs.
End SpecStep.

(** ** Names for what the loop tests *)

(** The test of the [if] that ends a turn of the loop, on the new value of
    [full_iters]. *)
Definition reset_due (cfg : config) (full_iters : Z) : bool :=
  positive_reset cfg && (full_iters mod n_reset cfg =? 0)%Z.

(** The parameters of a state. *)
Definition params (s : state) : float * float * float := (a s, b s, c s).

(** Every draw of the random source lies in [[0, 1)]. *)
Definition unit_draws (g : rng) : Prop :=
  ∀ i, (0 <=? draws g i)%float = true ∧ (draws g i <? 1)%float = true.

(** A value between the default bounds of [random_abc]. *)
Definition in_default_range (p : float) : Prop :=
  (default_min_val <=? p)%float = true ∧ (p <=? default_max_val)%float = true.

(** [low + (high - low) * u] for the [i]-th draw after the consumed ones. *)
Definition nth_draw (low high : float) (g : rng) (i : nat) : float :=
  (low + (high - low) * draws g (consumed g + i))%float.

(** What holds of the state after [k] turns of the loop. *)
Definition reached (cfg : config) (a0 b0 c0 : float) (g0 : rng) (k : nat) (s : state)
  : Prop :=
  full_iters s = Z.of_nat k ∧
  draws (gen s) = draws g0 ∧
  consumed (gen s) =
    consumed g0 + 3 * Z.to_nat (if positive_reset cfg then Z.of_nat k / n_reset cfg else 0) ∧
  length (history s) = Z.to_nat (Z.min (Z.of_nat k) (n_hist cfg)) ∧
  Forall (λ arr, length arr.1 = Z.to_nat (n_iters cfg) ∧
                 length arr.2 = Z.to_nat (n_iters cfg)) (history s) ∧
  (values s = Np.swapaxes [(0, 0)%float] ∨
   ∃ batch, values s = Np.swapaxes batch ∧ length batch = Z.to_nat (n_iters cfg)) ∧
  (positive_reset cfg = false → params s = (a0, b0, c0) ∧ gen s = g0).


(** ** Inputs used in examples *)

(** A random source whose every draw is [0.5]. *)
Definition rng_half : rng := Rng (λ _, 0.5%float) 0.

(** The default [alpha_init = 0.3] and the pause of the default 25 fps. *)
Definition alpha_default : float := 0x1.3333333333333p-2%float.
Definition pause_default : float := 0x1.47ae147ae147bp-5%float.

(** [--niters 0 --nhist 10 --nreset 0] *)
Definition cfg_zero_iters : config := Config 0 10 0 alpha_default pause_default.

(** [--niters 1 --nhist 2 --nreset 0] *)
Definition cfg_hist2 : config := Config 1 2 0 alpha_default pause_default.

(** [--niters 1 --nhist 10 --nreset 0], with [alpha_init = 0.75] and with
    [alpha_init = 0]. *)
Definition cfg_hist10 (alpha : float) : config := Config 1 10 0 alpha pause_default.

(** [--niters 3 --nhist 2 --nreset 2] *)
Definition cfg_reset2 : config := Config 3 2 2 alpha_default pause_default.

(** The events that [draw_history] returns for a history within the bound. *)
Definition history_events (cfg : config) (hist : list (list float * list float))
  : list event :=
  imap (λ i arr, Scatter arr.1 arr.2 (Py.range (n_iters cfg))
                   (Py.quotient (Z.of_nat i + 1) (n_hist cfg) * alpha_init cfg)%float) hist.

(** ** Batches and what is drawn *)

(** The points that [n] steps from [seed] produce, the seed left out. *)
Definition iterates (a b c : float) (seed : Point) (n : nat) : list Point :=
  (λ k, orbit a b c seed (S k)) <$> seq 0 n.

(** The last point of a batch, [seed] for the empty batch. *)
Definition last_point (seed : Point) (batch : list Point) : Point :=
  match last batch with Some p => p | None => seed end.

(** A [Scatter] call whose coordinates and colours have [n] elements each;
    the other calls carry no sequence. *)
Definition scatter_sized (n : nat) (ev : event) : Prop :=
  match ev with
  | Scatter xs ys c _ => length xs = n ∧ length ys = n ∧ length c = n
  | _ => True
  end.

(** The arguments of the [Pause] calls of a list of events. *)
Definition pauses (evs : list event) : list float :=
  omap (λ ev, match ev with Pause t => Some t | _ => None end) evs.

(** [--niters 3 --nhist 2 --nreset 1] *)
Definition cfg_reset1 : config := Config 3 2 1 alpha_default pause_default.

(** [--niters 2 --nhist -1 --nreset 0] *)
Definition cfg_no_hist : config := Config 2 (-1) 0 alpha_default pause_default.

(** ** The command line entry point *)

(** The namespace that [parser.parse_args()] returns when every option has
    a value: the [int] options as integers, [--fps] as a float. *)
Record args : Type := Args { niters : Z; nhist : Z; nreset : Z; fps : float }.

(** The namespace of a command line without options. *)
Definition default_args : args := Args 1000 10 10 25.

(** [x / y] on floats: [ZeroDivisionError] for a zero divisor of either
    sign. *)
Definition float_truediv (x y : float) : result float :=
  if (y =? 0)%float then Raise ZeroDivisionError else Ok (x / y)%float.

(** [_main], from the parsed options to the entry of the loop: the pause is
    computed first, then [random_abc()] is evaluated for the first arguments
    of the call; [alpha_init] takes its default.  The [print] in between
    writes the options to the standard output and is left out.  The second
    component is the random source as these statements leave it, also when
    one of them raises. *)
Definition main_setup_gen (parsed : args) (g : rng) : result (config * state) * rng :=
  match float_truediv 1 (fps parsed) with
  | Raise e => (Raise e, g)
  | Ok pause =>
      match random_abc default_min_val default_max_val g with
      | Raise e => (Raise e, g)
      | Ok (abc, g') =>
          (Ok (Config (niters parsed) (nhist parsed) (nreset parsed) alpha_default pause,
               init abc.1.1 abc.1.2 abc.2 g'),
           g')
      end
  end.

(** What [_main] enters the loop with. *)
Definition main_setup (parsed : args) (g : rng) : result (config * state) :=
  (main_setup_gen parsed g).1.

(** [_main] up to the end of turn [k] of the loop. *)
Definition main (parsed : args) (g : rng) (k : nat) : result (state * list event) :=
  '(cfg, s) ← main_setup parsed g;
  run cfg k s.

(** * Binary floating-point rounding: definitions

    The quantities in which the rounding of [SpecFloat] is specified: the real
    value of a mantissa and an exponent, and the position of a real number
    with respect to two consecutive integers. *)

Section RoundDefs.
Local Open Scope R_scope.

Definition bpow (e : Z) : R := powerRZ 2 e.

Definition F2R (m e : Z) : R := IZR m * bpow e.

(** [x] lies in [[m, m + 1)], at the place that [l] says. *)
Definition inb (x : R) (m : Z) (l : location) : Prop :=
  match l with
  | loc_Exact => x = IZR m
  | loc_Inexact Lt => IZR m < x < IZR m + / 2
  | loc_Inexact Eq => x = IZR m + / 2
  | loc_Inexact Gt => IZR m + / 2 < x < IZR m + 1
  end.

Definition shr_inv (x : R) (mrs : shr_record) : Prop :=
  (0 ≤ shr_m mrs)%Z ∧ inb x (shr_m mrs) (loc_of_shr_record mrs).

Variables prec emax : Z.

(** [(m, e, l)] describes [v] at the exponent that the format gives to
    numbers of the size of [v]. *)
Definition canon (v : R) (m e : Z) (l : location) : Prop :=
  (0 ≤ m)%Z ∧ inb (v * bpow (- e)) m l ∧ e = SpecFloat.fexp prec emax (Zdigits2 m + e).

(** [(m, e, l)] describes [v] with at least the precision of the format. *)
Definition repr (v : R) (m e : Z) (l : location) : Prop :=
  (0 ≤ m)%Z ∧ inb (v * bpow (- e)) m l ∧
  (e ≤ SpecFloat.fexp prec emax (Zdigits2 m + e))%Z.

(** A mantissa of the right size at exponent [e]. *)
Definition cmant (m e : Z) : Prop :=
  (0 ≤ m)%Z ∧ e = SpecFloat.fexp prec emax (Zdigits2 m + e).

(** The rounded value of [v]: the nearest multiple of the unit in the last
    place of [v], ties to even. *)
Definition Rnd (v w : R) : Prop :=
  ∃ m e l, canon v m e l ∧ w = F2R (round_nearest_even m l) e.

(** The float of a rounded mantissa. *)
Definition mk_float (sx : bool) (m e : Z) : spec_float :=
  match m with
  | Z0 => S754_zero sx
  | Zpos p => if (e <=? emax - prec)%Z then S754_finite sx p e else S754_infinity sx
  | Zneg _ => S754_nan
  end.

(** The real value of a finite float. *)
Definition SF2R (x : spec_float) : R :=
  match x with
  | S754_finite s m e => F2R (cond_Zopp s (Z.pos m)) e
  | _ => 0
  end.

(** Zeros and positive finite numbers. *)
Definition nonneg_finite (x : spec_float) : bool :=
  match x with
  | S754_zero _ => true
  | S754_finite s _ _ => negb s
  | _ => false
  end.
End RoundDefs.

(** The binary64 numbers [1.0] and [20.0]. *)
Definition SFone : spec_float := S754_finite false 4503599627370496 (-52).
Definition SFtwenty : spec_float := S754_finite false 5629499534213120 (-48).

(** The real value of a finite binary64 number ([0] for the others). *)
Definition B2R (x : float) : R := SF2R (Prim2SF x).

(** The unit roundoff of binary64. *)
Definition u64 : R := bpow (-53).

(** * Binary floating-point rounding: lemmas *)

Section RoundBasics.
Local Open Scope R_scope.

Lemma bpow_pos e : 0 < bpow e.
Proof. apply powerRZ_lt. lra. Qed.

Lemma bpow_add e1 e2 : bpow (e1 + e2) = bpow e1 * bpow e2.
Proof. apply powerRZ_add. lra. Qed.

Lemma bpow_0 : bpow 0 = 1.
Proof. reflexivity. Qed.

Lemma bpow_1 : bpow 1 = 2.
Proof. unfold bpow. simpl. lra. Qed.

Lemma bpow_m1 : bpow (-1) = / 2.
Proof. unfold bpow. simpl. f_equal. lra. Qed.

Lemma bpow_opp e : bpow (- e) = / bpow e.
Proof. apply powerRZ_neg'. Qed.

Lemma bpow_IZR (k : Z) : (0 ≤ k)%Z → bpow k = IZR (2 ^ k).
Proof.
  intros Hk. unfold bpow.
  rewrite <- (Z2Nat.id k) by assumption.
  rewrite <- pow_powerRZ, pow_IZR. reflexivity.
Qed.

Lemma bpow_le e1 e2 : (e1 ≤ e2)%Z → bpow e1 <= bpow e2.
Proof.
  intros H. replace e2 with (e1 + (e2 - e1))%Z by lia.
  rewrite bpow_add. rewrite (bpow_IZR (e2 - e1)) by lia.
  assert (1 <= IZR (2 ^ (e2 - e1))).
  { apply IZR_le. assert (0 < 2 ^ (e2 - e1))%Z by (apply Z.pow_pos_nonneg; lia). lia. }
  pose proof (bpow_pos e1). nra.
Qed.

Lemma bpow_lt e1 e2 : (e1 < e2)%Z → bpow e1 < bpow e2.
Proof.
  intros H. replace e2 with (e1 + 1 + (e2 - e1 - 1))%Z by lia.
  rewrite !bpow_add, bpow_1. 
  pose proof (bpow_le 0 (e2 - e1 - 1) ltac:(lia)) as H1. rewrite bpow_0 in H1.
  pose proof (bpow_pos e1). nra.
Qed.

Lemma bpow_S e : bpow (e + 1) = 2 * bpow e.
Proof. rewrite bpow_add, bpow_1. lra. Qed.

(** ** Number of binary digits *)

Lemma digits2_pos_bounds (p : positive) :
  (2 ^ (Z.pos (digits2_pos p) - 1) ≤ Z.pos p < 2 ^ Z.pos (digits2_pos p))%Z.
Proof.
  induction p as [p IH|p IH|]; cbn [digits2_pos].
  - rewrite Pos2Z.inj_succ.
    replace (Z.succ (Z.pos (digits2_pos p)) - 1)%Z with (Z.succ (Z.pos (digits2_pos p) - 1))%Z by lia.
    rewrite !Z.pow_succ_r by lia. lia.
  - rewrite Pos2Z.inj_succ.
    replace (Z.succ (Z.pos (digits2_pos p)) - 1)%Z with (Z.succ (Z.pos (digits2_pos p) - 1))%Z by lia.
    rewrite !Z.pow_succ_r by lia. lia.
  - cbn. lia.
Qed.

Lemma Zdigits2_bounds (m : Z) :
  (0 < m)%Z → (2 ^ (Zdigits2 m - 1) ≤ m < 2 ^ Zdigits2 m)%Z.
Proof. destruct m as [|p|p]; try lia. intros _. apply digits2_pos_bounds. Qed.

Lemma Zdigits2_nonneg m : (0 ≤ Zdigits2 m)%Z.
Proof. destruct m; cbn; lia. Qed.

Lemma Zdigits2_pos m : (0 < m)%Z → (0 < Zdigits2 m)%Z.
Proof. destruct m; cbn; lia. Qed.

(** The number of digits is determined by the bounds. *)
Lemma Zdigits2_unique (m d : Z) :
  (2 ^ (d - 1) ≤ m < 2 ^ d)%Z → (0 < m)%Z → Zdigits2 m = d.
Proof.
  intros [H1 H2] Hm.
  pose proof (Zdigits2_bounds m Hm) as [H3 H4].
  pose proof (Zdigits2_pos m Hm).
  assert (0 < d)%Z.
  { destruct (Z.lt_ge_cases 0 d) as [?|?]; [assumption|].
    assert (2 ^ d ≤ 2 ^ 0)%Z by (apply Z.pow_le_mono_r; lia). 
    change (2 ^ 0)%Z with 1%Z in *. lia. }
  destruct (Z.lt_trichotomy (Zdigits2 m) d) as [Hlt|[?|Hgt]]; [|assumption|].
  - assert (2 ^ Zdigits2 m ≤ 2 ^ (d - 1))%Z by (apply Z.pow_le_mono_r; lia). lia.
  - assert (2 ^ d ≤ 2 ^ (Zdigits2 m - 1))%Z by (apply Z.pow_le_mono_r; lia). lia.
Qed.

Lemma Zdigits2_mono (m1 m2 : Z) :
  (0 ≤ m1 ≤ m2)%Z → (Zdigits2 m1 ≤ Zdigits2 m2)%Z.
Proof.
  intros [H1 H2].
  destruct (Z.eq_dec m1 0%Z) as [->|?]; [apply Zdigits2_nonneg|].
  pose proof (Zdigits2_bounds m1 ltac:(lia)) as [H3 H4].
  pose proof (Zdigits2_bounds m2 ltac:(lia)) as [H5 H6].
  destruct (Z.le_gt_cases (Zdigits2 m1) (Zdigits2 m2)) as [?|Hgt]; [assumption|].
  assert (2 ^ Zdigits2 m2 ≤ 2 ^ (Zdigits2 m1 - 1))%Z by (apply Z.pow_le_mono_r; [lia|lia]).
  lia.
Qed.

(** ** Shifting a mantissa to the right *)

Lemma shr_1_inv x mrs : shr_inv x mrs → shr_inv (x / 2) (shr_1 mrs).
Proof.
  destruct mrs as [m r s]. unfold shr_inv. cbn [shr_m]. intros [Hm H].
  destruct m as [|[p|p|]|p]; [| | | |lia].
  - destruct r, s; unfold inb in *;
      cbn [loc_of_shr_record shr_1 shr_m orb] in *; (split; [lia|]); lra.
  - pose proof (IZR_POS_xI p) as E.
    destruct r, s; unfold inb in *;
      cbn [loc_of_shr_record shr_1 shr_m orb] in *; (split; [lia|]); lra.
  - pose proof (IZR_POS_xO p) as E.
    destruct r, s; unfold inb in *;
      cbn [loc_of_shr_record shr_1 shr_m orb] in *; (split; [lia|]); lra.
  - destruct r, s; unfold inb in *;
      cbn [loc_of_shr_record shr_1 shr_m orb] in *; (split; [lia|]); lra.
Qed.

Lemma iter_pos_shr_1_inv (n : positive) x mrs :
  shr_inv x mrs → shr_inv (x * bpow (- Z.pos n)) (SpecFloat.iter_pos shr_1 n mrs).
Proof.
  revert x mrs. induction n as [n IH|n IH|]; intros x mrs H; cbn [SpecFloat.iter_pos].
  - apply shr_1_inv in H. apply IH in H. apply IH in H.
    replace (x * bpow (- Z.pos n~1)) with (x / 2 * bpow (- Z.pos n) * bpow (- Z.pos n)); [exact H|].
    replace (- Z.pos n~1)%Z with (- Z.pos n + - Z.pos n + - 1)%Z by lia.
    rewrite !bpow_add, bpow_m1. lra.
  - apply IH in H. apply IH in H.
    replace (x * bpow (- Z.pos n~0)) with (x * bpow (- Z.pos n) * bpow (- Z.pos n)); [exact H|].
    replace (- Z.pos n~0)%Z with (- Z.pos n + - Z.pos n)%Z by lia.
    rewrite !bpow_add. lra.
  - apply shr_1_inv in H.
    replace (x * bpow (Z.opp (Z.pos 1))) with (x / 2); [exact H|].
    unfold bpow. simpl. lra.
Qed.

Lemma loc_of_shr_record_of_loc m l :
  loc_of_shr_record (shr_record_of_loc m l) = l.
Proof. destruct l as [|[]]; reflexivity. Qed.

Lemma shr_m_shr_record_of_loc m l : shr_m (shr_record_of_loc m l) = m.
Proof. destruct l as [|[]]; reflexivity. Qed.

Lemma inb_bounds x m l : inb x m l → IZR m <= x < IZR m + 1.
Proof. destruct l as [|[]]; cbn; lra. Qed.

(** Two integer parts of the same number at scales [0] and [n]. *)
Lemma inb_div x m l m' l' (n : Z) :
  (0 ≤ n)%Z → inb x m l → inb (x * bpow (- n)) m' l' → m' = (m / 2 ^ n)%Z.
Proof.
  intros Hn H H'. apply inb_bounds in H, H'.
  rewrite bpow_opp, (bpow_IZR n Hn) in H'.
  assert (Hp : (0 < 2 ^ n)%Z) by (apply Z.pow_pos_nonneg; lia).
  assert (HpR : 0 < IZR (2 ^ n)) by (apply IZR_lt; lia).
  assert (H1 : IZR m' * IZR (2 ^ n) <= x).
  { destruct H' as [H' _]. apply (Rmult_le_compat_r (IZR (2 ^ n))) in H'; [|lra].
    replace (x * / IZR (2 ^ n) * IZR (2 ^ n)) with x in H' by (field; lra). exact H'. }
  assert (H2 : x < (IZR m' + 1) * IZR (2 ^ n)).
  { destruct H' as [_ H']. apply (Rmult_lt_compat_r (IZR (2 ^ n))) in H'; [|lra].
    replace (x * / IZR (2 ^ n) * IZR (2 ^ n)) with x in H' by (field; lra). exact H'. }
  assert (H3 : (m' * 2 ^ n < m + 1)%Z).
  { apply lt_IZR. rewrite mult_IZR, plus_IZR. lra. }
  assert (H4 : (m < (m' + 1) * 2 ^ n)%Z).
  { apply lt_IZR. rewrite mult_IZR, plus_IZR. lra. }
  apply (Z.div_unique_pos m (2 ^ n) m' (m - m' * 2 ^ n)); lia.
Qed.

Lemma Zdigits2_div_pow2 (m n : Z) :
  (0 < m)%Z → (0 ≤ n)%Z →
  Zdigits2 (m / 2 ^ n) = Z.max 0 (Zdigits2 m - n).
Proof.
  intros Hm Hn.
  pose proof (Zdigits2_bounds m Hm) as [H1 H2].
  pose proof (Zdigits2_pos m Hm) as Hd.
  assert (Hp : (0 < 2 ^ n)%Z) by (apply Z.pow_pos_nonneg; lia).
  destruct (Z.le_gt_cases (Zdigits2 m) n) as [Hle|Hgt].
  - assert (2 ^ Zdigits2 m ≤ 2 ^ n)%Z by (apply Z.pow_le_mono_r; lia).
    rewrite Z.div_small by lia. cbn. lia.
  - rewrite Z.max_r by lia.
    apply Zdigits2_unique.
    + assert (E1 : (2 ^ (Zdigits2 m - 1) = 2 ^ (Zdigits2 m - n - 1) * 2 ^ n)%Z).
      { rewrite <- Z.pow_add_r by lia. f_equal. lia. }
      assert (E2 : (2 ^ Zdigits2 m = 2 ^ (Zdigits2 m - n) * 2 ^ n)%Z).
      { rewrite <- Z.pow_add_r by lia. f_equal. lia. }
      split.
      * apply Z.div_le_lower_bound; lia.
      * apply Z.div_lt_upper_bound; lia.
    + apply Z.div_str_pos. split; [lia|].
      assert (2 ^ n ≤ 2 ^ (Zdigits2 m - 1))%Z by (apply Z.pow_le_mono_r; lia). lia.
Qed.

Lemma IZR_lt_bpow (m d : Z) : (0 ≤ m)%Z → (Zdigits2 m ≤ d)%Z → IZR m < bpow d.
Proof.
  intros Hm Hd. pose proof (Zdigits2_nonneg m).
  rewrite bpow_IZR by lia. apply IZR_lt.
  destruct (Z.eq_dec m 0%Z) as [->|Hne].
  - apply Z.pow_pos_nonneg; lia.
  - pose proof (Zdigits2_bounds m ltac:(lia)) as [_ H2].
    assert (2 ^ Zdigits2 m ≤ 2 ^ d)%Z by (apply Z.pow_le_mono_r; lia). lia.
Qed.

Lemma bpow_le_IZR (m d : Z) : (0 < m)%Z → (d ≤ Zdigits2 m)%Z → bpow (d - 1) <= IZR m.
Proof.
  intros Hm Hd. pose proof (Zdigits2_pos m Hm).
  pose proof (Zdigits2_bounds m Hm) as [H1 _].
  apply Rle_trans with (bpow (Zdigits2 m - 1)); [apply bpow_le; lia|].
  rewrite bpow_IZR by lia. apply IZR_le. exact H1.
Qed.

End RoundBasics.

Section Format.
Local Open Scope R_scope.
Variables prec emax : Z.
Hypothesis prec_pos : (0 < prec)%Z.

Abbreviation fexp := (SpecFloat.fexp prec emax).
Abbreviation emin := (SpecFloat.emin prec emax).

Lemma fexp_ge_emin z : (emin ≤ fexp z)%Z.
Proof. unfold SpecFloat.fexp. lia. Qed.

Lemma fexp_mono z1 z2 : (z1 ≤ z2)%Z → (fexp z1 ≤ fexp z2)%Z.
Proof. unfold SpecFloat.fexp. lia. Qed.

Lemma fexp_small z : (z ≤ fexp z)%Z → fexp z = emin.
Proof. unfold SpecFloat.fexp. lia. Qed.

Lemma fexp_emin : fexp emin = emin.
Proof. unfold SpecFloat.fexp. lia. Qed.

Lemma shr_fexp_canon v m e l :
  repr prec emax v m e l →
  canon prec emax v (shr_m (shr_fexp prec emax m e l).1) (shr_fexp prec emax m e l).2
    (loc_of_shr_record (shr_fexp prec emax m e l).1).
Proof.
  intros (Hm & Hin & He). unfold shr_fexp, shr.
  destruct (fexp (Zdigits2 m + e) - e)%Z as [|n|n] eqn:En; [| |lia].
  - cbn [fst snd]. rewrite loc_of_shr_record_of_loc, shr_m_shr_record_of_loc.
    split; [assumption|]. split; [assumption|]. lia.
  - cbn [fst snd].
    assert (Hinv : shr_inv (v * bpow (- e)) (shr_record_of_loc m l)).
    { split; rewrite ?loc_of_shr_record_of_loc, shr_m_shr_record_of_loc; assumption. }
    apply (iter_pos_shr_1_inv n) in Hinv. destruct Hinv as [Hm' Hin'].
    set (mrs := SpecFloat.iter_pos shr_1 n (shr_record_of_loc m l)) in *.
    assert (Hdiv : shr_m mrs = (m / 2 ^ Z.pos n)%Z).
    { eapply inb_div; [lia|exact Hin|exact Hin']. }
    split; [assumption|]. split.
    + replace (v * bpow (- (e + Z.pos n))) with (v * bpow (- e) * bpow (- Z.pos n)); [exact Hin'|].
      replace (- (e + Z.pos n))%Z with (- e + - Z.pos n)%Z by lia.
      rewrite bpow_add. lra.
    + rewrite Hdiv.
      destruct (Z.eq_dec m 0%Z) as [->|Hne].
      * rewrite Z.div_0_l by (apply Z.pow_nonzero; lia).
        cbn [Zdigits2] in *. rewrite Z.add_0_l in *.
        assert (fexp e = emin) by (apply fexp_small; lia).
        replace (e + Z.pos n)%Z with emin by lia. symmetry. apply fexp_emin.
      * rewrite Zdigits2_div_pow2 by lia.
        destruct (Z.le_gt_cases (Zdigits2 m) (Z.pos n)) as [Hle|Hgt].
        -- rewrite Z.max_l by lia. rewrite Z.add_0_l.
           assert (fexp (Zdigits2 m + e) = emin) by (apply fexp_small; lia).
           replace (e + Z.pos n)%Z with emin by lia. symmetry. apply fexp_emin.
        -- rewrite Z.max_r by lia.
           replace (Zdigits2 m - Z.pos n + (e + Z.pos n))%Z with (Zdigits2 m + e)%Z by lia.
           lia.
Qed.

(** *** Rounding a canonical description *)

Lemma rne_bounds m l :
  (m ≤ round_nearest_even m l ≤ m + 1)%Z.
Proof. destruct l as [|[]]; cbn; try destruct (Z.even m); lia. Qed.

Lemma rne_mono x1 x2 m l1 l2 :
  inb x1 m l1 → inb x2 m l2 → x1 <= x2 →
  (round_nearest_even m l1 ≤ round_nearest_even m l2)%Z.
Proof.
  destruct l1 as [|[]], l2 as [|[]]; cbn; intros H1 H2 H;
    try destruct (Z.even m); first [lia | exfalso; lra].
Qed.

Lemma canon_cmant v m e l : canon prec emax v m e l → cmant prec emax m e.
Proof. intros (? & _ & ?). split; assumption. Qed.

Lemma cmant_digits m e : cmant prec emax m e → (Zdigits2 m ≤ prec)%Z.
Proof. intros (_ & He). unfold SpecFloat.fexp in He. lia. Qed.

Lemma cmant_emin m e : cmant prec emax m e → (emin ≤ e)%Z.
Proof. intros (_ & He). rewrite He. apply fexp_ge_emin. Qed.

Lemma cmant_normal m e :
  cmant prec emax m e → (emin < e)%Z → Zdigits2 m = prec ∧ (0 < m)%Z.
Proof.
  intros (Hm & He) Hlt. unfold SpecFloat.fexp in He.
  assert (Hd : Zdigits2 m = prec) by lia. split; [assumption|].
  destruct m as [|p|p]; [cbn in Hd; lia|lia|lia].
Qed.

Lemma canon_value v m e l :
  canon prec emax v m e l → F2R m e <= v < F2R (m + 1) e.
Proof.
  intros (_ & Hin & _). apply inb_bounds in Hin.
  unfold F2R. rewrite plus_IZR.
  pose proof (bpow_pos e) as Hp.
  assert (Hv : v = v * bpow (- e) * bpow e).
  { rewrite bpow_opp. field. lra. }
  split.
  - rewrite Hv. apply Rmult_le_compat_r; lra.
  - rewrite Hv. apply Rmult_lt_compat_r; lra.
Qed.

Lemma cmant_lt_exp m1 e1 m2 e2 :
  cmant prec emax m1 e1 → cmant prec emax m2 e2 → (e1 < e2)%Z →
  F2R (m1 + 1) e1 <= F2R m2 e2.
Proof.
  intros H1 H2 Hlt.
  pose proof (cmant_digits _ _ H1) as Hd1.
  pose proof (cmant_emin _ _ H1) as He1.
  destruct (cmant_normal _ _ H2 ltac:(lia)) as [Hd2 Hm2].
  destruct H1 as (Hm1 & _).
  apply Rle_trans with (bpow (prec + e1)).
  - unfold F2R. rewrite bpow_add. apply Rmult_le_compat_r; [pose proof (bpow_pos e1); lra|].
    rewrite bpow_IZR by lia. apply IZR_le.
    destruct (Z.eq_dec m1 0%Z) as [->|Hne].
    + assert (0 < 2 ^ prec)%Z by (apply Z.pow_pos_nonneg; lia). lia.
    + pose proof (Zdigits2_bounds m1 ltac:(lia)) as [_ Hb].
      assert (2 ^ Zdigits2 m1 ≤ 2 ^ prec)%Z by (apply Z.pow_le_mono_r; lia). lia.
  - apply Rle_trans with (bpow (prec - 1 + e2)); [apply bpow_le; lia|].
    unfold F2R. rewrite bpow_add. apply Rmult_le_compat_r; [pose proof (bpow_pos e2); lra|].
    apply bpow_le_IZR; lia.
Qed.

Lemma Rnd_mono v1 v2 w1 w2 :
  Rnd prec emax v1 w1 → Rnd prec emax v2 w2 → v1 <= v2 → w1 <= w2.
Proof.
  intros (m1 & e1 & l1 & H1 & ->) (m2 & e2 & l2 & H2 & ->) Hv.
  pose proof (canon_value _ _ _ _ H1) as Hv1.
  pose proof (canon_value _ _ _ _ H2) as Hv2.
  pose proof (rne_bounds m1 l1) as Hb1.
  pose proof (rne_bounds m2 l2) as Hb2.
  destruct (Z.lt_trichotomy e1 e2) as [Hlt|[->|Hgt]].
  - pose proof (cmant_lt_exp _ _ _ _ (canon_cmant _ _ _ _ H1) (canon_cmant _ _ _ _ H2) Hlt) as Hle.
    apply Rle_trans with (F2R (m1 + 1) e1).
    + unfold F2R. apply Rmult_le_compat_r; [pose proof (bpow_pos e1); lra|].
      apply IZR_le. lia.
    + apply Rle_trans with (F2R m2 e2); [assumption|].
      unfold F2R. apply Rmult_le_compat_r; [pose proof (bpow_pos e2); lra|].
      apply IZR_le. lia.
  - unfold F2R. apply Rmult_le_compat_r; [pose proof (bpow_pos e2); lra|].
    apply IZR_le.
    destruct H1 as (_ & Hin1 & _), H2 as (_ & Hin2 & _).
    assert (Hx : v1 * bpow (- e2) <= v2 * bpow (- e2)).
    { apply Rmult_le_compat_r; [pose proof (bpow_pos (- e2)); lra|assumption]. }
    pose proof (inb_bounds _ _ _ Hin1) as B1.
    pose proof (inb_bounds _ _ _ Hin2) as B2.
    assert (Hm : (m1 < m2 + 1)%Z) by (apply lt_IZR; rewrite plus_IZR; lra).
    destruct (Z.eq_dec m1 m2) as [->|Hne].
    + eapply rne_mono; eassumption.
    + lia.
  - exfalso.
    pose proof (cmant_lt_exp _ _ _ _ (canon_cmant _ _ _ _ H2) (canon_cmant _ _ _ _ H1) Hgt) as Hle. lra.
Qed.

(** *** From the rounded mantissa to the float *)

Lemma binary_round_aux_eq sx mx ex lx :
  binary_round_aux prec emax sx mx ex lx =
    let t := shr_fexp prec emax mx ex lx in
    let t' := shr_fexp prec emax
                (round_nearest_even (shr_m t.1) (loc_of_shr_record t.1)) t.2 loc_Exact in
    mk_float prec emax sx (shr_m t'.1) t'.2.
Proof.
  unfold binary_round_aux, mk_float.
  destruct (shr_fexp prec emax mx ex lx) as [mrs' e']. cbn [fst snd].
  destruct (shr_fexp prec emax _ e' loc_Exact) as [mrs'' e'']. reflexivity.
Qed.

Lemma renormalize m e l :
  cmant prec emax m e →
  let t := shr_fexp prec emax (round_nearest_even m l) e loc_Exact in
  cmant prec emax (shr_m t.1) t.2 ∧ F2R (shr_m t.1) t.2 = F2R (round_nearest_even m l) e.
Proof.
  intros [Hm He]. set (M := round_nearest_even m l).
  pose proof (rne_bounds m l) as HM. fold M in HM.
  assert (Hrepr : repr prec emax (F2R M e) M e loc_Exact).
  { split; [lia|]. split.
    - cbn. unfold F2R. rewrite bpow_opp. field. pose proof (bpow_pos e). lra.
    - rewrite He at 1. apply fexp_mono.
      pose proof (Zdigits2_mono m M ltac:(lia)). lia. }
  pose proof (shr_fexp_canon _ _ _ _ Hrepr) as (Hm' & Hin & He').
  cbn zeta. split; [split; assumption|].
  revert Hin He' Hm'. unfold shr_fexp, shr.
  destruct (fexp (Zdigits2 M + e) - e)%Z as [|n|n] eqn:En.
  - cbn [fst snd]. rewrite shr_m_shr_record_of_loc. reflexivity.
  - cbn [fst snd]. intros Hin He' Hm'.
    (* the shift is by one place and [M] is a power of two *)
    assert (Hd : (Zdigits2 M ≤ Zdigits2 m + 1)%Z).
    { destruct (Z.eq_dec m 0%Z) as [->|Hne].
      - assert (M = 0 ∨ M = 1)%Z as [->| ->] by lia; cbn; lia.
      - pose proof (Zdigits2_bounds m ltac:(lia)) as [_ Hb].
        pose proof (Zdigits2_pos m ltac:(lia)).
        assert (Hlt : (M < 2 ^ (Zdigits2 m + 1))%Z).
        { rewrite Z.pow_add_r by lia. lia. }
        destruct (Z.le_gt_cases (Zdigits2 M) (Zdigits2 m + 1)) as [?|Hgt]; [assumption|].
        pose proof (Zdigits2_bounds M ltac:(lia)) as [Hb' _].
        assert (2 ^ (Zdigits2 m + 1) ≤ 2 ^ (Zdigits2 M - 1))%Z
          by (apply Z.pow_le_mono_r; lia).
        lia. }
    assert (Hn : n = 1%positive).
    { unfold SpecFloat.fexp in He, En |- *. lia. }
    subst n.
    assert (HdM : Zdigits2 M = (Zdigits2 m + 1)%Z).
    { unfold SpecFloat.fexp in He, En. lia. }
    assert (Hmpos : (0 < m)%Z).
    { destruct (Z.eq_dec m 0%Z) as [->|Hne]; [|lia].
      cbn [Zdigits2] in *. unfold SpecFloat.fexp in He, En. lia. }
    pose proof (Zdigits2_bounds m Hmpos) as [_ Hb].
    pose proof (Zdigits2_pos m Hmpos) as Hdpos.
    pose proof (Zdigits2_bounds M ltac:(lia)) as [Hb' _].
    rewrite HdM in Hb'. replace (Zdigits2 m + 1 - 1)%Z with (Zdigits2 m) in Hb' by lia.
    assert (HMeq : M = (2 * 2 ^ (Zdigits2 m - 1))%Z).
    { rewrite <- Z.pow_succ_r by lia. replace (Z.succ (Zdigits2 m - 1)) with (Zdigits2 m) by lia. lia. }
    assert (0 < 2 ^ (Zdigits2 m - 1))%Z by (apply Z.pow_pos_nonneg; lia).
    destruct (2 ^ (Zdigits2 m - 1))%Z as [|q|q] eqn:Eq; [lia| |lia].
    change (2 * Z.pos q)%Z with (Z.pos q~0) in HMeq.
    rewrite HMeq. cbn [SpecFloat.iter_pos shr_record_of_loc shr_1 shr_m].
    unfold F2R. rewrite bpow_S. rewrite (IZR_POS_xO q). lra.
  - intros _ _ _. exfalso. destruct Hrepr as (_ & _ & Hle). lia.
Qed.

Lemma binary_round_aux_spec sx v m e l :
  repr prec emax v m e l →
  ∃ w m' e', Rnd prec emax v w ∧ cmant prec emax m' e' ∧ F2R m' e' = w ∧
    binary_round_aux prec emax sx m e l = mk_float prec emax sx m' e'.
Proof.
  intros Hrepr. rewrite binary_round_aux_eq. cbn zeta.
  pose proof (shr_fexp_canon _ _ _ _ Hrepr) as Hc.
  destruct (shr_fexp prec emax m e l) as [mrs e1]. cbn [fst snd] in *.
  assert (Hcm : cmant prec emax (shr_m mrs) e1) by (eapply canon_cmant; eassumption).
  pose proof (renormalize _ _ (loc_of_shr_record mrs) Hcm) as [Hcm' Hval].
  cbn zeta in *.
  destruct (shr_fexp prec emax _ e1 loc_Exact) as [mrs' e2]. cbn [fst snd] in *.
  exists (F2R (round_nearest_even (shr_m mrs) (loc_of_shr_record mrs)) e1), (shr_m mrs'), e2.
  split; [|split; [assumption|split; [assumption|reflexivity]]].
  exists (shr_m mrs), e1, (loc_of_shr_record mrs). split; [assumption|reflexivity].
Qed.

(** *** Order and validity of the results *)

Lemma cmant_le m1 e1 m2 e2 :
  cmant prec emax m1 e1 → cmant prec emax m2 e2 → (0 < m1)%Z → F2R m1 e1 <= F2R m2 e2 →
  (e1 < e2)%Z ∨ (e1 = e2 ∧ (m1 ≤ m2)%Z).
Proof.
  intros H1 H2 Hm1 Hle.
  destruct (Z.lt_trichotomy e1 e2) as [Hlt|[->|Hgt]]; [left; assumption| |].
  - right. split; [reflexivity|]. apply le_IZR.
    unfold F2R in Hle. pose proof (bpow_pos e2).
    apply Rmult_le_reg_r with (bpow e2); assumption.
  - exfalso. pose proof (cmant_lt_exp _ _ _ _ H2 H1 Hgt) as Hc.
    unfold F2R in *. rewrite plus_IZR in Hc. pose proof (bpow_pos e2). nra.
Qed.

Lemma mk_float_leb m1 e1 m2 e2 :
  cmant prec emax m1 e1 → cmant prec emax m2 e2 → F2R m1 e1 <= F2R m2 e2 →
  SFleb (mk_float prec emax false m1 e1) (mk_float prec emax false m2 e2) = true.
Proof.
  intros H1 H2 Hle.
  destruct m1 as [|p1|p1]; [| |destruct H1; lia].
  - destruct m2 as [|p2|p2]; [reflexivity| |destruct H2; lia].
    cbn. destruct (e2 <=? emax - prec)%Z; reflexivity.
  - assert (Hm2 : (0 < m2)%Z).
    { apply lt_IZR. unfold F2R in Hle.
      pose proof (bpow_pos e1). pose proof (bpow_pos e2).
      assert (0 < IZR (Z.pos p1)) by (apply IZR_lt; lia).
      assert (0 < IZR (Z.pos p1) * bpow e1) by (apply Rmult_lt_0_compat; assumption).
      destruct (Rlt_or_le 0 (IZR m2)) as [?|Hn]; [assumption|exfalso].
      assert (IZR m2 * bpow e2 <= 0) by nra. lra. }
    destruct m2 as [|p2|p2]; [lia| |lia].
    destruct (cmant_le _ _ _ _ H1 H2 ltac:(lia) Hle) as [Hlt|[-> Hm]].
    + cbn. destruct (Z.leb_spec e1 (emax - prec)), (Z.leb_spec e2 (emax - prec));
        try reflexivity; [|lia].
      unfold SFleb, SFcompare. rewrite (proj2 (Z.compare_lt_iff e1 e2) Hlt). reflexivity.
    + cbn. destruct (Z.leb_spec e2 (emax - prec)); [|reflexivity].
      unfold SFleb, SFcompare. rewrite Z.compare_refl.
      change (Pos.compare_cont Eq p1 p2) with (Pos.compare p1 p2).
      destruct (Pos.compare_spec p1 p2); [reflexivity|reflexivity|lia].
Qed.

Lemma mk_float_valid sx m e :
  cmant prec emax m e → SpecFloat.valid_binary prec emax (mk_float prec emax sx m e) = true.
Proof.
  intros [Hm He]. destruct m as [|p|p]; [reflexivity| |reflexivity].
  unfold mk_float. destruct (Z.leb_spec e (emax - prec)) as [Hle|?]; [|reflexivity].
  unfold SpecFloat.valid_binary, SpecFloat.bounded, SpecFloat.canonical_mantissa.
  cbn [Zdigits2] in He. rewrite <- He, Z.eqb_refl.
  apply Z.leb_le in Hle. rewrite Hle. reflexivity.
Qed.

Lemma mk_float_opp sx m e : SFopp (mk_float prec emax sx m e) = mk_float prec emax (negb sx) m e.
Proof.
  destruct m as [|p|p]; [reflexivity| |reflexivity].
  cbn. destruct (e <=? emax - prec)%Z; reflexivity.
Qed.

Theorem binary_round_aux_mono v1 m1 e1 l1 v2 m2 e2 l2 :
  repr prec emax v1 m1 e1 l1 → repr prec emax v2 m2 e2 l2 → v1 <= v2 →
  SFleb (binary_round_aux prec emax false m1 e1 l1)
        (binary_round_aux prec emax false m2 e2 l2) = true.
Proof.
  intros H1 H2 Hv.
  destruct (binary_round_aux_spec false _ _ _ _ H1) as (w1 & m1' & e1' & R1 & C1 & V1 & ->).
  destruct (binary_round_aux_spec false _ _ _ _ H2) as (w2 & m2' & e2' & R2 & C2 & V2 & ->).
  apply mk_float_leb; [assumption|assumption|].
  rewrite V1, V2. eapply Rnd_mono; eassumption.
Qed.

Theorem binary_round_aux_valid sx v m e l :
  repr prec emax v m e l → SpecFloat.valid_binary prec emax (binary_round_aux prec emax sx m e l) = true.
Proof.
  intros H.
  destruct (binary_round_aux_spec sx _ _ _ _ H) as (w & m' & e' & _ & C & _ & ->).
  apply mk_float_valid. assumption.
Qed.

Lemma binary_round_aux_opp sx m e l :
  binary_round_aux prec emax (negb sx) m e l =
    SFopp (binary_round_aux prec emax sx m e l).
Proof. rewrite !binary_round_aux_eq. cbn zeta. rewrite mk_float_opp. reflexivity. Qed.

Lemma bounded_cmant m e :
  SpecFloat.bounded prec emax m e = true → cmant prec emax (Z.pos m) e ∧ (e ≤ emax - prec)%Z.
Proof.
  unfold SpecFloat.bounded, SpecFloat.canonical_mantissa. intros H.
  apply andb_prop in H as [H1 H2]. apply Z.eqb_eq in H1. apply Z.leb_le in H2.
  split; [|assumption]. split; [lia|]. cbn [Zdigits2]. lia.
Qed.

(** A number of the format rounds to itself. *)
Theorem binary_round_aux_exact sx m e :
  SpecFloat.bounded prec emax m e = true →
  binary_round_aux prec emax sx (Z.pos m) e loc_Exact = S754_finite sx m e.
Proof.
  intros Hb. destruct (bounded_cmant _ _ Hb) as [[_ Hc] He].
  cbn [Zdigits2] in Hc.
  unfold binary_round_aux, shr_fexp, shr. cbn [Zdigits2 shr_record_of_loc].
  rewrite <- Hc, Z.sub_diag. cbn [shr_m loc_of_shr_record round_nearest_even Zdigits2].
  rewrite <- Hc, Z.sub_diag. cbn [shr_m].
  apply Z.leb_le in He. rewrite He. reflexivity.
Qed.

(** Rounding depends on the value only. *)
Lemma cmant_inj m1 e1 m2 e2 :
  cmant prec emax m1 e1 → cmant prec emax m2 e2 → F2R m1 e1 = F2R m2 e2 → m1 = m2 ∧ e1 = e2.
Proof.
  intros H1 H2 Heq.
  assert (Hz : ∀ m e m' e', cmant prec emax m e → cmant prec emax m' e' → F2R m e = F2R m' e' →
                 m = 0%Z → m' = 0%Z ∧ e = e').
  { intros m e m' e' [Hm He] [Hm' He'] HF ->.
    unfold F2R in HF. rewrite Rmult_0_l in HF.
    assert (m' = 0%Z).
    { apply eq_IZR. pose proof (bpow_pos e').
      destruct (Rmult_integral _ _ (eq_sym HF)); [assumption|lra]. }
    subst m'. split; [reflexivity|].
    cbn [Zdigits2] in *. unfold SpecFloat.fexp in *. lia. }
  destruct (Z.eq_dec m1 0%Z) as [E1|N1].
  { destruct (Hz _ _ _ _ H1 H2 Heq E1). subst. split; reflexivity. }
  destruct (Z.eq_dec m2 0%Z) as [E2|N2].
  { destruct (Hz _ _ _ _ H2 H1 (eq_sym Heq) E2). subst. split; reflexivity. }
  assert (0 < m1)%Z by (destruct H1; lia).
  assert (0 < m2)%Z by (destruct H2; lia).
  destruct (cmant_le _ _ _ _ H1 H2 ltac:(assumption) ltac:(lra)) as [?|[? ?]];
    destruct (cmant_le _ _ _ _ H2 H1 ltac:(assumption) ltac:(lra)) as [?|[? ?]]; lia.
Qed.

Theorem binary_round_aux_ext sx v m1 e1 l1 m2 e2 l2 :
  repr prec emax v m1 e1 l1 → repr prec emax v m2 e2 l2 →
  binary_round_aux prec emax sx m1 e1 l1 = binary_round_aux prec emax sx m2 e2 l2.
Proof.
  intros H1 H2.
  destruct (binary_round_aux_spec sx _ _ _ _ H1) as (w1 & m1' & e1' & R1 & C1 & V1 & ->).
  destruct (binary_round_aux_spec sx _ _ _ _ H2) as (w2 & m2' & e2' & R2 & C2 & V2 & ->).
  assert (w1 = w2).
  { apply Rle_antisym; eapply Rnd_mono; try eassumption; lra. }
  destruct (cmant_inj _ _ _ _ C1 C2 ltac:(congruence)) as [-> ->]. reflexivity.
Qed.

(** *** Values and order of floats *)

Lemma F2R_pos (p : positive) e : 0 < F2R (Z.pos p) e.
Proof.
  unfold F2R. apply Rmult_lt_0_compat; [apply IZR_lt; lia|apply bpow_pos].
Qed.

Lemma SF2R_nonneg x : nonneg_finite x = true → 0 <= SF2R x.
Proof.
  destruct x as [s| | |[] m e]; cbn; intros H; try discriminate H; try lra.
  pose proof (F2R_pos m e). lra.
Qed.

Lemma SFleb_SF2R x y :
  SpecFloat.valid_binary prec emax x = true →
  SpecFloat.valid_binary prec emax y = true →
  nonneg_finite x = true → nonneg_finite y = true →
  SFleb x y = true → SF2R x <= SF2R y.
Proof.
  intros Vx Vy Nx Ny.
  destruct x as [sx| | |[] mx ex]; try discriminate Nx;
    destruct y as [sy| | |[] my ey]; try discriminate Ny; cbn [SF2R cond_Zopp].
  - lra.
  - intros _. pose proof (F2R_pos my ey). lra.
  - unfold SFleb, SFcompare. intros H. discriminate H.
  - cbn [SpecFloat.valid_binary] in Vx, Vy.
    destruct (bounded_cmant _ _ Vx) as [Cx _], (bounded_cmant _ _ Vy) as [Cy _].
    unfold SFleb, SFcompare.
    destruct (Z.compare_spec ex ey) as [->|Hlt|Hgt]; [| |discriminate].
    + change (Pos.compare_cont Eq mx my) with (Pos.compare mx my).
      destruct (Pos.compare_spec mx my) as [->|Hm|Hm]; [lra| |discriminate].
      intros _. unfold F2R. apply Rmult_le_compat_r; [pose proof (bpow_pos ey); lra|].
      apply IZR_le. lia.
    + intros _. pose proof (cmant_lt_exp _ _ _ _ Cx Cy Hlt) as H.
      unfold F2R in *. rewrite plus_IZR in H. pose proof (bpow_pos ex). nra.
Qed.

Lemma SFcompare_antisym x y :
  SFcompare y x = option_map CompOpp (SFcompare x y).
Proof.
  destruct x as [sx|sx| |sx mx ex], y as [sy|sy| |sy my ey]; cbn;
    try reflexivity;
    try (destruct sx; reflexivity); try (destruct sy; reflexivity);
    try (destruct sx, sy; reflexivity).
  destruct sx, sy; try reflexivity;
    rewrite (Z.compare_antisym ex ey);
    destruct (ex ?= ey)%Z; cbn; try reflexivity;
    change (Pos.compare_cont Eq my mx) with (Pos.compare my mx);
    change (Pos.compare_cont Eq mx my) with (Pos.compare mx my);
    rewrite (Pos.compare_antisym mx my); reflexivity.
Qed.

Lemma SFleb_not_ltb x y : SFleb x y = true → SFltb y x = false.
Proof.
  unfold SFleb, SFltb. rewrite (SFcompare_antisym x y).
  destruct (SFcompare x y) as [[]|]; cbn; congruence.
Qed.

Lemma mk_float_nonneg m e :
  cmant prec emax m e →
  nonneg_finite (mk_float prec emax false m e) = true ∨ mk_float prec emax false m e = S754_infinity false.
Proof.
  intros [Hm _]. destruct m as [|p|p]; [left; reflexivity| |lia].
  unfold mk_float. destruct (e <=? emax - prec)%Z; [left|right]; reflexivity.
Qed.

(** *** Multiplication *)

Hypothesis emin_nonpos : (emin ≤ 0)%Z.

Lemma Zdigits2_mul_ge (m1 m2 : Z) :
  (0 < m1)%Z → (0 < m2)%Z →
  (Zdigits2 m1 + Zdigits2 m2 - 1 ≤ Zdigits2 (m1 * m2))%Z.
Proof.
  intros H1 H2.
  pose proof (Zdigits2_bounds m1 H1) as [B1 _].
  pose proof (Zdigits2_bounds m2 H2) as [B2 _].
  pose proof (Zdigits2_pos m1 H1). pose proof (Zdigits2_pos m2 H2).
  assert (H12 : (0 < m1 * m2)%Z) by lia.
  pose proof (Zdigits2_bounds _ H12) as [_ B].
  assert (Hp : (2 ^ (Zdigits2 m1 - 1 + (Zdigits2 m2 - 1)) ≤ m1 * m2)%Z).
  { rewrite Z.pow_add_r by lia.
    assert (0 < 2 ^ (Zdigits2 m1 - 1))%Z by (apply Z.pow_pos_nonneg; lia).
    assert (0 < 2 ^ (Zdigits2 m2 - 1))%Z by (apply Z.pow_pos_nonneg; lia).
    nia. }
  destruct (Z.le_gt_cases (Zdigits2 m1 + Zdigits2 m2 - 1) (Zdigits2 (m1 * m2)))
    as [?|Hgt]; [assumption|].
  assert (2 ^ Zdigits2 (m1 * m2) ≤ 2 ^ (Zdigits2 m1 - 1 + (Zdigits2 m2 - 1)))%Z
    by (apply Z.pow_le_mono_r; lia).
  lia.
Qed.

Lemma F2R_mul m1 e1 m2 e2 : F2R m1 e1 * F2R m2 e2 = F2R (m1 * m2) (e1 + e2).
Proof. unfold F2R. rewrite mult_IZR, bpow_add. ring. Qed.

Lemma F2R_scale m e : F2R m e * bpow (- e) = IZR m.
Proof. unfold F2R. rewrite bpow_opp. field. pose proof (bpow_pos e). lra. Qed.

Lemma mul_repr m1 e1 m2 e2 :
  SpecFloat.bounded prec emax m1 e1 = true →
  SpecFloat.bounded prec emax m2 e2 = true →
  repr prec emax (F2R (Z.pos m1) e1 * F2R (Z.pos m2) e2) (Z.pos (m1 * m2)) (e1 + e2) loc_Exact.
Proof.
  intros B1 B2.
  destruct (bounded_cmant _ _ B1) as [[_ C1] _].
  destruct (bounded_cmant _ _ B2) as [[_ C2] _].
  split; [lia|]. split.
  - cbn [inb]. rewrite F2R_mul, F2R_scale. reflexivity.
  - rewrite Pos2Z.inj_mul.
    pose proof (Zdigits2_mul_ge (Z.pos m1) (Z.pos m2) ltac:(lia) ltac:(lia)) as Hd.
    pose proof (Zdigits2_pos (Z.pos m1) ltac:(lia)).
    pose proof (Zdigits2_pos (Z.pos m2) ltac:(lia)).
    unfold SpecFloat.fexp, SpecFloat.emin in *. lia.
Qed.

Lemma SFmul_finite sx mx ex sy my ey :
  SFmul prec emax (S754_finite sx mx ex) (S754_finite sy my ey) =
    binary_round_aux prec emax (xorb sx sy) (Z.pos (mx * my)) (ex + ey) loc_Exact.
Proof. reflexivity. Qed.

(** Multiplying by a non-negative finite number is increasing. *)
Theorem SFmul_mono_l x1 x2 y :
  SpecFloat.valid_binary prec emax x1 = true →
  SpecFloat.valid_binary prec emax x2 = true →
  SpecFloat.valid_binary prec emax y = true →
  nonneg_finite x1 = true → nonneg_finite x2 = true → nonneg_finite y = true →
  SF2R x1 <= SF2R x2 →
  SFleb (SFmul prec emax x1 y) (SFmul prec emax x2 y) = true.
Proof.
  intros V1 V2 Vy N1 N2 Ny Hle.
  destruct y as [sy| | |[] my ey]; try discriminate Ny.
  { destruct x1 as [s1| | |[] m1 e1]; try discriminate N1;
      destruct x2 as [s2| | |[] m2 e2]; try discriminate N2; reflexivity. }
  destruct x1 as [s1| | |[] m1 e1]; try discriminate N1;
    destruct x2 as [s2| | |[] m2 e2]; try discriminate N2.
  - reflexivity.
  - cbn [SFmul]. cbn [SpecFloat.valid_binary] in *.
    destruct (binary_round_aux_spec false _ _ _ _ (mul_repr _ _ _ _ V2 Vy))
      as (w & m' & e' & _ & C & _ & E).
    cbn [xorb]. rewrite E. destruct s1.
    + destruct C as [Hm _]. destruct m' as [|p|p]; [reflexivity| |lia].
      unfold mk_float. destruct (e' <=? emax - prec)%Z; reflexivity.
    + apply (mk_float_leb 0 emin); [split; [lia|symmetry; apply fexp_emin]|assumption|].
      destruct C as [Hm _]. unfold F2R. rewrite Rmult_0_l.
      apply Rmult_le_pos; [apply IZR_le; lia|pose proof (bpow_pos e'); lra].
  - exfalso. cbn [SF2R cond_Zopp] in Hle. pose proof (F2R_pos m1 e1). lra.
  - rewrite !SFmul_finite. cbn [xorb]. cbn [SpecFloat.valid_binary] in *.
    eapply binary_round_aux_mono; [apply mul_repr; assumption..|].
    cbn [SF2R cond_Zopp] in Hle.
    apply Rmult_le_compat_r; [pose proof (F2R_pos my ey); lra|assumption].
Qed.

(** *** Division *)

Lemma new_location_eq (d r : Z) :
  new_location d r =
    if (r =? 0)%Z then loc_Exact
    else if Z.even d then loc_Inexact (2 * r ?= d)%Z
    else loc_Inexact match (2 * r + 1 ?= d)%Z with Gt => Gt | _ => Lt end.
Proof.
  unfold new_location, new_location_even, new_location_odd.
  change (IntDef.Z.even d) with (Z.even d).
  change (IntDef.Z.eqb r 0) with (Z.eqb r 0).
  destruct (Z.even d), (r =? 0)%Z; reflexivity.
Qed.

Lemma new_location_spec (d r q : Z) :
  (0 < d)%Z → (0 ≤ r < d)%Z →
  inb (IZR q + IZR r / IZR d) q (new_location d r).
Proof.
  intros Hd Hr.
  assert (HdR : 0 < IZR d) by (apply IZR_lt; lia).
  assert (Hy : IZR r / IZR d * IZR d = IZR r) by (field; lra).
  assert (Hy0 : (0 < r)%Z → 0 < IZR r / IZR d).
  { intros ?. apply Rdiv_lt_0_compat; [apply IZR_lt|]; assumption. }
  assert (Hhalf : (2 * r = d)%Z → IZR r / IZR d = / 2).
  { intros E. assert (Hd2 : IZR d = 2 * IZR r) by (rewrite <- E, mult_IZR; reflexivity).
    rewrite Hd2. field. lra. }
  revert Hy Hy0 Hhalf. generalize (IZR r / IZR d). intros y Hy Hy0 Hhalf.
  rewrite new_location_eq.
  destruct (Z.eq_dec r 0%Z) as [->|Hne].
  { assert (y = 0) by nra. subst y. rewrite Z.eqb_refl; cbn [inb]; lra. }
  assert (Hnb : (r =? 0)%Z = false) by (apply Z.eqb_neq; assumption).
  rewrite !Hnb. specialize (Hy0 ltac:(lia)).
  assert (Hr0 : 0 < IZR r) by (apply IZR_lt; lia).
  assert (Hy1 : y < 1).
  { assert (IZR r < IZR d) by (apply IZR_lt; lia). nra. }
  destruct (Z.even d) eqn:Ev.
  - destruct (Z.compare_spec (2 * r) d) as [E|L|G]; cbn [inb].
    + rewrite (Hhalf E). lra.
    + assert (2 * IZR r < IZR d) by (rewrite <- mult_IZR; apply IZR_lt; assumption). nra.
    + assert (IZR d < 2 * IZR r) by (rewrite <- mult_IZR; apply IZR_lt; assumption). nra.
  - assert (Hodd : (2 * r ≠ d)%Z).
    { intros <-. rewrite Z.even_mul in Ev. discriminate Ev. }
    destruct (Z.compare_spec (2 * r + 1) d) as [E|L|G]; cbn [inb].
    + assert (2 * IZR r < IZR d) by (rewrite <- mult_IZR; apply IZR_lt; lia). nra.
    + assert (2 * IZR r < IZR d) by (rewrite <- mult_IZR; apply IZR_lt; lia). nra.
    + assert (IZR d < 2 * IZR r) by (rewrite <- mult_IZR; apply IZR_lt; lia). nra.
Qed.

Lemma div_core_repr (m1 e1 m2 e2 : Z) :
  (0 < m1)%Z → (0 < m2)%Z →
  let t := SFdiv_core_binary prec emax m1 e1 m2 e2 in
  repr prec emax (F2R m1 e1 / F2R m2 e2) t.1.1 t.1.2 t.2.
Proof.
  intros H1 H2. unfold SFdiv_core_binary.
  set (X := (Zdigits2 m1 + e1 - (Zdigits2 m2 + e2))%Z).
  set (e' := Z.min (fexp X) (e1 - e2)).
  set (s := (e1 - e2 - e')%Z).
  assert (Hs : (0 ≤ s)%Z) by (unfold s, e'; lia).
  set (m' := match s with Z.pos _ => Z.shiftl m1 s | 0%Z => m1 | Z.neg _ => 0%Z end).
  assert (Hm' : m' = (m1 * 2 ^ s)%Z).
  { unfold m'. destruct s as [|p|p]; [cbn; lia| |lia].
    apply Z.shiftl_mul_pow2. lia. }
  pose proof (Z.div_eucl_eq m' m2 ltac:(lia)) as Heq.
  pose proof (Z.mod_pos_bound m' m2 H2) as Hr.
  unfold Z.modulo, Z.div in *.
  destruct (Z.div_eucl m' m2) as [q r]. cbn zeta. cbn [fst snd].
  assert (Hp : (0 < 2 ^ s)%Z) by (apply Z.pow_pos_nonneg; lia).
  assert (Hq : (0 ≤ q)%Z) by nia.
  pose proof (bpow_pos e1). pose proof (bpow_pos e2). pose proof (bpow_pos e').
  assert (H2R : 0 < IZR m2) by (apply IZR_lt; lia).
  split; [assumption|]. split.
  - replace (F2R m1 e1 / F2R m2 e2 * bpow (- e')) with (IZR q + IZR r / IZR m2);
      [apply new_location_spec; assumption|].
    assert (E1 : bpow e1 = bpow s * bpow e2 * bpow e').
    { rewrite <- !bpow_add. f_equal. unfold s. lia. }
    assert (E2 : IZR m1 * bpow s = IZR m2 * IZR q + IZR r).
    { rewrite bpow_IZR by assumption. rewrite <- mult_IZR, <- Hm', Heq.
      rewrite plus_IZR, mult_IZR. reflexivity. }
    unfold F2R. rewrite bpow_opp, E1.
    replace (IZR m1 * (bpow s * bpow e2 * bpow e') / (IZR m2 * bpow e2) * / bpow e')
      with (IZR m1 * bpow s / IZR m2) by (field; lra).
    rewrite E2. field. lra.
  - pose proof (Zdigits2_bounds m1 H1) as [B1 _].
    pose proof (Zdigits2_bounds m2 H2) as [_ B2].
    pose proof (Zdigits2_pos m1 H1). pose proof (Zdigits2_pos m2 H2).
    assert (Hlow : (2 ^ (Zdigits2 m1 - 1 + s) ≤ m')%Z).
    { rewrite Hm', Z.pow_add_r by lia. nia. }
    destruct (Z.eq_dec q 0%Z) as [->|Hq0].
    + cbn [Zdigits2]. rewrite Z.add_0_l.
      assert (Hlt : (m' < m2)%Z) by lia.
      assert (HX : (X ≤ e')%Z).
      { destruct (Z.le_gt_cases (Zdigits2 m2) (Zdigits2 m1 - 1 + s)) as [Hc|?].
        - assert (2 ^ Zdigits2 m2 ≤ 2 ^ (Zdigits2 m1 - 1 + s))%Z
            by (apply Z.pow_le_mono_r; lia). lia.
        - unfold X, s in *. lia. }
      assert (fexp X = emin) by (apply fexp_small; unfold e' in HX; lia).
      unfold e', SpecFloat.fexp in *. lia.
    + apply Z.le_trans with (fexp X); [unfold e'; lia|].
      apply fexp_mono.
      assert (Hd : (Zdigits2 m1 + s - Zdigits2 m2 ≤ Zdigits2 q)%Z).
      { pose proof (Zdigits2_pos q ltac:(lia)).
        destruct (Z.le_gt_cases (Zdigits2 m1 + s - Zdigits2 m2) (Zdigits2 q))
          as [?|Hgt]; [assumption|exfalso].
        pose proof (Zdigits2_bounds q ltac:(lia)) as [_ Bq].
        assert (Hq1 : (q + 1 ≤ 2 ^ (Zdigits2 m1 + s - Zdigits2 m2 - 1))%Z).
        { assert (2 ^ Zdigits2 q ≤ 2 ^ (Zdigits2 m1 + s - Zdigits2 m2 - 1))%Z
            by (apply Z.pow_le_mono_r; lia). lia. }
        assert (Hm2 : (m' < 2 ^ (Zdigits2 m1 + s - Zdigits2 m2 - 1) * 2 ^ Zdigits2 m2)%Z).
        { assert (0 < 2 ^ (Zdigits2 m1 + s - Zdigits2 m2 - 1))%Z
            by (apply Z.pow_pos_nonneg; lia). nia. }
        rewrite <- Z.pow_add_r in Hm2 by lia.
        replace (Zdigits2 m1 + s - Zdigits2 m2 - 1 + Zdigits2 m2)%Z
          with (Zdigits2 m1 - 1 + s)%Z in Hm2 by lia.
        lia. }
      unfold X, s in *. lia.
Qed.

Lemma SFmul_comm x y : SFmul prec emax x y = SFmul prec emax y x.
Proof.
  destruct x as [sx|sx| |sx mx ex], y as [sy|sy| |sy my ey]; cbn [SFmul];
    rewrite ?(xorb_comm sx sy), ?(Pos.mul_comm mx my), ?(Z.add_comm ex ey);
    reflexivity.
Qed.

(** *** Addition *)

Lemma iter_xO (m d : positive) : Z.pos (Pos.iter xO m d) = (Z.pos m * 2 ^ Z.pos d)%Z.
Proof.
  induction d as [|d IH] using Pos.peano_ind.
  - cbn. lia.
  - rewrite Pos.iter_succ, Pos2Z.inj_xO, IH, Pos2Z.inj_succ, Z.pow_succ_r by lia. lia.
Qed.

Lemma shl_align_spec mx ex ex' :
  let t := shl_align mx ex ex' in
  F2R (Z.pos t.1) t.2 = F2R (Z.pos mx) ex ∧ t.2 = Z.min ex ex' ∧
  Z.pos t.1 = (Z.pos mx * 2 ^ (ex - t.2))%Z.
Proof.
  unfold shl_align. destruct (ex' - ex)%Z as [|d|d] eqn:Ed; cbn [fst snd].
  - split; [reflexivity|]. split; [lia|]. rewrite Z.sub_diag. cbn. lia.
  - split; [reflexivity|]. split; [lia|]. rewrite Z.sub_diag. cbn. lia.
  - assert (Hd : (ex - ex' = Z.pos d)%Z) by lia.
    split; [|split; [lia|rewrite Hd; apply iter_xO]].
    unfold F2R. rewrite iter_xO, mult_IZR, <- (bpow_IZR (Z.pos d)) by lia.
    rewrite Rmult_assoc, <- bpow_add. do 2 f_equal. lia.
Qed.

Lemma Zdigits2_shift (m d : Z) :
  (0 < m)%Z → (0 ≤ d)%Z → Zdigits2 (m * 2 ^ d) = (Zdigits2 m + d)%Z.
Proof.
  intros Hm Hd.
  pose proof (Zdigits2_bounds m Hm) as [B1 B2].
  pose proof (Zdigits2_pos m Hm).
  assert (0 < 2 ^ d)%Z by (apply Z.pow_pos_nonneg; lia).
  apply Zdigits2_unique; [|lia].
  replace (Zdigits2 m + d - 1)%Z with (Zdigits2 m - 1 + d)%Z by lia.
  rewrite !Z.pow_add_r by lia. nia.
Qed.

Lemma binary_round_eq sx mx ex :
  ∃ mz ez, binary_round prec emax sx mx ex =
             binary_round_aux prec emax sx (Z.pos mz) ez loc_Exact ∧
           repr prec emax (F2R (Z.pos mx) ex) (Z.pos mz) ez loc_Exact.
Proof.
  unfold binary_round.
  pose proof (shl_align_spec mx ex (fexp (Z.pos (digits2_pos mx) + ex))) as (Hv & He & Hm).
  destruct (shl_align mx ex _) as [mz ez]. cbn [fst snd] in *.
  exists mz, ez. split; [reflexivity|].
  split; [lia|]. split.
  - cbn [inb]. rewrite <- Hv. apply F2R_scale.
  - rewrite Hm, Zdigits2_shift by lia. cbn [Zdigits2].
    replace (Z.pos (digits2_pos mx) + (ex - ez) + ez)%Z
      with (Z.pos (digits2_pos mx) + ex)%Z by lia.
    lia.
Qed.

(** A sum that lies between [-B] and [B] rounds to a float between
    [-B] and [B]. *)
Lemma binary_normalize_bound (S ez : Z) (mB : positive) (eB : Z) :
  SpecFloat.bounded prec emax mB eB = true →
  Rabs (F2R S ez) <= F2R (Z.pos mB) eB →
  SFleb (S754_finite true mB eB) (binary_normalize prec emax S ez false) = true ∧
  SFleb (binary_normalize prec emax S ez false) (S754_finite false mB eB) = true.
Proof.
  intros HB Habs.
  assert (HBr : repr prec emax (F2R (Z.pos mB) eB) (Z.pos mB) eB loc_Exact).
  { destruct (bounded_cmant _ _ HB) as [[_ C] _].
    split; [lia|]. split; [cbn [inb]; apply F2R_scale|lia]. }
  assert (Hpos : ∀ p, F2R (Z.pos p) ez <= F2R (Z.pos mB) eB → ∀ sx,
            ∃ f, binary_round prec emax sx p ez = (if sx then SFopp f else f) ∧
                 SFleb f (S754_finite false mB eB) = true ∧
                 SFleb (S754_zero false) f = true).
  { intros p Hp sx.
    destruct (binary_round_eq sx p ez) as (mz & ez' & -> & Hr).
    exists (binary_round_aux prec emax false (Z.pos mz) ez' loc_Exact).
    split; [destruct sx; [apply (binary_round_aux_opp false)|reflexivity]|].
    split.
    - rewrite <- (binary_round_aux_exact false mB eB HB).
      eapply binary_round_aux_mono; eassumption.
    - destruct (binary_round_aux_spec false _ _ _ _ Hr) as (w & m' & e' & _ & [Hm' _] & _ & ->).
      destruct m' as [|q|q]; [reflexivity| |lia].
      unfold mk_float. destruct (e' <=? emax - prec)%Z; reflexivity. }
  destruct S as [|p|p]; cbn [binary_normalize].
  - split; reflexivity.
  - assert (Hp : F2R (Z.pos p) ez <= F2R (Z.pos mB) eB).
    { rewrite Rabs_pos_eq in Habs; [assumption|pose proof (F2R_pos p ez); lra]. }
    destruct (Hpos p Hp false) as (f & -> & Hf & Hf0).
    split; [|assumption].
    destruct f as [s|[]| |[] m e]; try discriminate Hf0; try discriminate Hf; reflexivity.
  - assert (Hp : F2R (Z.pos p) ez <= F2R (Z.pos mB) eB).
    { replace (F2R (Z.neg p) ez) with (- F2R (Z.pos p) ez) in Habs
        by (unfold F2R; rewrite (IZR_NEG p); ring).
      rewrite Rabs_Ropp, Rabs_pos_eq in Habs; [assumption|pose proof (F2R_pos p ez); lra]. }
    destruct (Hpos p Hp true) as (f & -> & Hf & Hf0).
    split.
    + unfold SFleb in *. rewrite (SFcompare_antisym (SFopp f) (S754_finite true mB eB)).
      destruct f as [s|[]| |[] m e]; try discriminate Hf0; try discriminate Hf;
        try reflexivity.
      cbn [SFopp negb]. revert Hf. unfold SFcompare.
      destruct (e ?= eB)%Z; [|intros _; reflexivity|intros H; discriminate H].
      destruct (Pos.compare_cont Eq m mB); [reflexivity|reflexivity|intros H; discriminate H].
    + destruct f as [s|[]| |[] m e]; try discriminate Hf0; try discriminate Hf; reflexivity.
Qed.

Lemma SF2R_cond_Zopp s (p : positive) e :
  F2R (cond_Zopp s (Z.pos p)) e = (if s then - F2R (Z.pos p) e else F2R (Z.pos p) e).
Proof.
  destruct s; [|reflexivity]. unfold F2R.
  change (cond_Zopp true (Z.pos p)) with (Z.neg p).
  rewrite (IZR_NEG p). ring.
Qed.

Theorem SFadd_finite_bound sx mx ex sy my ey mB eB :
  SpecFloat.bounded prec emax mB eB = true →
  Rabs (SF2R (S754_finite sx mx ex) + SF2R (S754_finite sy my ey))
    <= F2R (Z.pos mB) eB →
  SFleb (S754_finite true mB eB)
        (SFadd prec emax (S754_finite sx mx ex) (S754_finite sy my ey)) = true ∧
  SFleb (SFadd prec emax (S754_finite sx mx ex) (S754_finite sy my ey))
        (S754_finite false mB eB) = true.
Proof.
  intros HB Habs. cbn [SFadd]. apply binary_normalize_bound; [assumption|].
  pose proof (shl_align_spec mx ex (Z.min ex ey)) as (Vx & Ex & _).
  pose proof (shl_align_spec my ey (Z.min ex ey)) as (Vy & Ey & _).
  destruct (shl_align mx ex _) as [mx' ex'], (shl_align my ey _) as [my' ey'].
  cbn [fst snd] in *.
  replace (Z.min ex (Z.min ex ey)) with (Z.min ex ey) in Ex by lia.
  replace (Z.min ey (Z.min ex ey)) with (Z.min ex ey) in Ey by lia.
  subst ex' ey'.
  replace (F2R (cond_Zopp sx (Z.pos mx') + cond_Zopp sy (Z.pos my')) (Z.min ex ey))
    with (SF2R (S754_finite sx mx ex) + SF2R (S754_finite sy my ey)); [assumption|].
  cbn [SF2R]. rewrite !SF2R_cond_Zopp, <- Vx, <- Vy.
  unfold F2R. rewrite plus_IZR.
  destruct sx, sy; cbn [cond_Zopp]; rewrite ?opp_IZR; ring.
Qed.

(** *** The error of a rounding *)

Lemma rne_error x m l :
  inb x m l → - / 2 <= IZR (round_nearest_even m l) - x <= / 2.
Proof.
  destruct l as [|[]]; cbn [inb round_nearest_even]; intros H;
    try destruct (Z.even m); rewrite ?plus_IZR; lra.
Qed.

Lemma bpow_half e : bpow (e - 1) = / 2 * bpow e.
Proof.
  replace (e - 1)%Z with (e + -1)%Z by lia. rewrite bpow_add, bpow_m1. ring.
Qed.

(** A rounded value is within half a unit in the last place. *)
Lemma Rnd_half_ulp v w :
  Rnd prec emax v w →
  ∃ m e l, canon prec emax v m e l ∧ - bpow (e - 1) <= w - v <= bpow (e - 1).
Proof.
  intros (m & e & l & Hc & ->). exists m, e, l. split; [assumption|].
  destruct Hc as (_ & Hin & _). apply rne_error in Hin.
  set (M := round_nearest_even m l) in *.
  pose proof (bpow_pos e) as Hp.
  assert (E : F2R M e - v = (IZR M - v * bpow (- e)) * bpow e).
  { unfold F2R. rewrite bpow_opp. field. lra. }
  rewrite E, bpow_half. nra.
Qed.

(** Above the smallest normal number, and in every binade but the lowest,
    a value has a full mantissa. *)
Lemma canon_big v m e l :
  canon prec emax v m e l → (emin < e)%Z ∨ bpow (emin + prec - 1) <= v →
  bpow (prec - 1 + e) <= v.
Proof.
  intros Hc Hcase.
  pose proof (canon_value _ _ _ _ Hc) as [Hv _].
  pose proof (canon_cmant _ _ _ _ Hc) as Hcm.
  pose proof (cmant_emin _ _ Hcm) as He.
  destruct (Z.eq_dec e emin) as [->|Hne].
  - destruct Hcase as [?|Hb]; [lia|].
    replace (prec - 1 + emin)%Z with (emin + prec - 1)%Z by lia. exact Hb.
  - destruct (cmant_normal _ _ Hcm ltac:(lia)) as [Hd Hm].
    pose proof (bpow_le_IZR m prec Hm ltac:(lia)) as Hb.
    rewrite bpow_add. unfold F2R in Hv. pose proof (bpow_pos e). nra.
Qed.

Lemma bpow_ulp e : bpow (e - 1) = bpow (- prec) * bpow (prec - 1 + e).
Proof. rewrite <- bpow_add. f_equal. lia. Qed.

(** The relative error of a rounding in the normal range. *)
Theorem Rnd_rel v w :
  Rnd prec emax v w → bpow (emin + prec - 1) <= v →
  - (bpow (- prec) * v) <= w - v <= bpow (- prec) * v.
Proof.
  intros H Hv. destruct (Rnd_half_ulp _ _ H) as (m & e & l & Hc & Hw).
  pose proof (canon_big _ _ _ _ Hc (or_intror Hv)) as Hb.
  rewrite bpow_ulp in Hw. pose proof (bpow_pos (- prec)). nra.
Qed.

(** The error of a rounding anywhere below the overflow threshold. *)
Theorem Rnd_abs v w :
  Rnd prec emax v w → 0 <= v →
  - (bpow (- prec) * v + bpow (emin - 1)) <= w - v <= bpow (- prec) * v + bpow (emin - 1).
Proof.
  intros H Hv. destruct (Rnd_half_ulp _ _ H) as (m & e & l & Hc & Hw).
  pose proof (bpow_pos (- prec)). pose proof (bpow_pos (emin - 1)).
  pose proof (cmant_emin _ _ (canon_cmant _ _ _ _ Hc)) as He.
  destruct (Z.eq_dec e emin) as [->|Hne].
  - nra.
  - assert (Hlt : (emin < e)%Z) by lia.
    pose proof (canon_big _ _ _ _ Hc (or_introl Hlt)) as Hb.
    rewrite bpow_ulp in Hw. nra.
Qed.

Lemma Rnd_zero : Rnd prec emax 0 0.
Proof.
  exists 0%Z, emin, loc_Exact. split.
  - split; [lia|]. split; [cbn [inb]; ring|]. cbn [Zdigits2]. symmetry. apply fexp_emin.
  - cbn [round_nearest_even]. unfold F2R. ring.
Qed.
End Format.

(** * Binary64: consequences for the primitive floats *)

Section Binary64.
Local Open Scope float_scope.

Lemma prec_pos64 : (0 < prec)%Z.
Proof. reflexivity. Qed.

Lemma emin_nonpos64 : (SpecFloat.emin prec emax ≤ 0)%Z.
Proof. vm_compute. discriminate. Qed.

Local Abbreviation bra_exact := (binary_round_aux_exact prec emax).
Local Abbreviation bra_ext := (binary_round_aux_ext prec emax prec_pos64).
Local Abbreviation bra_mono := (binary_round_aux_mono prec emax prec_pos64).
Local Abbreviation bra_valid := (binary_round_aux_valid prec emax prec_pos64).
Local Abbreviation bra_spec := (binary_round_aux_spec prec emax prec_pos64).
Local Abbreviation mul_repr64 := (mul_repr prec emax emin_nonpos64).
Local Abbreviation div_repr64 := (div_core_repr prec emax prec_pos64).
Local Abbreviation mul_mono64 := (SFmul_mono_l prec emax prec_pos64 emin_nonpos64).
Local Abbreviation leb_SF2R64 := (SFleb_SF2R prec emax prec_pos64).
Local Abbreviation add_bound64 := (SFadd_finite_bound prec emax prec_pos64).
Local Abbreviation valid64 := (SpecFloat.valid_binary prec emax).

(** The specification of the primitive operations, as rewriting rules. *)
Ltac to_spec :=
  repeat (progress
    (rewrite ?FloatAxioms.leb_spec, ?FloatAxioms.ltb_spec, ?FloatAxioms.eqb_spec,
       ?mul_spec, ?add_spec, ?sub_spec, ?div_spec, ?opp_spec, ?abs_spec, ?sqrt_spec;
     unfold SF64mul, SF64add, SF64sub, SF64div, SF64sqrt)).

Ltac to_spec_in H :=
  repeat (progress
    (rewrite ?FloatAxioms.leb_spec, ?FloatAxioms.ltb_spec, ?FloatAxioms.eqb_spec,
       ?mul_spec, ?add_spec, ?sub_spec, ?div_spec, ?opp_spec, ?abs_spec, ?sqrt_spec in H;
     unfold SF64mul, SF64add, SF64sub, SF64div, SF64sqrt in H)).

Lemma Prim2SF_one : Prim2SF 1 = SFone.
Proof. reflexivity. Qed.

Lemma Prim2SF_zero : Prim2SF 0 = S754_zero false.
Proof. reflexivity. Qed.

Lemma F2R_one : F2R 4503599627370496 (-52) = 1%R.
Proof.
  unfold F2R. change (-52)%Z with (- (52))%Z. rewrite bpow_opp, bpow_IZR by lia.
  change (2 ^ 52)%Z with 4503599627370496%Z. field.
Qed.

Lemma SFone_bounded : SpecFloat.bounded prec emax 4503599627370496 (-52) = true.
Proof. reflexivity. Qed.

Lemma valid_cases (x : float) : SpecFloat.valid_binary prec emax (Prim2SF x) = true.
Proof. apply Prim2SF_valid. Qed.

(** Multiplying by one is exact. *)
Lemma SFmul_one_l x :
  SpecFloat.valid_binary prec emax x = true → SFmul prec emax SFone x = x.
Proof.
  intros Vx. destruct x as [s|s| |s m e]; try reflexivity.
  cbn [SpecFloat.valid_binary] in Vx. unfold SFone. rewrite SFmul_finite. cbn [xorb].
  rewrite <- (bra_exact s m e Vx).
  apply (bra_ext s (F2R 4503599627370496 (-52) * F2R (Z.pos m) e)%R).
  - apply mul_repr64; [reflexivity|assumption].
  - rewrite F2R_one, Rmult_1_l.
    destruct (bounded_cmant prec emax m e Vx) as [[_ C] _].
    split; [lia|]. split; [cbn [inb]; apply F2R_scale|lia].
Qed.

Theorem mul_one_l (x : float) : 1 * x = x.
Proof.
  apply Prim2SF_inj. to_spec. rewrite Prim2SF_one.
  apply SFmul_one_l, Prim2SF_valid.
Qed.

Lemma SFmul_opp_l x y : SFmul prec emax (SFopp x) y = SFopp (SFmul prec emax x y).
Proof.
  destruct x as [sx|sx| |sx mx ex], y as [sy|sy| |sy my ey]; cbn [SFmul SFopp];
    try reflexivity; try (destruct sx, sy; reflexivity).
  rewrite <- (binary_round_aux_opp prec emax). f_equal. destruct sx, sy; reflexivity.
Qed.

Theorem mul_opp_one_l (x : float) : (-1) * x = - x.
Proof.
  change (-1)%float with (opp 1).
  apply Prim2SF_inj. to_spec. rewrite SFmul_opp_l. f_equal.
  rewrite Prim2SF_one. apply SFmul_one_l, Prim2SF_valid.
Qed.

(** ** Comparisons with zero and one *)

Lemma SFleb_zero_cases x :
  SFleb (S754_zero false) x = true →
  nonneg_finite x = true ∨ x = S754_infinity false.
Proof.
  destruct x as [s|[]| |[] m e]; cbn; intros H; try discriminate H; auto.
Qed.

Lemma SFltb_leb x y : SFltb x y = true → SFleb x y = true.
Proof. unfold SFltb, SFleb. destruct (SFcompare x y) as [[]|]; congruence. Qed.

Lemma SF2R_one : SF2R SFone = 1%R.
Proof. apply F2R_one. Qed.

Lemma SFleb_one_SF2R x :
  valid64 x = true → nonneg_finite x = true → SFleb x SFone = true →
  (SF2R x <= 1)%R.
Proof.
  intros V N H. rewrite <- SF2R_one. apply leb_SF2R64; auto.
Qed.

Lemma SFleb_nonneg_finite x y :
  SFleb (S754_zero false) x = true → SFleb x y = true → nonneg_finite y = true →
  nonneg_finite x = true.
Proof.
  intros H0 H Ny. destruct (SFleb_zero_cases x H0) as [?| ->]; [assumption|].
  destruct y as [s| | |[] m e]; try discriminate Ny; discriminate H.
Qed.

Lemma is_finite_SF (x : float) :
  is_finite x = true →
  match Prim2SF x with S754_zero _ | S754_finite _ _ _ => True | _ => False end.
Proof.
  unfold is_finite, is_nan, is_infinity. to_spec.
  change (Prim2SF infinity) with (S754_infinity false).
  destruct (Prim2SF x) as [s|[]| |s m e]; cbn; intros H; try discriminate H; exact I.
Qed.

(** ** Scaling by a factor between zero and one *)

Lemma SFmul_unit_le q a :
  valid64 q = true → valid64 a = true →
  nonneg_finite q = true → SFleb q SFone = true → nonneg_finite a = true →
  SFleb (SFmul prec emax q a) a = true.
Proof.
  intros Vq Va Nq Hq Na.
  rewrite <- (SFmul_one_l a Va) at 2.
  apply mul_mono64; try assumption; try reflexivity.
  rewrite SF2R_one. apply SFleb_one_SF2R; assumption.
Qed.

(** A non-negative number scaled by a factor in [[0, 1]] does not exceed it. *)
Theorem scale_le (q a : float) :
  (0 <=? q) = true → (q <=? 1) = true → (0 <=? a) = true →
  (a <? q * a) = false.
Proof.
  to_spec. rewrite Prim2SF_zero, Prim2SF_one. intros H0 H1 Ha.
  pose proof (Prim2SF_valid q) as Vq. pose proof (Prim2SF_valid a) as Va.
  assert (Nq : nonneg_finite (Prim2SF q) = true)
    by (eapply SFleb_nonneg_finite; [eassumption..|reflexivity]).
  destruct (SFleb_zero_cases _ Ha) as [Na|Ea].
  - apply SFleb_not_ltb, SFmul_unit_le; assumption.
  - rewrite Ea. destruct (Prim2SF q) as [s| | |[] m e]; try discriminate Nq; reflexivity.
Qed.

(** Scaling a finite non-negative number is increasing in the factor. *)
Theorem scale_mono (q1 q2 a : float) :
  (0 <=? q1) = true → (q1 <=? q2) = true → (q2 <=? 1) = true →
  (0 <=? a) = true → is_finite a = true →
  (q1 * a <=? q2 * a) = true.
Proof.
  intros H0 H12 H1 Ha Fa. apply is_finite_SF in Fa. revert H0 H12 H1 Ha.
  to_spec. rewrite Prim2SF_zero, Prim2SF_one. intros H0 H12 H1 Ha.
  pose proof (Prim2SF_valid q1) as V1. pose proof (Prim2SF_valid q2) as V2.
  pose proof (Prim2SF_valid a) as Va.
  assert (N2 : nonneg_finite (Prim2SF q2) = true).
  { destruct (SFleb_zero_cases _ H0) as [N1|E1].
    - destruct (Prim2SF q1) as [s1| | |[] m1 e1]; try discriminate N1;
        destruct (Prim2SF q2) as [s2|[]| |[] m2 e2];
        try discriminate H12; try discriminate H1; reflexivity.
    - rewrite E1 in H12.
      destruct (Prim2SF q2) as [s2|[]| |[] m2 e2];
        try discriminate H12; try discriminate H1. }
  assert (N1 : nonneg_finite (Prim2SF q1) = true)
    by (eapply SFleb_nonneg_finite; eassumption).
  assert (Na : nonneg_finite (Prim2SF a) = true).
  { destruct (SFleb_zero_cases _ Ha) as [?|E]; [assumption|]. rewrite E in Fa. destruct Fa. }
  apply mul_mono64; try assumption.
  apply leb_SF2R64; assumption.
Qed.

(** ** The quotient of two positive integers *)

Lemma F2R_0 m : F2R m 0 = IZR m.
Proof. unfold F2R. rewrite bpow_0. apply Rmult_1_r. Qed.

Lemma SFdiv_int_spec (k n : positive) :
  ∃ m e l,
    SFdiv prec emax (Py.Z2SF (Z.pos k)) (Py.Z2SF (Z.pos n)) =
      binary_round_aux prec emax false m e l ∧
    repr prec emax (IZR (Z.pos k) / IZR (Z.pos n))%R m e l.
Proof.
  cbn [Py.Z2SF SFdiv].
  pose proof (div_repr64 (Z.pos k) 0 (Z.pos n) 0 ltac:(lia) ltac:(lia)) as H.
  cbn zeta in H. rewrite !F2R_0 in H.
  destruct (SFdiv_core_binary prec emax (Z.pos k) 0 (Z.pos n) 0) as [[m e] l].
  exists m, e, l. split; [reflexivity|exact H].
Qed.

Lemma repr_one : repr prec emax 1%R 4503599627370496 (-52) loc_Exact.
Proof.
  split; [lia|]. split; [|vm_compute; discriminate].
  cbn [inb]. rewrite <- F2R_one at 1. apply F2R_scale.
Qed.

Lemma Rdiv_le_1 (k n : positive) :
  (Z.pos k ≤ Z.pos n)%Z → (IZR (Z.pos k) / IZR (Z.pos n) <= 1)%R.
Proof.
  intros H. apply IZR_le in H.
  assert (0 < IZR (Z.pos n))%R by (apply IZR_lt; lia).
  apply Rmult_le_reg_r with (IZR (Z.pos n)); [assumption|].
  replace (IZR (Z.pos k) / IZR (Z.pos n) * IZR (Z.pos n))%R with (IZR (Z.pos k))
    by (field; lra).
  lra.
Qed.

Lemma SFdiv_int_facts (k n : positive) :
  let f := SFdiv prec emax (Py.Z2SF (Z.pos k)) (Py.Z2SF (Z.pos n)) in
  valid64 f = true ∧ SFleb (S754_zero false) f = true ∧
  ((Z.pos k ≤ Z.pos n)%Z → SFleb f SFone = true).
Proof.
  cbn zeta. destruct (SFdiv_int_spec k n) as (m & e & l & -> & Hr).
  split; [eapply bra_valid; eassumption|]. split.
  - destruct (bra_spec false _ _ _ _ Hr) as (w & m' & e' & _ & [Hm' _] & _ & ->).
    destruct m' as [|p|p]; [reflexivity| |lia].
    unfold mk_float. destruct (e' <=? emax - prec)%Z; reflexivity.
  - intros Hle. unfold SFone. rewrite <- (bra_exact false _ _ SFone_bounded).
    eapply bra_mono; [exact Hr|exact repr_one|]. apply Rdiv_le_1. assumption.
Qed.

Lemma is_infinity_SF2Prim f :
  valid64 f = true → nonneg_finite f = true → is_infinity (SF2Prim f) = false.
Proof.
  intros V N. unfold is_infinity. to_spec.
  rewrite (Prim2SF_SF2Prim f V). change (Prim2SF infinity) with (S754_infinity false).
  destruct f as [s| | |[] m e]; try discriminate N; reflexivity.
Qed.

(** [k / n] for [0 < k <= n]: no error, and a float in [[0, 1]]. *)
Theorem int_truediv_unit (k n : Z) :
  (0 < k ≤ n)%Z →
  Py.int_truediv k n = Ok (Py.quotient k n) ∧
  (0 <=? Py.quotient k n) = true ∧ (Py.quotient k n <=? 1) = true.
Proof.
  intros [Hk Hn]. unfold Py.int_truediv, Py.quotient.
  destruct (Z.eqb_spec n 0) as [?|_]; [lia|].
  destruct k as [|k|k]; [lia| |lia]. destruct n as [|n|n]; [lia| |lia].
  destruct (SFdiv_int_facts k n) as (V & H0 & H1). specialize (H1 Hn).
  set (f := SFdiv prec emax (Py.Z2SF (Z.pos k)) (Py.Z2SF (Z.pos n))) in *.
  assert (N : nonneg_finite f = true)
    by (eapply SFleb_nonneg_finite; [eassumption..|reflexivity]).
  rewrite (is_infinity_SF2Prim f V N).
  split; [reflexivity|].
  to_spec. rewrite (Prim2SF_SF2Prim f V), Prim2SF_zero, Prim2SF_one. split; assumption.
Qed.

(** The quotient is increasing in the numerator. *)
Theorem int_truediv_mono (k1 k2 n : Z) (q1 q2 : float) :
  (0 < k1 ≤ k2)%Z → (0 < n)%Z →
  Py.int_truediv k1 n = Ok q1 → Py.int_truediv k2 n = Ok q2 →
  (q1 <=? q2) = true.
Proof.
  intros [Hk1 Hk] Hn. unfold Py.int_truediv, Py.quotient.
  destruct (Z.eqb_spec n 0) as [?|_]; [lia|].
  destruct k1 as [|k1|k1]; [lia| |lia]. destruct k2 as [|k2|k2]; [lia| |lia].
  destruct n as [|n|n]; [lia| |lia].
  destruct (SFdiv_int_facts k1 n) as (V1 & _ & _).
  destruct (SFdiv_int_facts k2 n) as (V2 & _ & _).
  destruct (SFdiv_int_spec k1 n) as (m1 & e1 & l1 & E1 & Hr1).
  destruct (SFdiv_int_spec k2 n) as (m2 & e2 & l2 & E2 & Hr2).
  set (f1 := SFdiv prec emax (Py.Z2SF (Z.pos k1)) (Py.Z2SF (Z.pos n))) in *.
  set (f2 := SFdiv prec emax (Py.Z2SF (Z.pos k2)) (Py.Z2SF (Z.pos n))) in *.
  destruct (is_infinity (SF2Prim f1)); [discriminate|]. intros [= <-].
  destruct (is_infinity (SF2Prim f2)); [discriminate|]. intros [= <-].
  to_spec. rewrite !Prim2SF_SF2Prim by assumption. rewrite E1, E2.
  eapply bra_mono; [eassumption..|].
  assert (0 < IZR (Z.pos n))%R by (apply IZR_lt; lia).
  apply IZR_le in Hk. unfold Rdiv.
  apply Rmult_le_compat_r; [|assumption].
  apply Rlt_le, Rinv_0_lt_compat. assumption.
Qed.

(** [n / n] is exactly one. *)
Theorem int_truediv_same (n : Z) : (0 < n)%Z → Py.int_truediv n n = Ok 1.
Proof.
  intros Hn. unfold Py.int_truediv, Py.quotient.
  destruct (Z.eqb_spec n 0) as [?|_]; [lia|].
  destruct n as [|n|n]; [lia| |lia].
  assert (E : SFdiv prec emax (Py.Z2SF (Z.pos n)) (Py.Z2SF (Z.pos n)) = SFone).
  { destruct (SFdiv_int_spec n n) as (m & e & l & -> & Hr).
    unfold SFone. rewrite <- (bra_exact false _ _ SFone_bounded).
    eapply bra_ext; [exact Hr|].
    replace (IZR (Z.pos n) / IZR (Z.pos n))%R with 1%R; [exact repr_one|].
    field. apply not_0_IZR. lia. }
  rewrite E. reflexivity.
Qed.

(** ** A draw from the default interval *)

Lemma F2R_ten : F2R 5629499534213120 (-49) = 10%R.
Proof.
  unfold F2R. change (-49)%Z with (- (49))%Z. rewrite bpow_opp, bpow_IZR by lia.
  change (2 ^ 49)%Z with 562949953421312%Z. field.
Qed.

Lemma F2R_twenty : F2R 5629499534213120 (-48) = 20%R.
Proof.
  unfold F2R. change (-48)%Z with (- (48))%Z. rewrite bpow_opp, bpow_IZR by lia.
  change (2 ^ 48)%Z with 281474976710656%Z. field.
Qed.

Lemma SFmul_twenty_unit u :
  valid64 u = true → nonneg_finite u = true → SFleb u SFone = true →
  let w := SFmul prec emax SFtwenty u in
  nonneg_finite w = true ∧ (SF2R w <= 20)%R.
Proof.
  intros Vu Nu Hu. cbn zeta.
  assert (Hle : SFleb (SFmul prec emax SFtwenty u) SFtwenty = true).
  { rewrite SFmul_comm. apply SFmul_unit_le; try assumption; reflexivity. }
  assert (N : nonneg_finite (SFmul prec emax SFtwenty u) = true).
  { destruct u as [s| | |[] m e]; try discriminate Nu; [reflexivity|].
    cbn [valid_binary] in Vu. unfold SFtwenty in *. rewrite SFmul_finite in *. cbn [xorb] in *.
    destruct (bra_spec false _ _ _ _ (mul_repr64 _ _ _ _ (eq_refl : SpecFloat.bounded prec emax 5629499534213120 (-48) = true) Vu))
      as (w & m' & e' & _ & C & _ & E).
    rewrite E in *. destruct (mk_float_nonneg prec emax _ _ C) as [?|Hinf]; [assumption|].
    rewrite Hinf in Hle. discriminate Hle. }
  split; [assumption|].
  rewrite <- F2R_twenty. change (F2R 5629499534213120 (-48)) with (SF2R SFtwenty).
  apply leb_SF2R64; try assumption; try reflexivity.
  destruct u as [s| | |[] m e]; try discriminate Nu; [reflexivity|].
  unfold SFtwenty. rewrite SFmul_finite.
  eapply bra_valid. apply mul_repr64; [reflexivity|assumption].
Qed.

(** With the default bounds, [low + (high - low) * u] stays between the
    bounds for every [u] in [[0, 1)]. *)
Theorem default_draw_range (u : float) :
  (0 <=? u) = true → (u <? 1) = true →
  let p := default_min_val + (default_max_val - default_min_val) * u in
  (default_min_val <=? p) = true ∧ (p <=? default_max_val) = true.
Proof.
  intros H0 H1. cbn zeta.
  change (default_max_val - default_min_val) with 20.
  unfold default_min_val, default_max_val. revert H0 H1. to_spec.
  rewrite Prim2SF_zero, Prim2SF_one.
  change (Prim2SF 20) with SFtwenty.
  change (Prim2SF (-10)) with (S754_finite true 5629499534213120 (-49)).
  change (Prim2SF 10) with (S754_finite false 5629499534213120 (-49)).
  intros H0 H1. apply SFltb_leb in H1.
  pose proof (Prim2SF_valid u) as Vu.
  assert (Nu : nonneg_finite (Prim2SF u) = true)
    by (eapply SFleb_nonneg_finite; [eassumption..|reflexivity]).
  destruct (SFmul_twenty_unit _ Vu Nu H1) as [Nw Hw]. cbn zeta in *.
  pose proof (SF2R_nonneg _ Nw) as Hw0.
  destruct (SFmul prec emax SFtwenty (Prim2SF u)) as [s| | |[] m e];
    try discriminate Nw; [split; reflexivity|].
  apply add_bound64; [reflexivity|].
  rewrite F2R_ten.
  assert (E10 : SF2R (S754_finite true 5629499534213120 (-49)) = (-10)%R).
  { cbn [SF2R]. rewrite SF2R_cond_Zopp, F2R_ten. reflexivity. }
  rewrite E10. cbn [SF2R cond_Zopp] in *.
  apply Rabs_le. lra.
Qed.

(** ** Equal bounds *)

Lemma SFsub_diag x :
  match x with S754_zero _ | S754_finite _ _ _ => True | _ => False end →
  SFsub prec emax x x = S754_zero false.
Proof.
  destruct x as [[]| | |s m e]; intros H; try destruct H; try reflexivity.
  cbn [SFsub]. rewrite Z.sub_diag. reflexivity.
Qed.

Lemma SFeqb_refl x :
  match x with S754_zero _ | S754_finite _ _ _ => True | _ => False end →
  SFeqb x x = true.
Proof.
  destruct x as [[]| | |s m e]; intros H; try destruct H; try reflexivity.
  unfold SFeqb, SFcompare. rewrite Z.compare_refl.
  change (Pos.compare_cont Eq m m) with (Pos.compare m m). rewrite Pos.compare_refl.
  destruct s; reflexivity.
Qed.

(** With equal finite bounds, [low + (high - low) * u] is [low]. *)
Theorem equal_bounds_draw (v u : float) :
  is_finite v = true → (0 <=? u) = true → (u <? 1) = true →
  is_finite (v - v) = true ∧ (v + (v - v) * u =? v) = true.
Proof.
  intros Fv H0 H1. pose proof (is_finite_SF v Fv) as Sv.
  assert (E : v - v = 0).
  { apply Prim2SF_inj. to_spec. rewrite Prim2SF_zero. apply SFsub_diag. assumption. }
  rewrite E. split; [reflexivity|].
  revert H0 H1. to_spec. rewrite Prim2SF_zero, Prim2SF_one. intros H0 H1.
  apply SFltb_leb in H1.
  assert (Nu : nonneg_finite (Prim2SF u) = true)
    by (eapply SFleb_nonneg_finite; [eassumption..|reflexivity]).
  destruct (Prim2SF u) as [su| | |[] mu eu]; try discriminate Nu;
    destruct (Prim2SF v) as [[]| | |sv mv ev]; try destruct Sv;
    cbn [SFmul SFadd xorb]; try destruct su; try reflexivity;
    apply (SFeqb_refl (S754_finite sv mv ev)); exact I.
Qed.

(** ** The error of a scaled quotient *)

Lemma mk_float_SF2R m e :
  (0 ≤ m)%Z → nonneg_finite (mk_float prec emax false m e) = true →
  SF2R (mk_float prec emax false m e) = F2R m e.
Proof.
  intros Hm. destruct m as [|p|p]; [| |lia].
  - intros _. cbn. unfold F2R. ring.
  - unfold mk_float. destruct (e <=? emax - prec)%Z; [reflexivity|discriminate].
Qed.

Lemma bra_Rnd v m e l :
  repr prec emax v m e l →
  nonneg_finite (binary_round_aux prec emax false m e l) = true →
  Rnd prec emax v (SF2R (binary_round_aux prec emax false m e l)).
Proof.
  intros Hr N. destruct (bra_spec false _ _ _ _ Hr) as (w & m' & e' & R & C & V & E).
  rewrite E in *. rewrite mk_float_SF2R by (destruct C; assumption). rewrite V. exact R.
Qed.

(** The float quotient of two integers is the rounding of their quotient. *)
Lemma quotient_Rnd (a n : Z) :
  (0 < a ≤ n)%Z →
  Rnd prec emax (IZR a / IZR n) (B2R (Py.quotient a n)) ∧
  nonneg_finite (Prim2SF (Py.quotient a n)) = true.
Proof.
  intros [Ha Hn]. unfold B2R, Py.quotient.
  destruct a as [|a|a]; [lia| |lia]. destruct n as [|n|n]; [lia| |lia].
  destruct (SFdiv_int_facts a n) as (V & H0 & H1). specialize (H1 Hn).
  destruct (SFdiv_int_spec a n) as (m & e & l & E & Hr).
  set (f := SFdiv prec emax (Py.Z2SF (Z.pos a)) (Py.Z2SF (Z.pos n))) in *.
  assert (N : nonneg_finite f = true)
    by (eapply SFleb_nonneg_finite; [eassumption..|reflexivity]).
  rewrite (Prim2SF_SF2Prim f V). split; [|assumption].
  rewrite E in *. apply bra_Rnd; assumption.
Qed.

Lemma SFmul_unit_finite q a :
  valid64 q = true → valid64 a = true →
  nonneg_finite q = true → SFleb q SFone = true → nonneg_finite a = true →
  nonneg_finite (SFmul prec emax q a) = true.
Proof.
  intros Vq Va Nq Hq Na. pose proof (SFmul_unit_le q a Vq Va Nq Hq Na) as Hle.
  destruct q as [sq| | |[] mq eq]; try discriminate Nq;
    destruct a as [sa| | |[] ma ea]; try discriminate Na; try reflexivity.
  rewrite SFmul_finite in *. cbn [xorb] in *. cbn [SpecFloat.valid_binary] in Vq, Va.
  destruct (bra_spec false _ _ _ _ (mul_repr64 _ _ _ _ Vq Va)) as (w & m' & e' & _ & C & _ & E).
  rewrite E in *. destruct (mk_float_nonneg prec emax m' e' C) as [?|Einf]; [assumption|].
  rewrite Einf in Hle. discriminate Hle.
Qed.

(** The float product of a factor in [[0, 1]] and a non-negative finite
    number is the rounding of their product. *)
Lemma SFmul_unit_Rnd q a :
  valid64 q = true → valid64 a = true →
  nonneg_finite q = true → SFleb q SFone = true → nonneg_finite a = true →
  Rnd prec emax (SF2R q * SF2R a) (SF2R (SFmul prec emax q a)).
Proof.
  intros Vq Va Nq Hq Na. pose proof (SFmul_unit_finite q a Vq Va Nq Hq Na) as N.
  destruct q as [sq| | |[] mq eq]; try discriminate Nq;
    destruct a as [sa| | |[] ma ea]; try discriminate Na; cbn [SFmul SF2R] in *;
    rewrite ?Rmult_0_l, ?Rmult_0_r; try apply (Rnd_zero prec emax prec_pos64).
  cbn [SpecFloat.valid_binary] in Vq, Va. cbn [xorb cond_Zopp] in *.
  apply bra_Rnd; [apply mul_repr64; assumption|assumption].
Qed.

Lemma unit_float_facts (q : float) :
  (0 <=? q) = true → (q <=? 1) = true →
  nonneg_finite (Prim2SF q) = true ∧ SFleb (Prim2SF q) SFone = true ∧
  (0 <= B2R q <= 1)%R.
Proof.
  to_spec. rewrite Prim2SF_zero, Prim2SF_one. intros H0 H1.
  assert (N : nonneg_finite (Prim2SF q) = true)
    by (eapply SFleb_nonneg_finite; [eassumption..|reflexivity]).
  split; [assumption|]. split; [assumption|]. unfold B2R. split.
  - apply (SF2R_nonneg _ N).
  - apply SFleb_one_SF2R; [apply Prim2SF_valid|assumption..].
Qed.

Lemma nonneg_float_facts (a : float) :
  (0 <=? a) = true → is_finite a = true →
  nonneg_finite (Prim2SF a) = true ∧ (0 <= B2R a)%R.
Proof.
  intros H0 Fa. apply is_finite_SF in Fa. revert H0. to_spec. rewrite Prim2SF_zero.
  intros H0.
  assert (N : nonneg_finite (Prim2SF a) = true).
  { destruct (SFleb_zero_cases _ H0) as [?|E]; [assumption|]. rewrite E in Fa. destruct Fa. }
  split; [assumption|]. apply (SF2R_nonneg _ N).
Qed.

Lemma mul_unit_Rnd (q a : float) :
  (0 <=? q) = true → (q <=? 1) = true → (0 <=? a) = true → is_finite a = true →
  Rnd prec emax (B2R q * B2R a) (B2R (q * a)) ∧
  nonneg_finite (Prim2SF (q * a)) = true.
Proof.
  intros H0 H1 Ha Fa.
  destruct (unit_float_facts q H0 H1) as (Nq & Lq & _).
  destruct (nonneg_float_facts a Ha Fa) as (Na & _).
  unfold B2R. rewrite mul_spec. unfold SF64mul. split.
  - apply SFmul_unit_Rnd; try assumption; apply Prim2SF_valid.
  - apply SFmul_unit_finite; try assumption; apply Prim2SF_valid.
Qed.

(** A real order between non-negative finite floats is their float order. *)
Lemma ltb_of_B2R (x y : float) :
  nonneg_finite (Prim2SF x) = true → nonneg_finite (Prim2SF y) = true →
  (B2R x < B2R y)%R → (x <? y) = true.
Proof.
  intros Nx Ny Hlt. rewrite FloatAxioms.ltb_spec.
  destruct (SFltb (Prim2SF x) (Prim2SF y)) eqn:E; [reflexivity|exfalso].
  assert (Hle : SFleb (Prim2SF y) (Prim2SF x) = true).
  { revert E. unfold SFltb, SFleb. rewrite (SFcompare_antisym (Prim2SF x) (Prim2SF y)).
    destruct (Prim2SF x) as [sx| | |[] mx ex]; try discriminate Nx;
      destruct (Prim2SF y) as [sy| | |[] my ey]; try discriminate Ny;
      cbn [SFcompare]; try (intros; reflexivity); try discriminate;
      try destruct (ex ?= ey)%Z; try destruct (Pos.compare_cont Eq mx my);
      cbn; try reflexivity; try discriminate. }
  apply leb_SF2R64 in Hle; try assumption; try apply Prim2SF_valid.
  unfold B2R in Hlt. lra.
Qed.

Lemma u64_bounds : (0 < u64 <= / 8)%R.
Proof.
  unfold u64. split; [apply bpow_pos|].
  apply Rle_trans with (bpow (-3)); [apply bpow_le; lia|].
  change (-3)%Z with (- (3))%Z. rewrite bpow_opp, bpow_IZR by lia.
  change (2 ^ 3)%Z with 8%Z. lra.
Qed.

Lemma u64_pow50 : (u64 * IZR (2 ^ 50) = / 8)%R.
Proof.
  unfold u64. rewrite <- bpow_IZR by lia. rewrite <- bpow_add.
  change (-53 + 50)%Z with (- (3))%Z. rewrite bpow_opp, bpow_IZR by lia.
  change (2 ^ 3)%Z with 8%Z. reflexivity.
Qed.

Lemma bpow_m1073 : (bpow (-1073) = 4 * bpow (-1075))%R.
Proof.
  change (-1073)%Z with (2 + -1075)%Z. rewrite bpow_add, (bpow_IZR 2) by lia.
  change (2 ^ 2)%Z with 4%Z. reflexivity.
Qed.

Lemma bpow_m1021 : (bpow (-1021) = 2 * bpow (-1022))%R.
Proof. change (-1021)%Z with (-1022 + 1)%Z. apply bpow_S. Qed.

(** [k / n * a], as the code computes it, is [k * a / n] up to the two
    roundings: a relative error of [u64] each, or half the smallest
    subnormal number where a result underflows. *)
Theorem scaled_quotient_error (k n : Z) (a : float) :
  (0 < k ≤ n)%Z → (0 <=? a) = true → (a <=? 1) = true →
  (IZR k / IZR n * B2R a * ((1 - u64) * (1 - u64)) - bpow (-1073)
     <= B2R (Py.quotient k n * a)
     <= IZR k / IZR n * B2R a * ((1 + u64) * (1 + u64)) + bpow (-1073))%R.
Proof.
  intros Hk H0 H1.
  destruct (unit_float_facts a H0 H1) as (Na & _ & Ha0 & Ha1).
  assert (Fa : is_finite a = true).
  { unfold is_finite, is_nan, is_infinity. to_spec.
    change (Prim2SF infinity) with (S754_infinity false).
    destruct (Prim2SF a) as [s| | |[] m e]; try discriminate Na; try reflexivity;
      cbn; rewrite ?Z.compare_refl, ?Pos.compare_cont_refl; reflexivity. }
  destruct (int_truediv_unit k n Hk) as (_ & Q0 & Q1).
  destruct (quotient_Rnd k n Hk) as [Rq Nq].
  destruct (mul_unit_Rnd _ a Q0 Q1 H0 Fa) as [Ro No].
  set (q := B2R (Py.quotient k n)) in *. set (o := B2R (Py.quotient k n * a)) in *.
  set (v := (IZR k / IZR n)%R) in *. set (x := B2R a) in *.
  assert (Hv : (0 < v <= 1)%R).
  { unfold v. assert (0 < IZR n)%R by (apply IZR_lt; lia).
    assert (0 < IZR k)%R by (apply IZR_lt; lia).
    assert (IZR k <= IZR n)%R by (apply IZR_le; lia).
    split; [apply Rdiv_lt_0_compat; assumption|].
    apply Rmult_le_reg_r with (IZR n); [assumption|].
    unfold Rdiv. rewrite Rmult_assoc, Rinv_l by lra. lra. }
  assert (Hq0 : (0 <= q)%R) by (apply (SF2R_nonneg _ Nq)).
  apply (Rnd_abs prec emax prec_pos64) in Rq; [|lra].
  apply (Rnd_abs prec emax prec_pos64) in Ro; [|apply Rmult_le_pos; assumption].
  change (SpecFloat.emin prec emax - 1)%Z with (-1075)%Z in *.
  change (bpow (- prec)) with u64 in *.
  rewrite bpow_m1073. pose proof u64_bounds as [Hu0 Hu8].
  pose proof (bpow_pos (-1075)) as He. set (η := bpow (-1075)) in *.
  assert (Hp1 : (q * x <= v * x * (1 + u64) + η)%R) by nra.
  assert (Hp2 : (v * x * (1 - u64) - η <= q * x)%R) by nra.
  split; nra.
Qed.

(** Two scaled quotients with different numerators are different floats,
    in the order of the numerators, when nothing underflows and the
    numerators are below [2 ^ 50]. *)
Theorem scaled_quotient_strict (k1 k2 n : Z) (a : float) :
  (0 < k1 < k2)%Z → (k2 ≤ n)%Z → (k2 ≤ 2 ^ 50)%Z →
  (0 <=? a) = true → (a <=? 1) = true →
  (bpow (-1021) * IZR n <= B2R a)%R →
  (Py.quotient k1 n * a <? Py.quotient k2 n * a) = true.
Proof.
  intros Hk Hn H50 H0 H1 Hbig.
  destruct (unit_float_facts a H0 H1) as (Na & _ & Ha0 & Ha1).
  assert (Fa : is_finite a = true).
  { unfold is_finite, is_nan, is_infinity. to_spec.
    change (Prim2SF infinity) with (S754_infinity false).
    destruct (Prim2SF a) as [s| | |[] m e]; try discriminate Na; try reflexivity;
      cbn; rewrite ?Z.compare_refl, ?Pos.compare_cont_refl; reflexivity. }
  destruct (int_truediv_unit k1 n ltac:(lia)) as (_ & Q10 & Q11).
  destruct (int_truediv_unit k2 n ltac:(lia)) as (_ & Q20 & Q21).
  destruct (quotient_Rnd k1 n ltac:(lia)) as [Rq1 Nq1].
  destruct (quotient_Rnd k2 n ltac:(lia)) as [Rq2 Nq2].
  destruct (mul_unit_Rnd _ a Q10 Q11 H0 Fa) as [Ro1 No1].
  destruct (mul_unit_Rnd _ a Q20 Q21 H0 Fa) as [Ro2 No2].
  apply ltb_of_B2R; try assumption.
  set (q1 := B2R (Py.quotient k1 n)) in *. set (q2 := B2R (Py.quotient k2 n)) in *.
  set (o1 := B2R (Py.quotient k1 n * a)) in *. set (o2 := B2R (Py.quotient k2 n * a)) in *.
  set (x := B2R a) in *.
  assert (HN : (0 < IZR n)%R) by (apply IZR_lt; lia).
  assert (HK1 : (1 <= IZR k1)%R) by (apply IZR_le; lia).
  assert (HK12 : (IZR k1 + 1 <= IZR k2)%R) by (rewrite <- plus_IZR; apply IZR_le; lia).
  assert (HK50 : (IZR k1 <= IZR (2 ^ 50))%R) by (apply IZR_le; lia).
  pose proof u64_bounds as [Hu0 Hu8]. pose proof u64_pow50 as Hu50.
  pose proof (bpow_pos (-1022)) as Hm. pose proof bpow_m1021 as E21.
  set (K := IZR (2 ^ 50)) in *. set (β := bpow (-1022)) in *.
  set (r := (/ IZR n)%R).
  assert (Hr : (0 < r)%R) by (apply Rinv_0_lt_compat; assumption).
  assert (Hrn : (r * IZR n = 1)%R) by (apply Rinv_l; lra).
  assert (Hx : (2 * β <= x * r)%R).
  { rewrite <- E21. apply Rmult_le_reg_r with (IZR n); [assumption|].
    rewrite Rmult_assoc, Hrn. lra. }
  assert (Hr1 : (2 * β <= r)%R) by nra.
  set (v1 := (IZR k1 / IZR n)%R) in *. set (v2 := (IZR k2 / IZR n)%R) in *.
  assert (Ev1 : v1 = (IZR k1 * r)%R) by reflexivity.
  assert (Ev2 : v2 = (IZR k2 * r)%R) by reflexivity.
  assert (Hv1 : (β <= v1)%R) by nra.
  assert (Hv2 : (β <= v2)%R) by nra.
  change β with (bpow (SpecFloat.emin prec emax + prec - 1)) in Hv1, Hv2.
  apply (Rnd_rel prec emax prec_pos64) in Rq1; [|assumption].
  apply (Rnd_rel prec emax prec_pos64) in Rq2; [|assumption].
  change (bpow (- prec)) with u64 in *.
  set (t := (x * r)%R) in *.
  assert (Ex1 : (v1 * x = IZR k1 * t)%R) by (unfold t; rewrite Ev1; ring).
  assert (Ex2 : (v2 * x = IZR k2 * t)%R) by (unfold t; rewrite Ev2; ring).
  assert (Ht : (0 < t)%R) by lra.
  assert (Hp1 : (q1 * x <= IZR k1 * t * (1 + u64))%R) by (rewrite <- Ex1; nra).
  assert (Hp1' : (IZR k1 * t * (1 - u64) <= q1 * x)%R) by (rewrite <- Ex1; nra).
  assert (Hp2 : (IZR k2 * t * (1 - u64) <= q2 * x)%R) by (rewrite <- Ex2; nra).
  assert (Hlow : ∀ k : R, (1 <= k)%R → (β <= k * t * (1 - u64))%R).
  { intros k Hk1. apply Rle_trans with (1 * t * (1 - u64))%R; [nra|].
    apply Rmult_le_compat_r; [lra|]. apply Rmult_le_compat_r; lra. }
  assert (Hn1 : (bpow (SpecFloat.emin prec emax + prec - 1) <= q1 * x)%R).
  { change (bpow (SpecFloat.emin prec emax + prec - 1)) with β.
    pose proof (Hlow (IZR k1) HK1). lra. }
  assert (Hn2 : (bpow (SpecFloat.emin prec emax + prec - 1) <= q2 * x)%R).
  { change (bpow (SpecFloat.emin prec emax + prec - 1)) with β.
    pose proof (Hlow (IZR k2) ltac:(lra)). lra. }
  apply (Rnd_rel prec emax prec_pos64) in Ro1; [|assumption].
  apply (Rnd_rel prec emax prec_pos64) in Ro2; [|assumption].
  change (bpow (- prec)) with u64 in *.
  assert (Ho1 : (o1 <= IZR k1 * t * (1 + u64) * (1 + u64))%R) by nra.
  assert (Ho2 : (IZR k2 * t * (1 - u64) * (1 - u64) <= o2)%R) by nra.
  assert (HKt : (u64 * (IZR k1 * t) <= / 8 * t)%R).
  { rewrite <- Hu50. nra. }
  assert (Hgap : (IZR k1 * t * (1 + u64) * (1 + u64) < IZR k2 * t * (1 - u64) * (1 - u64))%R).
  { assert ((IZR k1 + 1) * t * (1 - u64) * (1 - u64) <= IZR k2 * t * (1 - u64) * (1 - u64))%R.
    { apply Rmult_le_compat_r; [lra|]. apply Rmult_le_compat_r; [lra|].
      apply Rmult_le_compat_r; lra. }
    assert ((1 - u64) * (1 - u64) >= 3 / 4)%R by nra.
    nra. }
  lra.
Qed.
End Binary64.

(** * Properties of the program *)

(** ** The step *)

Section StepFacts.
Local Open Scope float_scope.

Lemma SFopp_involutive x : SFopp (SFopp x) = x.
Proof. destruct x as [[]|[]| |[] m e]; reflexivity. Qed.

Lemma opp_involutive (x : float) : - - x = x.
Proof. apply Prim2SF_inj. rewrite !opp_spec. apply SFopp_involutive. Qed.

(** A square root of an absolute value carries no minus sign. *)
Lemma SFsqrt_abs_sign z :
  SFabs (SFsqrt prec emax (SFabs z)) = SFsqrt prec emax (SFabs z).
Proof.
  destruct z as [s|s| |s m e]; try reflexivity.
  cbn [SFabs SFsqrt].
  destruct (SFsqrt_core_binary prec emax (Z.pos m) e) as [[mz ez] lz].
  rewrite binary_round_aux_eq. cbn zeta.
  match goal with |- SFabs (mk_float _ _ _ ?m ?e) = _ => destruct m as [|p|p] end;
    try reflexivity.
  unfold mk_float. match goal with |- context [(?x <=? ?y)%Z] => destruct (x <=? y)%Z end;
    reflexivity.
Qed.

Lemma abs_sqrt_abs (z : float) :
  abs (PrimFloat.sqrt (abs z)) = PrimFloat.sqrt (abs z).
Proof.
  apply Prim2SF_inj. rewrite abs_spec, sqrt_spec, abs_spec. apply SFsqrt_abs_sign.
Qed.

(** The step is the formula of the docstring, with the sign of the sign bit. *)
Lemma hop_along_eq_bit_step xy a b c : hop_along_eq xy a b c = bit_step xy a b c.
Proof.
  unfold hop_along_eq, bit_step, Np.copysign, bit_sign. cbn zeta.
  rewrite abs_sqrt_abs. f_equal. f_equal.
  destruct (get_sign xy.1).
  - change (- -1) with 1. rewrite mul_one_l. apply opp_involutive.
  - change (- 1) with (-1). rewrite mul_opp_one_l. reflexivity.
Qed.

(** Away from [-0.0], the sign bit says whether the number is negative. *)
Lemma get_sign_ltb (x : float) :
  Prim2SF x ≠ S754_zero true → get_sign x = (x <? 0).
Proof.
  intros Hx. unfold get_sign, is_zero. destruct (x =? zero) eqn:E; [|reflexivity].
  rewrite FloatAxioms.eqb_spec in E. change (Prim2SF zero) with (S754_zero false) in E.
  assert (Hz : Prim2SF x = S754_zero false).
  { destruct (Prim2SF x) as [[]| | |s m e]; try discriminate E;
      first [reflexivity | congruence | (destruct s; discriminate E)]. }
  assert (x = 0) as -> by (apply Prim2SF_inj; exact Hz).
  reflexivity.
Qed.

Lemma hop_along_eq_spec_step xy a b c :
  Prim2SF xy.1 ≠ S754_zero true → hop_along_eq xy a b c = spec_step xy a b c.
Proof.
  intros Hx. rewrite hop_along_eq_bit_step. unfold bit_step, spec_step, bit_sign, spec_sign.
  rewrite (get_sign_ltb _ Hx). reflexivity.
Qed.

(** C1 (as stated) fails at [x = -0.0]: the code takes [sign(-0.0) = -1]. *)
Lemma C1_counterexample :
  hop_along_eq (-0, 0) 1 1 1 = (1, 1) ∧ spec_step (-0, 0) 1 1 1 = (-1, 1) ∧
  hop_along_eq (-0, 0) 1 1 1 ≠ spec_step (-0, 0) 1 1 1.
Proof.
  split; [reflexivity|]. split; [reflexivity|].
  intros H. apply (f_equal (λ p, Prim2SF p.1)) in H. vm_compute in H. discriminate H.
Qed.

(** C1, amended: for every point and parameters the step returns
    [(y + f(x), a - x)] with [f(x) = -sign(x) * sqrt(|b*x - c|)], where the
    sign is that of the sign bit of [x] ([+0.0] counts as [+1], [-0.0] as
    [-1]); for every [x] other than [-0.0] this is the formula with
    [sign(0) = +1]; and [step((0.0, 0.0), 1.0, 1.0, 0.0) = (0.0, 1.0)]. *)
Theorem C1_step_formula :
  (∀ xy a b c, hop_along_eq xy a b c = bit_step xy a b c) ∧
  (∀ xy a b c, Prim2SF xy.1 ≠ S754_zero true →
               hop_along_eq xy a b c = spec_step xy a b c) ∧
  hop_along_eq (0, 0) 1 1 0 = (0, 1).
Proof.
  split; [exact hop_along_eq_bit_step|]. split; [exact hop_along_eq_spec_step|].
  reflexivity.
Qed.
End StepFacts.

(** ** The batch generator *)

Section EngineFacts.
Context (a b c : float).

Lemma orbit_S seed k :
  orbit a b c seed (S k) = hop_along_eq (orbit a b c seed k) a b c.
Proof. reflexivity. Qed.

Lemma orbit_shift seed k :
  orbit a b c seed (S k) = orbit a b c (hop_along_eq seed a b c) k.
Proof.
  induction k as [|k IH]; [reflexivity|].
  rewrite orbit_S, IH. reflexivity.
Qed.

Lemma orbit_add seed i j :
  orbit a b c seed (i + j) = orbit a b c (orbit a b c seed i) j.
Proof.
  revert seed. induction i as [|i IH]; intros seed; [reflexivity|].
  cbn [Nat.add]. rewrite !orbit_shift. apply IH.
Qed.

(** Writing both columns of row [index] stores the pair. *)
Lemma for_n_body_insert s index :
  for_n_body a b c s index =
    (hop_along_eq s.1 a b c, alter (λ _, hop_along_eq s.1 a b c) index s.2).
Proof.
  unfold for_n_body. f_equal.
  rewrite list_alter_alter_eq. apply list_alter_ext; [|reflexivity].
  intros [x y] _. destruct (hop_along_eq s.1 a b c); reflexivity.
Qed.

(** The loop after [i] turns, on a buffer of [i + r] rows. *)
Lemma for_n_loop seed (i r : nat) :
  foldl (for_n_body a b c) (seed, replicate (i + r) (0, 0)%float) (seq 0 i) =
    (orbit a b c seed i,
     ((λ k, orbit a b c seed (S k)) <$> seq 0 i) ++ replicate r (0, 0)%float).
Proof.
  revert r. induction i as [|i IH]; intros r; [reflexivity|].
  replace (S i + r) with (i + S r) by lia.
  rewrite seq_S, foldl_app, IH. cbn [foldl].
  rewrite for_n_body_insert. cbn [fst snd]. f_equal.
  rewrite fmap_app. cbn [fmap list_fmap]. rewrite <- app_assoc. cbn [app].
  rewrite Nat.add_0_l.
  set (l := (λ k, orbit a b c seed (S k)) <$> seq 0 i).
  assert (Hl : length l = i) by (unfold l; rewrite length_fmap, length_seq; lia).
  rewrite <- Hl at 1. rewrite <- (Nat.add_0_r (length l)).
  rewrite alter_app_r. reflexivity.
Qed.

Lemma hop_along_for_n_eq (n : Z) seed :
  (0 ≤ n)%Z →
  hop_along_for_n a b c n (Some seed) =
    Ok ((λ k, orbit a b c seed (S k)) <$> seq 0 (Z.to_nat n)).
Proof.
  intros Hn. unfold hop_along_for_n, Np.zeros2.
  destruct (Z.ltb_spec n 0) as [?|_]; [lia|]. cbn [mbind result_bind].
  pose proof (for_n_loop seed (Z.to_nat n) 0) as H.
  rewrite Nat.add_0_r in H. rewrite H. cbn [snd replicate].
  rewrite app_nil_r. reflexivity.
Qed.

(** C8: a negative iteration count makes the batch generator fail at once,
    with the [ValueError] of [np.zeros]; no batch is returned. *)
Theorem C8_negative_n_iters (n : Z) (xy_init : option Point) :
  (n < 0)%Z → hop_along_for_n a b c n xy_init = Raise ValueError.
Proof.
  intros Hn. unfold hop_along_for_n, Np.zeros2.
  destruct (Z.ltb_spec n 0) as [_|?]; [reflexivity|lia].
Qed.
End EngineFacts.

Lemma C8_negative_n_iters_witness :
  (-1 < 0)%Z ∧ hop_along_for_n 1 1 0 (-1) (Some (0, 0)%float) = Raise ValueError.
Proof. split; [lia|]. apply (C8_negative_n_iters 1 1 0 (-1)). lia. Defined.

(** ** The batch generator in the store *)

Section StoreFacts.
Context (a b c : float).

Lemma get_vec_alloc σ xy : Store.get_vec (σ ++ [Vec xy]) (length σ) = Ok xy.
Proof. unfold Store.get_vec. rewrite list_lookup_middle by reflexivity. reflexivity. Qed.

Lemma set_item_middle pre rows post index col v :
  index < length rows →
  Store.set_item (pre ++ Mat rows :: post) (length pre) index col v =
    Ok (pre ++ Mat (alter (λ row, if col then (row.1, v) else (v, row.2)) index rows) :: post).
Proof.
  intros Hi. unfold Store.set_item. rewrite list_lookup_middle by reflexivity.
  destruct (decide (index < length rows)) as [_|?]; [|lia].
  f_equal. rewrite <- (Nat.add_0_r (length pre)), insert_app_r. reflexivity.
Qed.

(** The loop in the store computes what the loop on values computes; it
    changes the cell of [ret] and adds cells after it. *)
Lemma for_n_loop_st_spec indices :
  ∀ xy pre rows post p,
    Store.get_vec (pre ++ Mat rows :: post) xy = Ok p →
    Forall (λ i, i < length rows) indices →
    ∃ xy' post',
      for_n_loop_st a b c (length pre) indices xy (pre ++ Mat rows :: post) =
        Ok (xy', pre ++ Mat (foldl (for_n_body a b c) (p, rows) indices).2 :: post') ∧
      length (foldl (for_n_body a b c) (p, rows) indices).2 = length rows.
Proof.
  induction indices as [|index indices IH]; intros xy pre rows post p Hp Hall.
  - exists xy, post. split; reflexivity.
  - apply Forall_cons in Hall as [Hi Hall].
    cbn [for_n_loop_st foldl]. unfold hop_along_eq_st. rewrite Hp.
    cbn [mbind result_bind Store.alloc].
    set (q := hop_along_eq p a b c).
    set (σ := pre ++ Mat rows :: post).
    rewrite get_vec_alloc. cbn [mbind result_bind].
    unfold σ. rewrite <- app_assoc. cbn [app].
    rewrite set_item_middle by assumption. cbn [mbind result_bind].
    rewrite set_item_middle by (rewrite length_alter; assumption).
    cbn [mbind result_bind].
    set (rows' := alter _ index (alter _ index rows)).
    assert (Hrows : for_n_body a b c (p, rows) index = (q, rows')) by reflexivity.
    assert (Hlen : length rows' = length rows) by (unfold rows'; rewrite !length_alter; reflexivity).
    destruct (IH (length (pre ++ Mat rows :: post)) pre rows' (post ++ [Vec q]) q) as (xy' & post' & E & L).
    + replace (pre ++ Mat rows' :: post ++ [Vec q]) with ((pre ++ Mat rows' :: post) ++ [Vec q])
        by (rewrite <- app_assoc; reflexivity).
      replace (length (pre ++ Mat rows :: post)) with (length (pre ++ Mat rows' :: post))
        by (rewrite !length_app; reflexivity).
      apply get_vec_alloc.
    + rewrite Hlen. assumption.
    + exists xy', post'. rewrite Hrows. split; [exact E|]. rewrite L. exact Hlen.
Qed.

(** In the store, the batch generator returns the batch of [hop_along_for_n]
    in a new array and leaves every array that existed before as it was. *)
Lemma hop_along_for_n_st_spec σ (l : nat) (seed : Point) (n : Z) :
  σ !! l = Some (Vec seed) → (0 ≤ n)%Z →
  ∃ ret σ' batch,
    hop_along_for_n_st σ a b c n (Some l) = Ok (ret, σ') ∧
    hop_along_for_n a b c n (Some seed) = Ok batch ∧
    σ' !! ret = Some (Mat batch) ∧
    ∀ l', l' < length σ → σ' !! l' = σ !! l'.
Proof.
  intros Hl Hn. unfold hop_along_for_n_st, hop_along_for_n, Np.zeros2.
  destruct (Z.ltb_spec n 0) as [?|_]; [lia|]. cbn [Store.alloc mbind result_bind].
  set (rows := replicate (Z.to_nat n) (0, 0)%float).
  destruct (for_n_loop_st_spec (seq 0 (Z.to_nat n)) l σ rows [] seed) as (xy' & post' & E & L).
  - unfold Store.get_vec. rewrite lookup_app_l by (eapply lookup_lt_Some; eassumption).
    rewrite Hl. reflexivity.
  - apply Forall_forall. intros i Hi. apply elem_of_seq in Hi.
    unfold rows. rewrite length_replicate. lia.
  - rewrite E. cbn [mbind result_bind].
    eexists _, _, _. split; [reflexivity|]. split; [reflexivity|]. split.
    + apply list_lookup_middle. reflexivity.
    + intros l' Hl'. rewrite !lookup_app_l by assumption. reflexivity.
Qed.
End StoreFacts.

(** C2: for every seed, parameters and [n_iters >= 0] the batch generator
    returns a sequence of exactly [n_iters] points whose element [k] is the
    [(k+1)]-th iterate of the step from the seed (the seed is not in it),
    empty for [n_iters = 0]; and, on arrays in a store, it returns that batch
    in a new array and writes to no array that existed before, the seed
    included. *)
Theorem C2_generate (a b c : float) (seed : Point) (n : Z) :
  (0 ≤ n)%Z →
  ∃ batch,
    hop_along_for_n a b c n (Some seed) = Ok batch ∧
    length batch = Z.to_nat n ∧
    (∀ k, k < Z.to_nat n → batch !! k = Some (orbit a b c seed (S k))) ∧
    (n = 0%Z → batch = []) ∧
    ∀ σ l, σ !! l = Some (Vec seed) →
      ∃ ret σ', hop_along_for_n_st σ a b c n (Some l) = Ok (ret, σ') ∧
                σ' !! ret = Some (Mat batch) ∧
                σ' !! l = Some (Vec seed) ∧
                ∀ l', l' < length σ → σ' !! l' = σ !! l'.
Proof.
  intros Hn. exists ((λ k, orbit a b c seed (S k)) <$> seq 0 (Z.to_nat n)).
  split; [apply hop_along_for_n_eq; assumption|].
  split; [rewrite length_fmap, length_seq; reflexivity|].
  split.
  { intros k Hk. rewrite list_lookup_fmap, lookup_seq_lt by assumption. reflexivity. }
  split; [intros ->; reflexivity|].
  intros σ l Hl.
  destruct (hop_along_for_n_st_spec a b c σ l seed n Hl Hn) as (ret & σ' & batch & E & Eb & Hret & Hold).
  rewrite hop_along_for_n_eq in Eb by assumption. injection Eb as <-.
  exists ret, σ'. split; [assumption|]. split; [assumption|]. split; [|assumption].
  rewrite Hold by (eapply lookup_lt_Some; eassumption). assumption.
Qed.

Lemma C2_generate_witness :
  (0 ≤ 2)%Z ∧
  ∃ batch,
    hop_along_for_n 1 1 0 2 (Some (0, 0)%float) = Ok batch ∧
    length batch = Z.to_nat 2 ∧
    (∀ k, k < Z.to_nat 2 → batch !! k = Some (orbit 1 1 0 (0, 0)%float (S k))) ∧
    ((2 = 0)%Z → batch = []) ∧
    ∀ σ l, σ !! l = Some (Vec (0, 0)%float) →
      ∃ ret σ', hop_along_for_n_st σ 1 1 0 2 (Some l) = Ok (ret, σ') ∧
                σ' !! ret = Some (Mat batch) ∧
                σ' !! l = Some (Vec (0, 0)%float) ∧
                ∀ l', l' < length σ → σ' !! l' = σ !! l'.
Proof. split; [lia|]. apply (C2_generate 1 1 0 (0, 0)%float 2). lia. Defined.

(** The concrete batch of the specification. *)
Example generate_example :
  hop_along_for_n 1 1 0 2 (Some (0, 0)%float) = Ok [(0, 1)%float; (1, 1)%float].
Proof. vm_compute. reflexivity. Qed.

Example generate_example_st :
  hop_along_for_n_st [Vec (0, 0)%float] 1 1 0 2 (Some 0) =
    Ok (1, [Vec (0, 0)%float; Mat [(0, 1)%float; (1, 1)%float];
            Vec (0, 1)%float; Vec (1, 1)%float]).
Proof. vm_compute. reflexivity. Qed.

(** ** The parameter randomizer *)

Section RandomFacts.
Local Open Scope float_scope.

Lemma uniform_ok low high g :
  is_finite (high - low) = true →
  Random.uniform low high g =
    Ok (nth_draw low high g 0, Rng (draws g) (S (consumed g))).
Proof.
  intros H. unfold Random.uniform, Np.isfinite, nth_draw. rewrite H. cbn [negb].
  unfold Random.next_double. rewrite Nat.add_0_r. reflexivity.
Qed.

Lemma uniform_overflow low high g :
  is_finite (high - low) = false → Random.uniform low high g = Raise OverflowError.
Proof. intros H. unfold Random.uniform, Np.isfinite. rewrite H. reflexivity. Qed.

Lemma uniform_ok_nth low high g i :
  is_finite (high - low) = true →
  Random.uniform low high (Rng (draws g) (consumed g + i)) =
    Ok (nth_draw low high g i, Rng (draws g) (consumed g + S i)).
Proof.
  intros H. rewrite uniform_ok by assumption. unfold nth_draw. cbn [draws consumed].
  rewrite Nat.add_0_r, Nat.add_succ_r. reflexivity.
Qed.

Lemma random_abc_ok low high g :
  is_finite (high - low) = true →
  random_abc low high g =
    Ok ((nth_draw low high g 0, nth_draw low high g 1, nth_draw low high g 2),
        Rng (draws g) (3 + consumed g)).
Proof.
  intros H. unfold random_abc.
  replace g with (Rng (draws g) (consumed g + 0)) at 1
    by (rewrite Nat.add_0_r; destruct g; reflexivity).
  rewrite uniform_ok_nth by assumption. cbn [mbind result_bind].
  rewrite uniform_ok_nth by assumption. cbn [mbind result_bind].
  rewrite uniform_ok_nth by assumption. cbn [mbind result_bind].
  rewrite (Nat.add_comm (consumed g) 3). reflexivity.
Qed.

Lemma random_abc_overflow low high g :
  is_finite (high - low) = false → random_abc low high g = Raise OverflowError.
Proof. intros H. unfold random_abc. rewrite uniform_overflow by assumption. reflexivity. Qed.

Lemma random_abc_default g :
  random_abc default_min_val default_max_val g =
    Ok ((nth_draw default_min_val default_max_val g 0,
         nth_draw default_min_val default_max_val g 1,
         nth_draw default_min_val default_max_val g 2),
        Rng (draws g) (3 + consumed g)).
Proof. apply random_abc_ok. reflexivity. Qed.

Lemma nth_draw_default_range g i :
  unit_draws g → in_default_range (nth_draw default_min_val default_max_val g i).
Proof.
  intros Hg. destruct (Hg (consumed g + i)%nat) as [H0 H1].
  apply default_draw_range; assumption.
Qed.

(** C9 (as stated) fails: with [min_val > max_val] the randomizer raises
    nothing and returns draws from the inverted range. *)
Lemma C9_counterexample :
  (0 <? 1) = true ∧
  random_abc 1 0 (Rng (λ _, 0.5) 0) = Ok ((0.5, 0.5, 0.5), Rng (λ _, 0.5) 3).
Proof. split; reflexivity. Qed.

(** C9, amended: the randomizer compares [min_val] and [max_val] nowhere.
    Whenever [max_val - min_val] is finite, [min_val > max_val] included, it
    raises nothing, consumes three draws [u] and returns the three values
    [min_val + (max_val - min_val) * u], which for [min_val > max_val] are
    draws from the inverted range; it raises (OverflowError) exactly when
    [max_val - min_val] is not finite.  For finite [min_val = max_val = v],
    and draws in [[0, 1)], the three values are equal to [v]. *)
Theorem C9_random_abc :
  (∀ low high g, is_finite (high - low) = true →
     random_abc low high g =
       Ok ((nth_draw low high g 0, nth_draw low high g 1, nth_draw low high g 2),
           Rng (draws g) (3 + consumed g))) ∧
  (∀ low high g, is_finite (high - low) = false →
     random_abc low high g = Raise OverflowError) ∧
  (∀ v g, is_finite v = true → unit_draws g →
     ∃ p0 p1 p2 g', random_abc v v g = Ok ((p0, p1, p2), g') ∧
       (p0 =? v) = true ∧ (p1 =? v) = true ∧ (p2 =? v) = true).
Proof.
  split; [exact random_abc_ok|]. split; [exact random_abc_overflow|].
  intros v g Fv Hg.
  assert (Hd : ∀ i, is_finite (v - v) = true ∧ (nth_draw v v g i =? v) = true).
  { intros i. destruct (Hg (consumed g + i)%nat) as [H0 H1].
    apply equal_bounds_draw; assumption. }
  destruct (Hd 0%nat) as [Fr _].
  eexists _, _, _, _. split; [apply random_abc_ok; assumption|].
  split; [apply Hd|]. split; apply Hd.
Qed.
End RandomFacts.

(** ** The frame loop *)

Section FrameFacts.
Context (cfg : config).

Lemma last_column_swapaxes (batch : list Point) :
  Np.last_column (Np.swapaxes batch) =
    match last batch with Some p => Ok p | None => Raise IndexError end.
Proof.
  unfold Np.last_column, Np.swapaxes. cbn [fst snd]. rewrite !fmap_last.
  destruct (last batch) as [[x y]|]; reflexivity.
Qed.

Lemma last_column_origin : Np.last_column (Np.swapaxes [(0, 0)%float]) = Ok (0, 0)%float.
Proof. reflexivity. Qed.

Lemma slice_from_neg {A} (n : Z) (l : list A) :
  (0 < n)%Z → Py.slice_from (- n) l = drop (length l - Z.to_nat n) l.
Proof.
  intros Hn. unfold Py.slice_from. destruct (Z.ltb_spec (- n) 0) as [_|?]; [|lia].
  f_equal. lia.
Qed.

Lemma length_slice_from_neg {A} (n : Z) (l : list A) :
  (0 < n)%Z → length (Py.slice_from (- n) l) = Nat.min (length l) (Z.to_nat n).
Proof. intros Hn. rewrite slice_from_neg, length_drop by assumption. lia. Qed.

(** What one turn of the loop does, read off its result. *)
Lemma frame_inv s s' evs :
  frame cfg s = Ok (s', evs) →
  ∃ seed batch hist_evs,
    Np.last_column (values s) = Ok seed ∧
    hop_along_for_n (a s) (b s) (c s) (n_iters cfg) (Some seed) = Ok batch ∧
    (if positive_hist cfg
     then draw_history cfg 0 (history s) = Ok hist_evs ∧
          history s' = Py.slice_from (- n_hist cfg) (history s ++ [Np.swapaxes batch])
     else hist_evs = [] ∧ history s' = history s) ∧
    evs = Scatter (Np.swapaxes batch).1 (Np.swapaxes batch).2
            (Py.range (n_iters cfg)) (alpha_init cfg)
          :: hist_evs ++ [Xticks; Yticks; Pause (pause_time cfg); Clf] ∧
    full_iters s' = (full_iters s + 1)%Z ∧
    (if reset_due cfg (full_iters s + 1)
     then values s' = Np.swapaxes [(0, 0)%float] ∧
          random_abc default_min_val default_max_val (gen s) = Ok (params s', gen s')
     else values s' = Np.swapaxes batch ∧ params s' = params s ∧ gen s' = gen s).
Proof.
  unfold frame, reset_due.
  destruct (Np.last_column (values s)) as [seed|e] eqn:Eseed; [|discriminate].
  cbn [mbind result_bind].
  destruct (hop_along_for_n _ _ _ _ _) as [batch|e] eqn:Ebatch; [|discriminate].
  cbn [mbind result_bind].
  intros H. exists seed, batch.
  destruct (positive_hist cfg).
  - destruct (draw_history cfg 0 (history s)) as [hevs|e]; [|discriminate].
    cbn [mbind result_bind] in H. exists hevs.
    split; [reflexivity|]. split; [assumption|].
    destruct (positive_reset cfg && _).
    + rewrite random_abc_default in *. cbn [mbind result_bind] in H.
      injection H as <- <-. cbn. repeat split; reflexivity.
    + injection H as <- <-. cbn. repeat split; reflexivity.
  - cbn [mbind result_bind] in H. exists [].
    split; [reflexivity|]. split; [assumption|].
    destruct (positive_reset cfg && _).
    + rewrite random_abc_default in *. cbn [mbind result_bind] in H.
      injection H as <- <-. cbn. repeat split; reflexivity.
    + injection H as <- <-. cbn. repeat split; reflexivity.
Qed.

(** The opacities of the retained batches. *)
Lemma draw_history_spec (hist : list (list float * list float)) :
  ∀ index : Z, (0 ≤ index)%Z → (index + Z.of_nat (length hist) ≤ n_hist cfg)%Z →
  draw_history cfg index hist =
    Ok (imap (λ i arr, Scatter arr.1 arr.2 (Py.range (n_iters cfg))
                (Py.quotient (index + Z.of_nat i + 1) (n_hist cfg) * alpha_init cfg)%float)
          hist).
Proof.
  induction hist as [|arr hist IH]; intros index H0 Hn; [reflexivity|].
  cbn [length] in Hn. cbn [draw_history imap].
  destruct (int_truediv_unit (index + 1) (n_hist cfg) ltac:(lia)) as (Eq & _ & _).
  rewrite Eq. cbn [mbind result_bind].
  rewrite (IH (index + 1)%Z) by lia. cbn [mbind result_bind].
  rewrite Z.add_0_r. do 2 f_equal.
  apply imap_ext. intros i arr' _. cbn. do 3 f_equal. lia.
Qed.

Lemma draw_history_ok (hist : list (list float * list float)) :
  (Z.of_nat (length hist) ≤ n_hist cfg)%Z → is_ok (draw_history cfg 0 hist).
Proof.
  intros H. eexists. apply draw_history_spec; lia.
Qed.

(** A turn of the loop succeeds when there is a last point to start from,
    the count is not negative and the history is not longer than [n_hist]. *)
Lemma frame_ok s seed :
  Np.last_column (values s) = Ok seed → (0 ≤ n_iters cfg)%Z →
  (Z.of_nat (length (history s)) ≤ Z.max 0 (n_hist cfg))%Z →
  is_ok (frame cfg s).
Proof.
  intros Hseed Hn Hh. unfold frame. rewrite Hseed. cbn [mbind result_bind].
  rewrite hop_along_for_n_eq by assumption. cbn [mbind result_bind].
  unfold positive_hist. destruct (Z.ltb_spec 0 (n_hist cfg)) as [Hp|Hp].
  - destruct (draw_history_ok (history s) ltac:(lia)) as [hevs ->].
    cbn [mbind result_bind].
    destruct (positive_reset cfg && _); [rewrite random_abc_default|]; eexists; reflexivity.
  - cbn [mbind result_bind].
    destruct (positive_reset cfg && _); [rewrite random_abc_default|]; eexists; reflexivity.
Qed.
End FrameFacts.

(** ** Runs of the loop *)

Section RunFacts.
Context (cfg : config) (a0 b0 c0 : float) (g0 : rng).

Lemma run_S_inv k s0 s' evs' :
  run cfg (S k) s0 = Ok (s', evs') →
  ∃ s evs evf, run cfg k s0 = Ok (s, evs) ∧ frame cfg s = Ok (s', evf) ∧
               evs' = evs ++ evf.
Proof.
  cbn [run]. destruct (run cfg k s0) as [[s evs]|e]; [|discriminate].
  cbn [mbind result_bind]. destruct (frame cfg s) as [[s1 evf]|e] eqn:E; [|discriminate].
  cbn [mbind result_bind]. intros [= <- <-]. exists s, evs, evf. repeat split; assumption.
Qed.

Lemma run_S_ok k s0 s evs s' evf :
  run cfg k s0 = Ok (s, evs) → frame cfg s = Ok (s', evf) →
  run cfg (S k) s0 = Ok (s', evs ++ evf).
Proof. intros H1 H2. cbn [run]. rewrite H1. cbn [mbind result_bind]. rewrite H2. reflexivity. Qed.

Lemma hop_along_for_n_Ok a b c n seed batch :
  hop_along_for_n a b c n (Some seed) = Ok batch →
  (0 ≤ n)%Z ∧ batch = (λ k, orbit a b c seed (S k)) <$> seq 0 (Z.to_nat n).
Proof.
  intros H. destruct (Z.lt_ge_cases n 0) as [Hn|Hn].
  - unfold hop_along_for_n, Np.zeros2 in H.
    destruct (Z.ltb_spec n 0) as [_|?]; [discriminate H|lia].
  - rewrite hop_along_for_n_eq in H by assumption. injection H as <-.
    split; [assumption|reflexivity].
Qed.

Lemma div_succ (k n : Z) :
  (0 ≤ k)%Z → (0 < n)%Z →
  ((k + 1) / n = k / n + (if ((k + 1) mod n =? 0)%Z then 1 else 0))%Z.
Proof.
  intros Hk Hn.
  pose proof (Z.div_mod k n ltac:(lia)) as E.
  pose proof (Z.mod_pos_bound k n Hn) as B.
  destruct (Z.eq_dec (k mod n + 1)%Z n) as [Hr|Hr].
  - rewrite <- (Z.div_unique (k + 1) n (k / n + 1) 0) by lia.
    rewrite <- (Z.mod_unique (k + 1) n (k / n + 1) 0) by lia.
    reflexivity.
  - rewrite <- (Z.div_unique (k + 1) n (k / n) (k mod n + 1)) by lia.
    rewrite <- (Z.mod_unique (k + 1) n (k / n) (k mod n + 1)) by lia.
    destruct (Z.eqb_spec (k mod n + 1)%Z 0%Z); lia.
Qed.

Lemma reached_init : reached cfg a0 b0 c0 g0 0 (init a0 b0 c0 g0).
Proof.
  unfold reached, init. cbn [full_iters gen history values].
  split; [reflexivity|]. split; [reflexivity|].
  split; [destruct (positive_reset cfg); change (Z.of_nat 0) with 0%Z; rewrite ?Zdiv_0_l; cbn; lia|].
  split; [cbn [length]; lia|]. split; [constructor|]. split; [left; reflexivity|].
  intros _. split; reflexivity.
Qed.

Lemma reached_frame k s s' evs :
  reached cfg a0 b0 c0 g0 k s → frame cfg s = Ok (s', evs) → reached cfg a0 b0 c0 g0 (S k) s'.
Proof.
  intros (Hf & Hd & Hc & Hl & Hall & Hv & Hp) H.
  apply frame_inv in H as (seed & batch & hevs & Hseed & Hbatch & Hhist & -> & Hf' & Hreset).
  apply hop_along_for_n_Ok in Hbatch as [Hn ->].
  set (batch := (λ k, orbit (a s) (b s) (c s) seed (S k)) <$> seq 0 (Z.to_nat (n_iters cfg))) in *.
  assert (Lb : length batch = Z.to_nat (n_iters cfg))
    by (unfold batch; rewrite length_fmap, length_seq; reflexivity).
  unfold reached. rewrite Hf', Hf. rewrite Hf in Hreset.
  split; [lia|].
  assert (Hgen : draws (gen s') = draws g0 ∧
                 consumed (gen s') = consumed g0 + 3 * Z.to_nat
                   (if positive_reset cfg then Z.of_nat (S k) / n_reset cfg else 0) ∧
                 (values s' = Np.swapaxes [(0, 0)%float] ∨
                  ∃ batch, values s' = Np.swapaxes batch ∧
                           length batch = Z.to_nat (n_iters cfg)) ∧
                 (positive_reset cfg = false → params s' = (a0, b0, c0) ∧ gen s' = g0)).
  { unfold reset_due in Hreset. unfold positive_reset in *.
    destruct (Z.ltb_spec 0 (n_reset cfg)) as [Hr|Hr]; cbn [andb] in Hreset.
    - replace (Z.of_nat (S k)) with (Z.of_nat k + 1)%Z by lia.
      rewrite (div_succ (Z.of_nat k) (n_reset cfg)) by lia.
      pose proof (Z.div_pos (Z.of_nat k) (n_reset cfg) ltac:(lia) Hr).
      destruct ((Z.of_nat k + 1) mod n_reset cfg =? 0)%Z.
      + destruct Hreset as [Hval Hrnd]. rewrite random_abc_default in Hrnd.
        injection Hrnd as Ea Eb Ec Hg'. rewrite <- Hg'. cbn [draws consumed].
        split; [assumption|]. split; [lia|]. split; [left; assumption|]. discriminate.
      + destruct Hreset as (Hval & Hpar & Hg'). rewrite Hg'.
        split; [assumption|]. split; [rewrite Hc; lia|].
        split; [right; exists batch; split; assumption|]. discriminate.
    - destruct Hreset as (Hval & Hpar & Hg'). rewrite Hg', Hpar.
      split; [assumption|]. split; [assumption|].
      split; [right; exists batch; split; assumption|]. exact Hp. }
  destruct Hgen as (G1 & G2 & G3 & G4).
  split; [assumption|]. split; [assumption|].
  unfold positive_hist in Hhist. destruct (Z.ltb_spec 0 (n_hist cfg)) as [Hh|Hh].
  - destruct Hhist as [_ ->]. rewrite length_slice_from_neg, length_app by assumption.
    cbn [length]. split; [lia|]. split; [|split; assumption].
    rewrite slice_from_neg by assumption. apply Forall_drop, Forall_app. split; [assumption|].
    constructor; [|constructor]. unfold Np.swapaxes. cbn [fst snd].
    rewrite !length_fmap. split; assumption.
  - destruct Hhist as [_ ->]. split; [lia|]. split; [assumption|]. split; assumption.
Qed.

Lemma reached_run k s evs :
  run cfg k (init a0 b0 c0 g0) = Ok (s, evs) → reached cfg a0 b0 c0 g0 k s.
Proof.
  revert s evs. induction k as [|k IH]; intros s evs H.
  - injection H as <- <-. apply reached_init.
  - apply run_S_inv in H as (s1 & evs1 & evf & H1 & H2 & _).
    eapply reached_frame; [eapply IH; eassumption|eassumption].
Qed.

Lemma reached_seed k s :
  reached cfg a0 b0 c0 g0 k s → (0 < n_iters cfg)%Z → is_ok (Np.last_column (values s)).
Proof.
  intros (_ & _ & _ & _ & _ & [->|(batch & -> & L)] & _) Hn.
  - eexists. reflexivity.
  - rewrite last_column_swapaxes.
    destruct (last batch) as [p|] eqn:E; [eexists; reflexivity|].
    apply last_None in E. subst batch. cbn in L. lia.
Qed.

(** With a positive iteration count, the loop runs for any number of turns. *)
Lemma run_ok k : (0 < n_iters cfg)%Z → is_ok (run cfg k (init a0 b0 c0 g0)).
Proof.
  intros Hn. induction k as [|k [[s evs] IH]]; [eexists; reflexivity|].
  pose proof (reached_run _ _ _ IH) as Hr.
  destruct (reached_seed _ _ Hr Hn) as [seed Hseed].
  destruct (frame_ok cfg s seed Hseed ltac:(lia)) as [[s' evf] Hf].
  - destruct Hr as (_ & _ & _ & Hl & _). rewrite Hl. lia.
  - eexists. eapply run_S_ok; eassumption.
Qed.
End RunFacts.

(** ** The seed across frames *)

Section SeedFacts.
Context (cfg : config).

Lemma reset_due_one : n_reset cfg ≠ 1%Z → reset_due cfg 1 = false.
Proof.
  intros H. unfold reset_due, positive_reset.
  destruct (Z.ltb_spec 0 (n_reset cfg)) as [Hp|?]; [|reflexivity]. cbn [andb].
  rewrite Z.mod_1_l by lia. reflexivity.
Qed.

(** C3, at its failing inputs: with [n_iters = 0] (and no reset after the
    first frame) the first frame leaves [values] with no column, and the
    second frame raises [IndexError] at [values[:, -1]]; the seed is not kept. *)
Theorem C3_zero_iters_second_frame (a0 b0 c0 : float) (g : rng) :
  n_iters cfg = 0%Z → n_reset cfg ≠ 1%Z →
  (∃ s evs, run cfg 1 (init a0 b0 c0 g) = Ok (s, evs) ∧ values s = ([], [])) ∧
  run cfg 2 (init a0 b0 c0 g) = Raise IndexError.
Proof.
  intros Hn Hr.
  assert (H1 : ∃ h evs, run cfg 1 (init a0 b0 c0 g) = Ok (State a0 b0 c0 ([], []) h 1 g, evs)).
  { cbn [run mbind result_bind]. unfold frame, init. cbn [values a b c history full_iters gen].
    rewrite last_column_origin. cbn [mbind result_bind]. rewrite Hn.
    change (hop_along_for_n a0 b0 c0 0 (Some (0, 0)%float)) with (@Ok (list Point) []).
    cbn [mbind result_bind draw_history].
    change (0 + 1)%Z with 1%Z. fold (reset_due cfg 1). rewrite (reset_due_one Hr).
    destruct (positive_hist cfg); cbn [mbind result_bind]; eexists _, _; reflexivity. }
  destruct H1 as (h & evs & H1). split.
  - eexists _, _. split; [exact H1|reflexivity].
  - change (run cfg 2 (init a0 b0 c0 g)) with
      (run cfg 1 (init a0 b0 c0 g) ≫= λ '(s, evs), frame cfg s ≫= λ '(s, evs'), Ok (s, evs ++ evs')).
    rewrite H1. reflexivity.
Qed.
End SeedFacts.

Lemma C3_zero_iters_second_frame_witness :
  n_iters cfg_zero_iters = 0%Z ∧ n_reset cfg_zero_iters ≠ 1%Z ∧
  ((∃ s evs, run cfg_zero_iters 1 (init 1 1 0 rng_half) = Ok (s, evs) ∧ values s = ([], [])) ∧
   run cfg_zero_iters 2 (init 1 1 0 rng_half) = Raise IndexError).
Proof.
  split; [reflexivity|]. split; [discriminate|].
  apply (C3_zero_iters_second_frame cfg_zero_iters 1 1 0 rng_half); [reflexivity|discriminate].
Defined.

(** ** The history buffer *)

(** C4: for every [n_hist >= 0], after any number of executed frames the
    history holds at most [n_hist] batches; and with a positive iteration
    count every frame does execute. *)
Theorem C4_history_bound (cfg : config) (a0 b0 c0 : float) (g : rng) (k : nat) :
  (0 ≤ n_hist cfg)%Z →
  (∀ s evs, run cfg k (init a0 b0 c0 g) = Ok (s, evs) →
            (Z.of_nat (length (history s)) ≤ n_hist cfg)%Z) ∧
  ((0 < n_iters cfg)%Z → is_ok (run cfg k (init a0 b0 c0 g))).
Proof.
  intros Hh. split; [|apply run_ok].
  intros s evs H. apply reached_run in H as (_ & _ & _ & Hl & _). rewrite Hl. lia.
Qed.

Lemma C4_history_bound_witness :
  (0 ≤ n_hist cfg_hist2)%Z ∧
  ((∀ s evs, run cfg_hist2 5 (init 1 1 0 rng_half) = Ok (s, evs) →
             (Z.of_nat (length (history s)) ≤ n_hist cfg_hist2)%Z) ∧
   ((0 < n_iters cfg_hist2)%Z → is_ok (run cfg_hist2 5 (init 1 1 0 rng_half)))).
Proof.
  split; [vm_compute; discriminate|].
  apply (C4_history_bound cfg_hist2 1 1 0 rng_half 5). vm_compute. discriminate.
Defined.

(** ** Opacities of the retained batches *)

Section OpacityFacts.
Context (cfg : config).
Local Open Scope float_scope.

Lemma draw_history_events hist :
  (Z.of_nat (length hist) ≤ n_hist cfg)%Z →
  draw_history cfg 0 hist = Ok (history_events cfg hist).
Proof.
  intros H. rewrite draw_history_spec by lia. reflexivity.
Qed.

Lemma opacities_imap_scatter (r : list Z) (f : nat → float)
    (hist : list (list float * list float)) :
  opacities (imap (λ i arr, Scatter arr.1 arr.2 r (f i)) hist) = imap (λ i _, f i) hist.
Proof.
  revert f. induction hist as [|arr hist IH]; intros f; [reflexivity|].
  cbn [imap]. unfold opacities in *. cbn [omap list_omap]. f_equal. apply (IH (f ∘ S)).
Qed.

Lemma opacities_history_events hist :
  opacities (history_events cfg hist) =
    imap (λ i _, Py.quotient (Z.of_nat i + 1) (n_hist cfg) * alpha_init cfg) hist.
Proof.
  apply (opacities_imap_scatter _
           (λ i, Py.quotient (Z.of_nat i + 1) (n_hist cfg) * alpha_init cfg)).
Qed.

Lemma opacities_frame new_ev hevs t :
  opacities (new_ev :: hevs ++ [Xticks; Yticks; Pause t; Clf]) =
    opacities [new_ev] ++ opacities hevs.
Proof.
  unfold opacities. change (new_ev :: hevs ++ [Xticks; Yticks; Pause t; Clf])
    with ([new_ev] ++ hevs ++ [Xticks; Yticks; Pause t; Clf]).
  rewrite !omap_app. cbn [omap list_omap]. rewrite app_nil_r. reflexivity.
Qed.

(** The events of a frame, for a history within the bound. *)
Lemma frame_events s s' evs :
  frame cfg s = Ok (s', evs) → (0 < n_hist cfg)%Z →
  (Z.of_nat (length (history s)) ≤ n_hist cfg)%Z →
  ∃ xs ys,
    evs = Scatter xs ys (Py.range (n_iters cfg)) (alpha_init cfg)
          :: history_events cfg (history s) ++ [Xticks; Yticks; Pause (pause_time cfg); Clf].
Proof.
  intros H Hp Hl.
  apply frame_inv in H as (seed & batch & hevs & _ & _ & Hhist & -> & _).
  unfold positive_hist in Hhist. destruct (Z.ltb_spec 0 (n_hist cfg)) as [_|?]; [|lia].
  destruct Hhist as [Hd _]. rewrite draw_history_events in Hd by assumption.
  injection Hd as <-. eexists _, _. reflexivity.
Qed.
End OpacityFacts.

Section OpacityClaims.
Local Open Scope float_scope.

(** C5 (as stated) fails: the oldest of the retained batches (rank 1) is
    drawn with [1 / n_hist * alpha_init], not [(1 + 1) / n_hist * alpha_init].
    With [n_hist = 2] and [alpha_init = 0.3], the second frame draws the new
    batch at 0.3 and the retained one at 0.15, where the claim says 0.3. *)
Lemma C5_counterexample :
  ∃ s evs s' evs',
    run cfg_hist2 1 (init 1 1 0 rng_half) = Ok (s, evs) ∧
    frame cfg_hist2 s = Ok (s', evs') ∧
    length (history s) = 1%nat ∧
    opacities evs' = [alpha_default; 0x1.3333333333333p-3] ∧
    spec_opacity cfg_hist2 1 = Ok alpha_default ∧
    (0x1.3333333333333p-3 <? alpha_default) = true.
Proof.
  eexists _, _, _, _. split; [vm_compute; reflexivity|].
  split; [vm_compute; reflexivity|]. repeat split; reflexivity.
Qed.

(** C5, amended: when [n_hist > 0], every frame sends the retained batches
    to the renderer oldest first, the batch at position [i] (counted from 0
    at the oldest kept entry, so of rank [i + 1]) with opacity
    [(i + 1) / n_hist * alpha_init], that is [rank / n_hist * alpha_init];
    no error arises in computing it; and for [alpha_init >= 0] this opacity
    does not exceed [alpha_init]. *)
Theorem C5_history_opacity (cfg : config) (a0 b0 c0 : float) (g : rng) (k : nat)
    (s : state) (evs : list event) (s' : state) (evs' : list event) :
  run cfg k (init a0 b0 c0 g) = Ok (s, evs) → frame cfg s = Ok (s', evs') →
  (0 < n_hist cfg)%Z →
  ∃ xs ys hevs,
    evs' = Scatter xs ys (Py.range (n_iters cfg)) (alpha_init cfg)
           :: hevs ++ [Xticks; Yticks; Pause (pause_time cfg); Clf] ∧
    length hevs = length (history s) ∧
    ∀ (i : nat) arr, history s !! i = Some arr →
      Py.int_truediv (Z.of_nat i + 1) (n_hist cfg) =
        Ok (Py.quotient (Z.of_nat i + 1) (n_hist cfg)) ∧
      hevs !! i = Some (Scatter arr.1 arr.2 (Py.range (n_iters cfg))
                          (Py.quotient (Z.of_nat i + 1) (n_hist cfg) * alpha_init cfg)) ∧
      ((0 <=? alpha_init cfg) = true →
       (alpha_init cfg <? Py.quotient (Z.of_nat i + 1) (n_hist cfg) * alpha_init cfg) = false).
Proof.
  intros Hrun Hframe Hp.
  pose proof (reached_run _ _ _ _ _ _ _ _ Hrun) as (_ & _ & _ & Hl & _).
  assert (Hlen : (Z.of_nat (length (history s)) ≤ n_hist cfg)%Z) by (rewrite Hl; lia).
  destruct (frame_events cfg s s' evs' Hframe Hp Hlen) as (xs & ys & ->).
  exists xs, ys, (history_events cfg (history s)).
  split; [reflexivity|]. split; [unfold history_events; apply length_imap|].
  intros i arr Hi.
  assert (Hi' : i < length (history s)) by (eapply lookup_lt_Some; eassumption).
  destruct (int_truediv_unit (Z.of_nat i + 1) (n_hist cfg) ltac:(lia)) as (E & H0 & H1).
  split; [exact E|]. split.
  - unfold history_events. rewrite list_lookup_imap, Hi. reflexivity.
  - intros Ha. apply scale_le; assumption.
Qed.

Lemma C5_history_opacity_witness :
  ∃ s evs s' evs',
    run cfg_hist2 1 (init 1 1 0 rng_half) = Ok (s, evs) ∧
    frame cfg_hist2 s = Ok (s', evs') ∧ (0 < n_hist cfg_hist2)%Z ∧
    ∃ xs ys hevs,
      evs' = Scatter xs ys (Py.range (n_iters cfg_hist2)) (alpha_init cfg_hist2)
             :: hevs ++ [Xticks; Yticks; Pause (pause_time cfg_hist2); Clf] ∧
      length hevs = length (history s) ∧
      ∀ (i : nat) arr, history s !! i = Some arr →
        Py.int_truediv (Z.of_nat i + 1) (n_hist cfg_hist2) =
          Ok (Py.quotient (Z.of_nat i + 1) (n_hist cfg_hist2)) ∧
        hevs !! i = Some (Scatter arr.1 arr.2 (Py.range (n_iters cfg_hist2))
                            (Py.quotient (Z.of_nat i + 1) (n_hist cfg_hist2)
                             * alpha_init cfg_hist2)) ∧
        ((0 <=? alpha_init cfg_hist2) = true →
         (alpha_init cfg_hist2
          <? Py.quotient (Z.of_nat i + 1) (n_hist cfg_hist2) * alpha_init cfg_hist2) = false).
Proof.
  eexists _, _, _, _.
  split; [vm_compute; reflexivity|]. split; [vm_compute; reflexivity|].
  split; [reflexivity|].
  eapply (C5_history_opacity cfg_hist2 1 1 0 rng_half 1);
    [vm_compute; reflexivity|vm_compute; reflexivity|reflexivity].
Defined.

(** C6 (as stated) fails on both counts.  With [n_hist = 10] and
    [alpha_init = 0.75] the oldest retained batch is drawn at
    [1 / 10 * 0.75], which as a float is greater than [0.75 / 10]; with
    [alpha_init = 0] the two retained batches of the third frame are both
    drawn at 0, which is not strictly increasing; and the same happens with
    the positive [alpha_init = 2 ^ -1074], whose products underflow to 0. *)
Lemma C6_counterexample :
  (∃ s evs s' evs' o,
     run (cfg_hist10 0.75) 1 (init 1 1 0 rng_half) = Ok (s, evs) ∧
     frame (cfg_hist10 0.75) s = Ok (s', evs') ∧
     opacities evs' = [0.75; o] ∧ (0.75 / 10 <? o) = true) ∧
  (∃ s evs s' evs' o1 o2,
     run (cfg_hist10 0) 2 (init 1 1 0 rng_half) = Ok (s, evs) ∧
     frame (cfg_hist10 0) s = Ok (s', evs') ∧
     opacities evs' = [0; o1; o2] ∧ (o1 <? o2) = false) ∧
  (∃ s evs s' evs' o1 o2,
     run (cfg_hist10 0x1p-1074) 2 (init 1 1 0 rng_half) = Ok (s, evs) ∧
     frame (cfg_hist10 0x1p-1074) s = Ok (s', evs') ∧
     (0 <? 0x1p-1074) = true ∧
     opacities evs' = [0x1p-1074; o1; o2] ∧ (o1 <? o2) = false).
Proof.
  split; [|split].
  - eexists _, _, _, _, _. split; [vm_compute; reflexivity|].
    split; [vm_compute; reflexivity|]. split; reflexivity.
  - eexists _, _, _, _, _, _. split; [vm_compute; reflexivity|].
    split; [vm_compute; reflexivity|]. split; reflexivity.
  - eexists _, _, _, _, _, _. split; [vm_compute; reflexivity|].
    split; [vm_compute; reflexivity|]. split; [reflexivity|]. split; reflexivity.
Qed.

(** C6, amended: when [n_hist > 0] and [alpha_init] is finite and not
    negative, the oldest retained batch is drawn with opacity
    [1 / n_hist * alpha_init] as binary64 computes it and the opacities never
    decrease from an older retained batch to a newer one.  For
    [alpha_init <= 1], the range of an opacity, the opacity of the oldest
    batch is [alpha_init / n_hist] up to the two roundings: it lies between
    [alpha_init / n_hist * (1 - u)^2 - 2^-1073] and
    [alpha_init / n_hist * (1 + u)^2 + 2^-1073] with [u = 2^-53], so it
    exceeds [alpha_init / n_hist] by rounding error only; and the opacities
    increase strictly from each older retained batch to each newer one
    whenever nothing underflows ([alpha_init / n_hist >= 2^-1021], which
    needs [alpha_init > 0]) and at most [2^50] batches are retained. *)
Theorem C6_opacity_order (cfg : config) (a0 b0 c0 : float) (g : rng) (k : nat)
    (s : state) (evs : list event) (s' : state) (evs' : list event) :
  run cfg k (init a0 b0 c0 g) = Ok (s, evs) → frame cfg s = Ok (s', evs') →
  (0 < n_hist cfg)%Z → (0 <=? alpha_init cfg) = true → is_finite (alpha_init cfg) = true →
  ∃ os,
    opacities evs' = alpha_init cfg :: os ∧ length os = length (history s) ∧
    (history s ≠ [] → os !! 0%nat = Some (Py.quotient 1 (n_hist cfg) * alpha_init cfg)) ∧
    (∀ (i j : nat) oi oj, i ≤ j → os !! i = Some oi → os !! j = Some oj →
                          (oi <=? oj) = true) ∧
    ((alpha_init cfg <=? 1) = true →
     (B2R (alpha_init cfg) / IZR (n_hist cfg) * ((1 - u64) * (1 - u64)) - bpow (-1073)
        <= B2R (Py.quotient 1 (n_hist cfg) * alpha_init cfg)
        <= B2R (alpha_init cfg) / IZR (n_hist cfg) * ((1 + u64) * (1 + u64))
           + bpow (-1073))%R ∧
     ((bpow (-1021) * IZR (n_hist cfg) <= B2R (alpha_init cfg))%R →
      (Z.of_nat (length (history s)) ≤ 2 ^ 50)%Z →
      ∀ (i j : nat) oi oj, i < j → os !! i = Some oi → os !! j = Some oj →
                           (oi <? oj) = true)).
Proof.
  intros Hrun Hframe Hp Ha Fa.
  pose proof (reached_run _ _ _ _ _ _ _ _ Hrun) as (_ & _ & _ & Hl & _).
  assert (Hlen : (Z.of_nat (length (history s)) ≤ n_hist cfg)%Z) by (rewrite Hl; lia).
  destruct (frame_events cfg s s' evs' Hframe Hp Hlen) as (xs & ys & ->).
  rewrite opacities_frame, opacities_history_events. cbn [opacities omap list_omap app].
  eexists. split; [reflexivity|]. split; [apply length_imap|]. split; [|split].
  - intros Hne. destruct (history s) as [|arr h]; [congruence|]. reflexivity.
  - intros i j oi oj Hij. rewrite !list_lookup_imap.
    destruct (history s !! i) as [ai|] eqn:Ei; [|discriminate].
    destruct (history s !! j) as [aj|] eqn:Ej; [|discriminate].
    cbn [fmap option_fmap option_map]. intros [= <-] [= <-].
    assert (Hi : i < length (history s)) by (eapply lookup_lt_Some; eassumption).
    assert (Hj : j < length (history s)) by (eapply lookup_lt_Some; eassumption).
    destruct (int_truediv_unit (Z.of_nat i + 1) (n_hist cfg) ltac:(lia)) as (E1 & H0 & _).
    destruct (int_truediv_unit (Z.of_nat j + 1) (n_hist cfg) ltac:(lia)) as (E2 & _ & H1).
    apply scale_mono; try assumption.
    eapply (int_truediv_mono (Z.of_nat i + 1) (Z.of_nat j + 1) (n_hist cfg));
      [lia|assumption|eassumption..].
  - intros H1. split.
    + pose proof (scaled_quotient_error 1 (n_hist cfg) (alpha_init cfg) ltac:(lia) Ha H1)
        as Hb.
      replace (1 / IZR (n_hist cfg) * B2R (alpha_init cfg))%R
        with (B2R (alpha_init cfg) / IZR (n_hist cfg))%R in Hb by (unfold Rdiv; ring).
      exact Hb.
    + intros Hbig H50 i j oi oj Hij. rewrite !list_lookup_imap.
      destruct (history s !! i) as [ai|] eqn:Ei; [|discriminate].
      destruct (history s !! j) as [aj|] eqn:Ej; [|discriminate].
      cbn [fmap option_fmap option_map]. intros [= <-] [= <-].
      assert (Hj : j < length (history s)) by (eapply lookup_lt_Some; eassumption).
      apply scaled_quotient_strict; try assumption; lia.
Qed.

(** The default [alpha_init = 0.3] is far from underflow. *)
Lemma alpha_default_normal : (bpow (-1021) * IZR 2 <= B2R alpha_default)%R.
Proof.
  change (B2R alpha_default) with (F2R 5404319552844595 (-54)). unfold F2R.
  rewrite <- bpow_1, <- bpow_add.
  apply Rle_trans with (bpow (-54)); [apply bpow_le; lia|].
  pose proof (bpow_pos (-54)).
  assert (1 <= IZR 5404319552844595)%R by (apply IZR_le; lia). nra.
Qed.

Lemma C6_opacity_order_witness :
  ∃ s evs s' evs',
    run cfg_hist2 3 (init 1 1 0 rng_half) = Ok (s, evs) ∧
    frame cfg_hist2 s = Ok (s', evs') ∧
    (0 < n_hist cfg_hist2)%Z ∧ (0 <=? alpha_init cfg_hist2) = true ∧
    is_finite (alpha_init cfg_hist2) = true ∧
    ((alpha_init cfg_hist2 <=? 1) = true ∧
     (bpow (-1021) * IZR (n_hist cfg_hist2) <= B2R (alpha_init cfg_hist2))%R ∧
     (Z.of_nat (length (history s)) ≤ 2 ^ 50)%Z) ∧
    ∃ os,
      opacities evs' = alpha_init cfg_hist2 :: os ∧ length os = length (history s) ∧
      (history s ≠ [] →
       os !! 0%nat = Some (Py.quotient 1 (n_hist cfg_hist2) * alpha_init cfg_hist2)) ∧
      (∀ (i j : nat) oi oj, i ≤ j → os !! i = Some oi → os !! j = Some oj →
                            (oi <=? oj) = true) ∧
      ((alpha_init cfg_hist2 <=? 1) = true →
       (B2R (alpha_init cfg_hist2) / IZR (n_hist cfg_hist2) * ((1 - u64) * (1 - u64))
          - bpow (-1073)
          <= B2R (Py.quotient 1 (n_hist cfg_hist2) * alpha_init cfg_hist2)
          <= B2R (alpha_init cfg_hist2) / IZR (n_hist cfg_hist2) * ((1 + u64) * (1 + u64))
             + bpow (-1073))%R ∧
       ((bpow (-1021) * IZR (n_hist cfg_hist2) <= B2R (alpha_init cfg_hist2))%R →
        (Z.of_nat (length (history s)) ≤ 2 ^ 50)%Z →
        ∀ (i j : nat) oi oj, i < j → os !! i = Some oi → os !! j = Some oj →
                             (oi <? oj) = true)).
Proof.
  eexists _, _, _, _.
  split; [vm_compute; reflexivity|]. split; [vm_compute; reflexivity|].
  split; [reflexivity|]. split; [reflexivity|]. split; [reflexivity|].
  split; [split; [reflexivity|split; [exact alpha_default_normal|vm_compute; discriminate]]|].
  eapply (C6_opacity_order cfg_hist2 1 1 0 rng_half 3);
    [vm_compute; reflexivity|vm_compute; reflexivity|reflexivity..].
Defined.
End OpacityClaims.

(** ** Parameter resets *)

Section ResetClaims.
Local Open Scope float_scope.

Lemma reset_due_iff (cfg : config) (t : Z) :
  (0 < n_reset cfg)%Z → reset_due cfg t = true ↔ (t mod n_reset cfg = 0)%Z.
Proof.
  intros Hp. unfold reset_due, positive_reset.
  destruct (Z.ltb_spec 0 (n_reset cfg)) as [_|?]; [|lia]. cbn [andb].
  apply Z.eqb_eq.
Qed.

(** C7: with [n_reset = k > 0], the frame with number [t] (counted from 1)
    draws new parameters exactly when [k] divides [t], so after [t] frames
    the parameters have been drawn [t / k] times, and after each such frame
    the values array is [[0], [0]], whose last column, the next seed, is
    [(0, 0)]; in every other frame the parameters and the random source stay
    as they are.  With [n_reset = 0] the parameters after any number of
    frames are the initial ones and the random source is never used. *)
Theorem C7_reset_schedule (cfg : config) (a0 b0 c0 : float) (g0 : rng) (t : nat)
    (s : state) (evs : list event) (s' : state) (evs' : list event) :
  run cfg t (init a0 b0 c0 g0) = Ok (s, evs) → frame cfg s = Ok (s', evs') →
  ((0 < n_reset cfg)%Z →
     (((Z.of_nat t + 1) mod n_reset cfg = 0)%Z →
        random_abc default_min_val default_max_val (gen s) = Ok (params s', gen s') ∧
        values s' = Np.swapaxes [(0, 0)] ∧
        Np.last_column (values s') = Ok (0, 0)) ∧
     (((Z.of_nat t + 1) mod n_reset cfg ≠ 0)%Z →
        params s' = params s ∧ gen s' = gen s) ∧
     consumed (gen s') =
       (consumed g0 + 3 * Z.to_nat ((Z.of_nat t + 1) / n_reset cfg))%nat) ∧
  (n_reset cfg = 0%Z → params s' = (a0, b0, c0) ∧ gen s' = g0).
Proof.
  intros Hrun Hframe.
  pose proof (reached_run _ _ _ _ _ _ _ _ Hrun) as Hr.
  pose proof (reached_frame _ _ _ _ _ _ _ _ _ Hr Hframe) as (_ & _ & Hc' & _ & _ & _ & Hp').
  destruct Hr as (Hf & _).
  apply frame_inv in Hframe as (seed & batch & hevs & _ & _ & _ & _ & _ & Hreset).
  rewrite Hf in Hreset. split.
  - intros Hp. pose proof (reset_due_iff cfg (Z.of_nat t + 1) Hp) as Hiff.
    split; [|split].
    + intros Hm. apply Hiff in Hm. rewrite Hm in Hreset. destruct Hreset as [Hv Hrnd].
      split; [assumption|]. split; [assumption|]. rewrite Hv. reflexivity.
    + intros Hm. destruct (reset_due cfg (Z.of_nat t + 1)) eqn:E.
      * exfalso. apply Hm, Hiff. reflexivity.
      * destruct Hreset as (_ & ? & ?). split; assumption.
    + rewrite Hc'. unfold positive_reset.
      destruct (Z.ltb_spec 0 (n_reset cfg)) as [_|?]; [|lia].
      do 3 f_equal. lia.
  - intros H0. apply Hp'. unfold positive_reset. rewrite H0. reflexivity.
Qed.

Lemma C7_reset_schedule_witness :
  ∃ s evs s' evs',
    run cfg_reset2 3 (init 1 1 0 rng_half) = Ok (s, evs) ∧
    frame cfg_reset2 s = Ok (s', evs') ∧
    ((0 < n_reset cfg_reset2)%Z →
       (((Z.of_nat 3 + 1) mod n_reset cfg_reset2 = 0)%Z →
          random_abc default_min_val default_max_val (gen s) = Ok (params s', gen s') ∧
          values s' = Np.swapaxes [(0, 0)] ∧
          Np.last_column (values s') = Ok (0, 0)) ∧
       (((Z.of_nat 3 + 1) mod n_reset cfg_reset2 ≠ 0)%Z →
          params s' = params s ∧ gen s' = gen s) ∧
       consumed (gen s') =
         (consumed rng_half + 3 * Z.to_nat ((Z.of_nat 3 + 1) / n_reset cfg_reset2))%nat) ∧
    (n_reset cfg_reset2 = 0%Z → params s' = (1, 1, 0) ∧ gen s' = rng_half).
Proof.
  eexists _, _, _, _.
  split; [vm_compute; reflexivity|]. split; [vm_compute; reflexivity|].
  eapply (C7_reset_schedule cfg_reset2 1 1 0 rng_half 3); vm_compute; reflexivity.
Defined.

(** C10: every reset inside the loop calls the randomizer with its default
    bounds, whatever the initial parameters and the configuration; so, for a
    random source with draws in [[0, 1)], each of the parameters after a
    reset lies between [-10.0] and [10.0]. *)
Theorem C10_reset_default_range (cfg : config) (a0 b0 c0 : float) (g0 : rng) (t : nat)
    (s : state) (evs : list event) (s' : state) (evs' : list event) :
  unit_draws g0 →
  run cfg t (init a0 b0 c0 g0) = Ok (s, evs) → frame cfg s = Ok (s', evs') →
  reset_due cfg (Z.of_nat t + 1) = true →
  random_abc default_min_val default_max_val (gen s) = Ok (params s', gen s') ∧
  in_default_range (a s') ∧ in_default_range (b s') ∧ in_default_range (c s').
Proof.
  intros Hg Hrun Hframe Hdue.
  pose proof (reached_run _ _ _ _ _ _ _ _ Hrun) as (Hf & Hd & _).
  apply frame_inv in Hframe as (seed & batch & hevs & _ & _ & _ & _ & _ & Hreset).
  rewrite Hf, Hdue in Hreset. destruct Hreset as [_ Hrnd].
  split; [assumption|].
  rewrite random_abc_default in Hrnd. injection Hrnd as Ea Eb Ec _.
  assert (Hg' : unit_draws (gen s)) by (intros i; unfold unit_draws in Hg; rewrite Hd; apply Hg).
  rewrite <- Ea, <- Eb, <- Ec.
  repeat split; apply nth_draw_default_range; assumption.
Qed.

Lemma unit_draws_half : unit_draws rng_half.
Proof. intros i. split; reflexivity. Qed.

Lemma C10_reset_default_range_witness :
  ∃ s evs s' evs',
    unit_draws rng_half ∧
    run cfg_reset2 1 (init 1 1 0 rng_half) = Ok (s, evs) ∧
    frame cfg_reset2 s = Ok (s', evs') ∧
    reset_due cfg_reset2 (Z.of_nat 1 + 1) = true ∧
    (random_abc default_min_val default_max_val (gen s) = Ok (params s', gen s') ∧
     in_default_range (a s') ∧ in_default_range (b s') ∧ in_default_range (c s')).
Proof.
  eexists _, _, _, _.
  split; [exact unit_draws_half|].
  split; [vm_compute; reflexivity|]. split; [vm_compute; reflexivity|].
  split; [reflexivity|].
  eapply (C10_reset_default_range cfg_reset2 1 1 0 rng_half 1);
    [exact unit_draws_half|vm_compute; reflexivity|vm_compute; reflexivity|reflexivity].
Defined.
End ResetClaims.

(** * Further properties *)

(** ** Batches chain *)

Section ChainFacts.
Context (a b c : float).

Lemma iterates_length seed n : length (iterates a b c seed n) = n.
Proof. unfold iterates. rewrite length_fmap, length_seq. reflexivity. Qed.

Lemma iterates_last seed n :
  last_point seed (iterates a b c seed n) = orbit a b c seed n.
Proof.
  unfold last_point, iterates. destruct n as [|n]; [reflexivity|].
  rewrite seq_S, fmap_app. cbn [fmap list_fmap]. rewrite last_snoc. reflexivity.
Qed.

Lemma iterates_app seed n m :
  iterates a b c seed (n + m) =
    iterates a b c seed n ++ iterates a b c (orbit a b c seed n) m.
Proof.
  unfold iterates. rewrite seq_app, fmap_app. f_equal.
  replace (0 + n) with (n + 0) by lia.
  rewrite <- (fmap_add_seq n 0 m), <- list_fmap_compose.
  apply list_fmap_ext. intros i k _. unfold compose.
  rewrite <- (orbit_add a b c seed n (S k)). f_equal. lia.
Qed.

Lemma hop_along_for_n_iterates n seed batch :
  hop_along_for_n a b c n (Some seed) = Ok batch →
  (0 ≤ n)%Z ∧ batch = iterates a b c seed (Z.to_nat n).
Proof. apply hop_along_for_n_Ok. Qed.

(** Generating [n] points and then [m] more from the last of them (from the
    seed itself when [n = 0]) gives the same points as generating [n + m]
    at once. *)
Theorem hop_along_for_n_chain (n m : Z) (seed : Point) (l1 l2 : list Point) :
  hop_along_for_n a b c n (Some seed) = Ok l1 →
  hop_along_for_n a b c m (Some (last_point seed l1)) = Ok l2 →
  hop_along_for_n a b c (n + m) (Some seed) = Ok (l1 ++ l2).
Proof.
  intros H1 H2.
  apply hop_along_for_n_iterates in H1 as [Hn ->].
  rewrite iterates_last in H2.
  apply hop_along_for_n_iterates in H2 as [Hm ->].
  rewrite hop_along_for_n_eq by lia. f_equal.
  rewrite Z2Nat.inj_add by assumption. apply iterates_app.
Qed.
End ChainFacts.

Lemma hop_along_for_n_chain_witness :
  hop_along_for_n 1 1 0 1 (Some (0, 0)%float) = Ok [(0, 1)%float] ∧
  hop_along_for_n 1 1 0 1 (Some (last_point (0, 0)%float [(0, 1)%float])) = Ok [(1, 1)%float] ∧
  hop_along_for_n 1 1 0 (1 + 1) (Some (0, 0)%float) = Ok ([(0, 1)%float] ++ [(1, 1)%float]).
Proof.
  split; [reflexivity|]. split; [reflexivity|].
  apply (hop_along_for_n_chain 1 1 0 1 1 (0, 0)%float); reflexivity.
Defined.

(** ** NaN is absorbing *)

Section NanFacts.
Local Open Scope float_scope.

Lemma is_nan_eq (x : float) : is_nan x = true → x = nan.
Proof.
  intros H. apply Prim2SF_inj. unfold is_nan in H. rewrite FloatAxioms.eqb_spec in H.
  change (Prim2SF nan) with S754_nan.
  destruct (Prim2SF x) as [s|s| |s m e] eqn:E; try reflexivity.
  - rewrite SFeqb_refl in H by exact I. discriminate H.
  - destruct s; discriminate H.
  - rewrite SFeqb_refl in H by exact I. discriminate H.
Qed.

Lemma mul_nan_r (x : float) : x * nan = nan.
Proof.
  apply Prim2SF_inj. rewrite mul_spec. change (Prim2SF nan) with S754_nan.
  destruct (Prim2SF x); reflexivity.
Qed.

Lemma add_nan_r (x : float) : x + nan = nan.
Proof.
  apply Prim2SF_inj. rewrite add_spec. change (Prim2SF nan) with S754_nan.
  destruct (Prim2SF x); reflexivity.
Qed.

Lemma sub_nan_r (x : float) : x - nan = nan.
Proof.
  apply Prim2SF_inj. rewrite sub_spec. change (Prim2SF nan) with S754_nan.
  destruct (Prim2SF x); reflexivity.
Qed.

Lemma sub_nan_l (x : float) : nan - x = nan.
Proof.
  apply Prim2SF_inj. rewrite sub_spec. change (Prim2SF nan) with S754_nan.
  destruct (Prim2SF x); reflexivity.
Qed.

Lemma hop_along_eq_nan (y a b c : float) : hop_along_eq (nan, y) a b c = (nan, nan).
Proof.
  unfold hop_along_eq, Np.copysign. cbn [fst snd].
  rewrite mul_nan_r, sub_nan_l.
  change (abs nan) with nan. change (PrimFloat.sqrt nan) with nan.
  change (get_sign nan) with false. cbn match.
  change (abs nan) with nan. change (- nan) with nan.
  rewrite add_nan_r, sub_nan_r. reflexivity.
Qed.

(** A seed whose first coordinate is a NaN poisons the whole orbit: every
    later point is [(nan, nan)], whatever the parameters and the second
    coordinate. *)
Theorem orbit_nan (a b c : float) (seed : Point) (k : nat) :
  is_nan seed.1 = true → orbit a b c seed (S k) = (nan, nan).
Proof.
  intros H. destruct seed as [x y]. cbn [fst] in H. apply is_nan_eq in H. subst x.
  induction k as [|k IH]; [apply hop_along_eq_nan|].
  rewrite orbit_S, IH. apply hop_along_eq_nan.
Qed.
End NanFacts.

Lemma orbit_nan_witness :
  is_nan (nan, 1%float).1 = true ∧ orbit 1 1 0 (nan, 1%float) (S 2) = (nan, nan).
Proof. split; [reflexivity|]. apply (orbit_nan 1 1 0 (nan, 1%float) 2). reflexivity. Defined.

(** ** What a turn of the loop draws and keeps *)

Section LoopMore.
Context (cfg : config).
Local Open Scope float_scope.

Lemma iterates_last_Some a b c seed n :
  (0 < n)%nat → last (iterates a b c seed n) = Some (orbit a b c seed n).
Proof.
  intros Hn. destruct n as [|n]; [lia|].
  unfold iterates. rewrite seq_S, fmap_app. cbn [fmap list_fmap]. apply last_snoc.
Qed.

(** [frame_inv] with the batch written out. *)
Lemma frame_batch s s' evs :
  frame cfg s = Ok (s', evs) →
  ∃ seed hevs,
    Np.last_column (values s) = Ok seed ∧ (0 ≤ n_iters cfg)%Z ∧
    evs = Scatter (Np.swapaxes (iterates (a s) (b s) (c s) seed (Z.to_nat (n_iters cfg)))).1
                  (Np.swapaxes (iterates (a s) (b s) (c s) seed (Z.to_nat (n_iters cfg)))).2
                  (Py.range (n_iters cfg)) (alpha_init cfg)
          :: hevs ++ [Xticks; Yticks; Pause (pause_time cfg); Clf] ∧
    (if positive_hist cfg
     then draw_history cfg 0 (history s) = Ok hevs ∧
          history s' = Py.slice_from (- n_hist cfg)
            (history s ++ [Np.swapaxes (iterates (a s) (b s) (c s) seed (Z.to_nat (n_iters cfg)))])
     else hevs = [] ∧ history s' = history s) ∧
    full_iters s' = (full_iters s + 1)%Z ∧
    (if reset_due cfg (full_iters s + 1)
     then values s' = Np.swapaxes [(0, 0)] ∧
          random_abc default_min_val default_max_val (gen s) = Ok (params s', gen s')
     else values s' = Np.swapaxes (iterates (a s) (b s) (c s) seed (Z.to_nat (n_iters cfg))) ∧
          params s' = params s ∧ gen s' = gen s).
Proof.
  intros H.
  apply frame_inv in H as (seed & batch & hevs & Hseed & Hbatch & Hhist & -> & Hf & Hreset).
  apply hop_along_for_n_iterates in Hbatch as [Hn ->].
  exists seed, hevs. repeat split; assumption.
Qed.

(** Without a reset, the batch of a turn starts where the batch before it
    ended: it holds the next [n_iters] iterates of the step from the last
    point of the old batch, and its own last point, the seed of the next
    turn, is the [n_iters]-th of them. *)
Theorem seed_continuity (s s' : state) (evs : list event) :
  frame cfg s = Ok (s', evs) → (0 < n_iters cfg)%Z →
  reset_due cfg (full_iters s + 1) = false →
  ∃ seed,
    Np.last_column (values s) = Ok seed ∧
    values s' = Np.swapaxes (iterates (a s) (b s) (c s) seed (Z.to_nat (n_iters cfg))) ∧
    Np.last_column (values s') =
      Ok (orbit (a s) (b s) (c s) seed (Z.to_nat (n_iters cfg))) ∧
    params s' = params s.
Proof.
  intros H Hn Hdue.
  apply frame_batch in H as (seed & hevs & Hseed & _ & _ & _ & _ & Hreset).
  rewrite Hdue in Hreset. destruct Hreset as (Hv & Hp & _).
  exists seed. split; [assumption|]. split; [assumption|]. split; [|assumption].
  rewrite Hv, last_column_swapaxes, iterates_last_Some by lia. reflexivity.
Qed.

(** The turn after a reset draws the first [n_iters] iterates of the step
    from the origin, under the parameters that the reset has drawn. *)
Theorem reset_restarts_orbit (s s' s'' : state) (evs' evs'' : list event) :
  frame cfg s = Ok (s', evs') → reset_due cfg (full_iters s + 1) = true →
  frame cfg s' = Ok (s'', evs'') →
  ∃ rest,
    evs'' = Scatter (iterates (a s') (b s') (c s') (0, 0) (Z.to_nat (n_iters cfg))).*1
                    (iterates (a s') (b s') (c s') (0, 0) (Z.to_nat (n_iters cfg))).*2
                    (Py.range (n_iters cfg)) (alpha_init cfg) :: rest.
Proof.
  intros H Hdue H'.
  apply frame_batch in H as (seed & hevs & _ & _ & _ & _ & _ & Hreset).
  rewrite Hdue in Hreset. destruct Hreset as [Hv _].
  apply frame_batch in H' as (seed' & hevs' & Hseed' & _ & -> & _).
  rewrite Hv, last_column_origin in Hseed'. injection Hseed' as <-.
  eexists. reflexivity.
Qed.

(** The events that redraw the history are [Scatter] calls of the retained
    batches. *)
Lemma draw_history_scatter (index : Z) hist hevs :
  draw_history cfg index hist = Ok hevs →
  length hevs = length hist ∧ pauses hevs = [] ∧
  ∀ n, Forall (λ arr : list float * list float, length arr.1 = n ∧ length arr.2 = n) hist →
       length (Py.range (n_iters cfg)) = n → Forall (scatter_sized n) hevs.
Proof.
  revert index hevs. induction hist as [|arr hist IH]; intros index hevs H.
  - injection H as <-. repeat split. constructor.
  - cbn [draw_history] in H.
    destruct (Py.int_truediv (index + 1) (n_hist cfg)) as [q|e]; [|discriminate H].
    cbn [mbind result_bind] in H.
    destruct (draw_history cfg (index + 1) hist) as [tl|e] eqn:E; [|discriminate H].
    cbn [mbind result_bind] in H. injection H as <-.
    destruct (IH _ _ E) as (Hl & Hp & Hs).
    split; [cbn [length]; congruence|]. split; [exact Hp|].
    intros n Hall Hr. apply Forall_cons in Hall as [[H1 H2] Hall].
    constructor; [cbn; auto|]. apply Hs; assumption.
Qed.

Lemma length_range (n : Z) : length (Py.range n) = Z.to_nat n.
Proof. unfold Py.range. apply length_seqZ. Qed.

Lemma frame_scatter_sized s s' evs :
  frame cfg s = Ok (s', evs) →
  Forall (λ arr : list float * list float,
            length arr.1 = Z.to_nat (n_iters cfg) ∧ length arr.2 = Z.to_nat (n_iters cfg))
         (history s) →
  Forall (scatter_sized (Z.to_nat (n_iters cfg))) evs.
Proof.
  intros H Hall.
  apply frame_batch in H as (seed & hevs & _ & _ & -> & Hhist & _).
  constructor.
  - cbn. rewrite !length_fmap, iterates_length, length_range. auto.
  - apply Forall_app. split.
    + destruct (positive_hist cfg).
      * destruct Hhist as [Hd _]. apply draw_history_scatter in Hd as (_ & _ & Hs).
        apply Hs; [assumption|apply length_range].
      * destruct Hhist as [-> _]. constructor.
    + repeat constructor.
Qed.

Lemma frame_pauses s s' evs :
  frame cfg s = Ok (s', evs) → pauses evs = [pause_time cfg].
Proof.
  intros H.
  apply frame_batch in H as (seed & hevs & _ & _ & -> & Hhist & _).
  assert (Hp : pauses hevs = []).
  { destruct (positive_hist cfg).
    - destruct Hhist as [Hd _]. apply draw_history_scatter in Hd as (_ & Hp & _). exact Hp.
    - destruct Hhist as [-> _]. reflexivity. }
  unfold pauses in *.
  match goal with |- omap ?f (?x :: ?l ++ ?r) = _ =>
    change (omap f ([x] ++ l ++ r) = [pause_time cfg]) end.
  rewrite !omap_app, Hp. reflexivity.
Qed.
End LoopMore.

Lemma seed_continuity_witness :
  ∃ s' evs,
    frame cfg_hist2 (init 1 1 0 rng_half) = Ok (s', evs) ∧ (0 < n_iters cfg_hist2)%Z ∧
    reset_due cfg_hist2 (full_iters (init 1 1 0 rng_half) + 1) = false ∧
    ∃ seed,
      Np.last_column (values (init 1 1 0 rng_half)) = Ok seed ∧
      values s' = Np.swapaxes (iterates 1 1 0 seed (Z.to_nat (n_iters cfg_hist2))) ∧
      Np.last_column (values s') = Ok (orbit 1 1 0 seed (Z.to_nat (n_iters cfg_hist2))) ∧
      params s' = params (init 1 1 0 rng_half).
Proof.
  eexists _, _. split; [vm_compute; reflexivity|]. split; [reflexivity|].
  split; [reflexivity|].
  eapply (seed_continuity cfg_hist2 (init 1 1 0 rng_half)); reflexivity.
Defined.

Lemma reset_restarts_orbit_witness :
  ∃ s' evs' s'' evs'',
    frame cfg_reset1 (init 1 1 0 rng_half) = Ok (s', evs') ∧
    reset_due cfg_reset1 (full_iters (init 1 1 0 rng_half) + 1) = true ∧
    frame cfg_reset1 s' = Ok (s'', evs'') ∧
    ∃ rest,
      evs'' = Scatter (iterates (a s') (b s') (c s') (0, 0)%float (Z.to_nat (n_iters cfg_reset1))).*1
                      (iterates (a s') (b s') (c s') (0, 0)%float (Z.to_nat (n_iters cfg_reset1))).*2
                      (Py.range (n_iters cfg_reset1)) (alpha_init cfg_reset1) :: rest.
Proof.
  eexists _, _, _, _.
  split; [vm_compute; reflexivity|]. split; [reflexivity|].
  split; [vm_compute; reflexivity|].
  eapply (reset_restarts_orbit cfg_reset1 (init 1 1 0 rng_half));
    [vm_compute; reflexivity|reflexivity|vm_compute; reflexivity].
Defined.

(** ** Whole runs of the loop *)

Section RunMore.
Context (cfg : config) (a0 b0 c0 : float) (g0 : rng).
Local Open Scope float_scope.

Lemma reached_history_le k s :
  reached cfg a0 b0 c0 g0 k s →
  (Z.of_nat (length (history s)) ≤ Z.max 0 (n_hist cfg))%Z.
Proof. intros (_ & _ & _ & Hl & _). rewrite Hl. lia. Qed.

Lemma positive_reset_false : (n_reset cfg ≤ 0)%Z → positive_reset cfg = false.
Proof. intros H. unfold positive_reset. apply Z.ltb_ge. assumption. Qed.

Lemma reset_due_nonpos t : (n_reset cfg ≤ 0)%Z → reset_due cfg t = false.
Proof. intros H. unfold reset_due. rewrite positive_reset_false by assumption. reflexivity. Qed.

(** Without resets the seed after [k] turns is the [k * n_iters]-th iterate
    from the origin under the initial parameters. *)
Lemma run_seed_no_reset k s evs :
  (n_reset cfg ≤ 0)%Z → (0 < n_iters cfg)%Z →
  run cfg k (init a0 b0 c0 g0) = Ok (s, evs) →
  Np.last_column (values s) = Ok (orbit a0 b0 c0 (0, 0) (k * Z.to_nat (n_iters cfg))) ∧
  params s = (a0, b0, c0).
Proof.
  intros Hr Hn. revert s evs. induction k as [|k IH]; intros s evs H.
  - injection H as <- <-. split; reflexivity.
  - apply run_S_inv in H as (s1 & evs1 & evf & H1 & H2 & _).
    destruct (IH _ _ H1) as [Hseed Hpar].
    apply frame_batch in H2 as (seed & hevs & Hseed' & _ & _ & _ & Hf & Hreset).
    rewrite reset_due_nonpos in Hreset by assumption.
    destruct Hreset as (Hv & Hp & _).
    rewrite Hseed in Hseed'. injection Hseed' as <-.
    injection Hpar as Ea Eb Ec. rewrite Ea, Eb, Ec in Hv.
    split; [|rewrite Hp; unfold params; congruence].
    rewrite Hv, last_column_swapaxes, iterates_last_Some by lia.
    rewrite <- orbit_add. do 2 f_equal. lia.
Qed.

(** Without resets the frames trace one orbit: whenever the loop has
    completed [k + 1] turns, the parameters are the initial ones and the
    values array holds the iterates number [k * n_iters + 1] to
    [(k + 1) * n_iters] of the step from the origin. *)
Theorem run_trajectory (k : nat) (s : state) (evs : list event) :
  (n_reset cfg ≤ 0)%Z → run cfg (S k) (init a0 b0 c0 g0) = Ok (s, evs) →
  params s = (a0, b0, c0) ∧
  values s = Np.swapaxes ((λ j, orbit a0 b0 c0 (0, 0) (k * Z.to_nat (n_iters cfg) + S j))
                            <$> seq 0 (Z.to_nat (n_iters cfg))).
Proof.
  intros Hr H.
  pose proof (reached_run _ _ _ _ _ _ _ _ H) as (_ & _ & _ & _ & _ & _ & Hp).
  destruct (Hp (positive_reset_false Hr)) as [Hpar _]. split; [exact Hpar|].
  apply run_S_inv in H as (s1 & evs1 & evf & H1 & H2 & _).
  pose proof (reached_run _ _ _ _ _ _ _ _ H1) as (_ & _ & _ & _ & _ & _ & Hp1).
  destruct (Hp1 (positive_reset_false Hr)) as [Hpar1 _].
  apply frame_batch in H2 as (seed & hevs & Hseed & Hn & _ & _ & _ & Hreset).
  rewrite reset_due_nonpos in Hreset by assumption.
  destruct Hreset as (Hv & _ & _).
  injection Hpar1 as Ea Eb Ec. rewrite Ea, Eb, Ec in Hv. rewrite Hv.
  destruct (Z.eq_dec (n_iters cfg) 0%Z) as [E0|Hne].
  - rewrite E0. reflexivity.
  - destruct (run_seed_no_reset _ _ _ Hr ltac:(lia) H1) as [Hseed1 _].
    rewrite Hseed1 in Hseed. injection Hseed as <-.
    unfold iterates. f_equal. apply list_fmap_ext. intros i j _.
    symmetry. apply orbit_add.
Qed.

(** *** When the loop fails *)

Lemma run_prefix k j s0 : is_ok (run cfg (k + j) s0) → is_ok (run cfg k s0).
Proof.
  induction j as [|j IH].
  - rewrite Nat.add_0_r. auto.
  - rewrite Nat.add_succ_r. intros [[s evs] H].
    apply run_S_inv in H as (s1 & evs1 & evf & H1 & _). apply IH. eexists. exact H1.
Qed.

Lemma run_one_negative : (n_iters cfg < 0)%Z → run cfg 1 (init a0 b0 c0 g0) = Raise ValueError.
Proof.
  intros Hn. cbn [run mbind result_bind]. unfold frame, init. cbn [values a b c].
  rewrite last_column_origin. cbn [mbind result_bind].
  unfold hop_along_for_n, Np.zeros2. destruct (Z.ltb_spec (n_iters cfg) 0) as [_|?]; [|lia].
  reflexivity.
Qed.

Lemma run_one_ok : (0 ≤ n_iters cfg)%Z → is_ok (run cfg 1 (init a0 b0 c0 g0)).
Proof.
  intros Hn.
  destruct (frame_ok cfg (init a0 b0 c0 g0) (0, 0) eq_refl Hn) as [[s' evf] Hf].
  - cbn. lia.
  - eexists. apply (run_S_ok cfg 0 _ _ [] _ _ eq_refl Hf).
Qed.

Lemma run_two_zero_iters :
  n_iters cfg = 0%Z → n_reset cfg ≠ 1%Z → run cfg 2 (init a0 b0 c0 g0) = Raise IndexError.
Proof.
  intros Hn Hr.
  destruct (run_one_ok ltac:(lia)) as [[s evs] H1].
  change (run cfg 2 (init a0 b0 c0 g0)) with
    (run cfg 1 (init a0 b0 c0 g0) ≫= λ '(s, evs), frame cfg s ≫= λ '(s, evs'), Ok (s, evs ++ evs')).
  rewrite H1. cbn [mbind result_bind].
  apply run_S_inv in H1 as (s0 & evs0 & evf & H0 & Hf & _).
  injection H0 as <- <-.
  apply frame_batch in Hf as (seed & hevs & _ & _ & _ & _ & _ & Hreset).
  change (full_iters (init a0 b0 c0 g0) + 1)%Z with 1%Z in Hreset.
  rewrite (reset_due_one cfg Hr) in Hreset. destruct Hreset as (Hv & _ & _).
  rewrite Hn in Hv. unfold frame. rewrite Hv. reflexivity.
Qed.

(** If the loop gets through [k] turns, then [k = 0], or the iteration
    count is positive, or the iteration count is zero and either [k = 1] or
    [n_reset = 1] (every turn then ends with a reset): a negative count
    stops the first turn, and a zero count without a reset after every turn
    stops the second. *)
Theorem run_completes_only_if (k : nat) :
  is_ok (run cfg k (init a0 b0 c0 g0)) →
  k = 0%nat ∨ (0 < n_iters cfg)%Z ∨
  (n_iters cfg = 0%Z ∧ (k = 1%nat ∨ n_reset cfg = 1%Z)).
Proof.
  intros Hok. destruct k as [|k]; [left; reflexivity|]. right.
  destruct (Z.lt_trichotomy 0 (n_iters cfg)) as [Hn|[Hn|Hn]]; [left; assumption| |].
  - right. split; [lia|]. destruct k as [|k]; [left; reflexivity|]. right.
    destruct (Z.eq_dec (n_reset cfg) 1%Z) as [?|Hr]; [assumption|exfalso].
    apply (run_prefix 2%nat k) in Hok as [r Hok].
    rewrite run_two_zero_iters in Hok by (assumption || lia). discriminate Hok.
  - exfalso. apply (run_prefix 1%nat k) in Hok as [r Hok].
    rewrite run_one_negative in Hok by assumption. discriminate Hok.
Qed.

(** After any number of completed turns, the steps that the next turn
    computes itself raise nothing: each [(index + 1) / n_hist] of the history
    loop is a division by a positive number that returns a float, the
    randomizer with its default bounds returns, and, for a positive
    iteration count, [values[:, -1]] finds a last column from which
    [hop_along_for_n] returns a batch of [n_iters] points. *)
Theorem next_frame_steps (k : nat) (s : state) (evs : list event) :
  run cfg k (init a0 b0 c0 g0) = Ok (s, evs) →
  (∀ (index : nat) arr, positive_hist cfg = true → history s !! index = Some arr →
     (0 < n_hist cfg)%Z ∧
     Py.int_truediv (Z.of_nat index + 1) (n_hist cfg) =
       Ok (Py.quotient (Z.of_nat index + 1) (n_hist cfg))) ∧
  is_ok (random_abc default_min_val default_max_val (gen s)) ∧
  ((0 < n_iters cfg)%Z →
   ∃ seed batch,
     Np.last_column (values s) = Ok seed ∧
     hop_along_for_n (a s) (b s) (c s) (n_iters cfg) (Some seed) = Ok batch ∧
     length batch = Z.to_nat (n_iters cfg)).
Proof.
  intros H. pose proof (reached_run _ _ _ _ _ _ _ _ H) as Hreach.
  split; [|split].
  - intros index arr Hp Hi. unfold positive_hist in Hp. apply Z.ltb_lt in Hp.
    split; [assumption|].
    assert (Hlt : index < length (history s)) by (eapply lookup_lt_Some; eassumption).
    destruct Hreach as (_ & _ & _ & Hl & _).
    apply int_truediv_unit. lia.
  - rewrite random_abc_default. eexists. reflexivity.
  - intros Hn. destruct (reached_seed _ _ _ _ _ _ _ Hreach Hn) as [seed Hseed].
    exists seed, (iterates (a s) (b s) (c s) seed (Z.to_nat (n_iters cfg))).
    split; [assumption|]. split; [apply hop_along_for_n_eq; lia|apply iterates_length].
Qed.
End RunMore.

Lemma run_trajectory_witness :
  ∃ s evs,
    (n_reset cfg_hist2 ≤ 0)%Z ∧
    run cfg_hist2 (S 2) (init 1 1 0 rng_half) = Ok (s, evs) ∧
    params s = (1, 1, 0)%float ∧
    values s =
      Np.swapaxes ((λ j, orbit 1 1 0 (0, 0)%float (2 * Z.to_nat (n_iters cfg_hist2) + S j))
                     <$> seq 0 (Z.to_nat (n_iters cfg_hist2))).
Proof.
  eexists _, _. split; [vm_compute; discriminate|]. split; [vm_compute; reflexivity|].
  eapply (run_trajectory cfg_hist2 1 1 0 rng_half 2);
    [vm_compute; discriminate|vm_compute; reflexivity].
Defined.

Lemma run_completes_only_if_witness :
  is_ok (run cfg_zero_iters 1 (init 1 1 0 rng_half)) ∧
  (1%nat = 0%nat ∨ (0 < n_iters cfg_zero_iters)%Z ∨
   (n_iters cfg_zero_iters = 0%Z ∧ (1%nat = 1%nat ∨ n_reset cfg_zero_iters = 1%Z))).
Proof.
  assert (H : is_ok (run cfg_zero_iters 1 (init 1 1 0 rng_half)))
    by (eexists; vm_compute; reflexivity).
  split; [exact H|]. exact (run_completes_only_if cfg_zero_iters 1 1 0 rng_half 1 H).
Defined.

Lemma next_frame_steps_witness :
  ∃ s evs,
    run cfg_hist2 3 (init 1 1 0 rng_half) = Ok (s, evs) ∧
    (∀ (index : nat) arr, positive_hist cfg_hist2 = true → history s !! index = Some arr →
       (0 < n_hist cfg_hist2)%Z ∧
       Py.int_truediv (Z.of_nat index + 1) (n_hist cfg_hist2) =
         Ok (Py.quotient (Z.of_nat index + 1) (n_hist cfg_hist2))) ∧
    is_ok (random_abc default_min_val default_max_val (gen s)) ∧
    ((0 < n_iters cfg_hist2)%Z →
     ∃ seed batch,
       Np.last_column (values s) = Ok seed ∧
       hop_along_for_n (a s) (b s) (c s) (n_iters cfg_hist2) (Some seed) = Ok batch ∧
       length batch = Z.to_nat (n_iters cfg_hist2)).
Proof.
  eexists _, _. split; [vm_compute; reflexivity|].
  eapply (next_frame_steps cfg_hist2 1 1 0 rng_half 3). vm_compute. reflexivity.
Defined.

(** ** The history as a queue *)

Section HistoryMore.
Context (cfg : config) (a0 b0 c0 : float) (g0 : rng).
Local Open Scope float_scope.

(** When [n_hist > 0] the history is a queue of length [n_hist]: a turn
    appends the batch it has just drawn, after dropping the oldest batch
    exactly when [n_hist] batches were already kept; so after [k + 1] turns
    it holds [min (k + 1) n_hist] batches, the newest last. *)
Theorem history_fifo (k : nat) (s s' : state) (evs evs' : list event) :
  run cfg k (init a0 b0 c0 g0) = Ok (s, evs) → frame cfg s = Ok (s', evs') →
  (0 < n_hist cfg)%Z →
  ∃ xs ys rest,
    evs' = Scatter xs ys (Py.range (n_iters cfg)) (alpha_init cfg) :: rest ∧
    history s' =
      (if (Z.of_nat k <? n_hist cfg)%Z then history s else drop 1 (history s)) ++ [(xs, ys)] ∧
    length (history s') = Z.to_nat (Z.min (Z.of_nat (S k)) (n_hist cfg)).
Proof.
  intros Hrun Hframe Hp.
  pose proof (reached_run _ _ _ _ _ _ _ _ Hrun) as Hr.
  pose proof (reached_frame _ _ _ _ _ _ _ _ _ Hr Hframe) as (_ & _ & _ & Hl' & _).
  destruct Hr as (_ & _ & _ & Hl & _).
  apply frame_batch in Hframe as (seed & hevs & _ & _ & -> & Hhist & _).
  unfold positive_hist in Hhist. destruct (Z.ltb_spec 0 (n_hist cfg)) as [_|?]; [|lia].
  destruct Hhist as [_ Hh]. eexists _, _, _. split; [reflexivity|].
  split; [|exact Hl'].
  rewrite Hh, slice_from_neg, length_app by assumption. cbn [length].
  destruct (Z.ltb_spec (Z.of_nat k) (n_hist cfg)) as [Hk|Hk].
  - replace (length (history s) + 1 - Z.to_nat (n_hist cfg))%nat with 0%nat by lia.
    reflexivity.
  - replace (length (history s) + 1 - Z.to_nat (n_hist cfg))%nat with 1%nat by lia.
    destruct (history s) as [|arr hist]; [cbn [length] in Hl; lia|reflexivity].
Qed.

(** When [n_hist <= 0], a negative value included, nothing is ever kept and
    a turn sends exactly one [Scatter], of the new batch, before the ticks,
    the pause and the clearing of the figure. *)
Theorem no_history (k : nat) (s s' : state) (evs evs' : list event) :
  run cfg k (init a0 b0 c0 g0) = Ok (s, evs) → frame cfg s = Ok (s', evs') →
  (n_hist cfg ≤ 0)%Z →
  history s' = [] ∧
  ∃ xs ys,
    evs' = [Scatter xs ys (Py.range (n_iters cfg)) (alpha_init cfg);
            Xticks; Yticks; Pause (pause_time cfg); Clf].
Proof.
  intros Hrun Hframe Hp.
  pose proof (reached_run _ _ _ _ _ _ _ _ Hrun) as (_ & _ & _ & Hl & _).
  apply frame_batch in Hframe as (seed & hevs & _ & _ & -> & Hhist & _).
  unfold positive_hist in Hhist. destruct (Z.ltb_spec 0 (n_hist cfg)) as [?|_]; [lia|].
  destruct Hhist as [-> ->]. split.
  - apply nil_length_inv. rewrite Hl. lia.
  - eexists _, _. reflexivity.
Qed.

(** Every [Scatter] call of a run is given as many x-coordinates,
    y-coordinates and colours as the iteration count: the colours of the
    redrawn batches fit them, since all batches of a run have one size. *)
Theorem run_scatter_sized (k : nat) (s : state) (evs : list event) :
  run cfg k (init a0 b0 c0 g0) = Ok (s, evs) →
  Forall (scatter_sized (Z.to_nat (n_iters cfg))) evs.
Proof.
  revert s evs. induction k as [|k IH]; intros s evs H.
  - injection H as <- <-. constructor.
  - apply run_S_inv in H as (s1 & evs1 & evf & H1 & H2 & ->).
    apply Forall_app. split; [eapply IH; eassumption|].
    pose proof (reached_run _ _ _ _ _ _ _ _ H1) as (_ & _ & _ & _ & Hall & _).
    eapply frame_scatter_sized; eassumption.
Qed.

Lemma quotient_same (n : Z) : (0 < n)%Z → Py.quotient n n = 1.
Proof.
  intros Hn. destruct (int_truediv_unit n n ltac:(lia)) as (E & _).
  rewrite int_truediv_same in E by assumption. congruence.
Qed.

(** Once [n_hist] batches are kept, a turn sends [n_hist + 1] [Scatter]
    calls and the last of them, the newest retained batch, has exactly the
    opacity [alpha_init] of the new batch. *)
Theorem full_history_newest_opacity (k : nat) (s s' : state) (evs evs' : list event) :
  run cfg k (init a0 b0 c0 g0) = Ok (s, evs) → frame cfg s = Ok (s', evs') →
  (0 < n_hist cfg ≤ Z.of_nat k)%Z →
  length (opacities evs') = S (Z.to_nat (n_hist cfg)) ∧
  last (opacities evs') = Some (alpha_init cfg).
Proof.
  intros Hrun Hframe [Hp Hk].
  pose proof (reached_run _ _ _ _ _ _ _ _ Hrun) as (_ & _ & _ & Hl & _).
  assert (Hl' : length (history s) = Z.to_nat (n_hist cfg)) by (rewrite Hl; lia).
  destruct (frame_events cfg s s' evs' Hframe Hp ltac:(lia)) as (xs & ys & ->).
  rewrite opacities_frame, opacities_history_events.
  change (opacities [Scatter xs ys (Py.range (n_iters cfg)) (alpha_init cfg)])
    with [alpha_init cfg].
  split; [rewrite length_app, length_imap, Hl'; reflexivity|].
  rewrite last_lookup, length_app, length_imap, Hl'. cbn [length Nat.add Nat.pred].
  rewrite lookup_app_r by (cbn [length]; lia). cbn [length].
  rewrite list_lookup_imap.
  destruct (lookup_lt_is_Some_2 (history s) (Z.to_nat (n_hist cfg) - 1)%nat ltac:(lia))
    as [arr E].
  rewrite E. cbn [fmap option_fmap option_map]. f_equal.
  replace (Z.of_nat (Z.to_nat (n_hist cfg) - 1) + 1)%Z with (n_hist cfg) by lia.
  rewrite quotient_same by assumption. apply mul_one_l.
Qed.
End HistoryMore.

Lemma history_fifo_witness :
  ∃ s evs s' evs',
    run cfg_hist2 3 (init 1 1 0 rng_half) = Ok (s, evs) ∧
    frame cfg_hist2 s = Ok (s', evs') ∧ (0 < n_hist cfg_hist2)%Z ∧
    ∃ xs ys rest,
      evs' = Scatter xs ys (Py.range (n_iters cfg_hist2)) (alpha_init cfg_hist2) :: rest ∧
      history s' =
        (if (Z.of_nat 3 <? n_hist cfg_hist2)%Z then history s else drop 1 (history s))
        ++ [(xs, ys)] ∧
      length (history s') = Z.to_nat (Z.min (Z.of_nat (S 3)) (n_hist cfg_hist2)).
Proof.
  eexists _, _, _, _.
  split; [vm_compute; reflexivity|]. split; [vm_compute; reflexivity|].
  split; [reflexivity|].
  eapply (history_fifo cfg_hist2 1 1 0 rng_half 3);
    [vm_compute; reflexivity|vm_compute; reflexivity|reflexivity].
Defined.

Lemma no_history_witness :
  ∃ s evs s' evs',
    run cfg_no_hist 2 (init 1 1 0 rng_half) = Ok (s, evs) ∧
    frame cfg_no_hist s = Ok (s', evs') ∧ (n_hist cfg_no_hist ≤ 0)%Z ∧
    history s' = [] ∧
    ∃ xs ys,
      evs' = [Scatter xs ys (Py.range (n_iters cfg_no_hist)) (alpha_init cfg_no_hist);
              Xticks; Yticks; Pause (pause_time cfg_no_hist); Clf].
Proof.
  eexists _, _, _, _.
  split; [vm_compute; reflexivity|]. split; [vm_compute; reflexivity|].
  split; [vm_compute; discriminate|].
  eapply (no_history cfg_no_hist 1 1 0 rng_half 2);
    [vm_compute; reflexivity|vm_compute; reflexivity|vm_compute; discriminate].
Defined.

Lemma run_scatter_sized_witness :
  ∃ s evs,
    run cfg_hist2 3 (init 1 1 0 rng_half) = Ok (s, evs) ∧
    Forall (scatter_sized (Z.to_nat (n_iters cfg_hist2))) evs.
Proof.
  eexists _, _. split; [vm_compute; reflexivity|].
  eapply (run_scatter_sized cfg_hist2 1 1 0 rng_half 3). vm_compute. reflexivity.
Defined.

Lemma full_history_newest_opacity_witness :
  ∃ s evs s' evs',
    run cfg_hist2 2 (init 1 1 0 rng_half) = Ok (s, evs) ∧
    frame cfg_hist2 s = Ok (s', evs') ∧
    (0 < n_hist cfg_hist2 ≤ Z.of_nat 2)%Z ∧
    length (opacities evs') = S (Z.to_nat (n_hist cfg_hist2)) ∧
    last (opacities evs') = Some (alpha_init cfg_hist2).
Proof.
  eexists _, _, _, _.
  split; [vm_compute; reflexivity|]. split; [vm_compute; reflexivity|].
  split; [split; [reflexivity|vm_compute; discriminate]|].
  eapply (full_history_newest_opacity cfg_hist2 1 1 0 rng_half 2);
    [vm_compute; reflexivity|vm_compute; reflexivity|split; [reflexivity|vm_compute; discriminate]].
Defined.

(** ** The entry point *)

Section MainFacts.
Local Open Scope float_scope.

Lemma main_setup_gen_zero parsed g :
  (fps parsed =? 0) = true → main_setup_gen parsed g = (Raise ZeroDivisionError, g).
Proof. intros H. unfold main_setup_gen, float_truediv. rewrite H. reflexivity. Qed.

Lemma main_setup_gen_ok parsed g :
  (fps parsed =? 0) = false →
  main_setup_gen parsed g =
    (Ok (Config (niters parsed) (nhist parsed) (nreset parsed) alpha_default (1 / fps parsed),
         init (nth_draw default_min_val default_max_val g 0)
              (nth_draw default_min_val default_max_val g 1)
              (nth_draw default_min_val default_max_val g 2)
              (Rng (draws g) (3 + consumed g))),
     Rng (draws g) (3 + consumed g)).
Proof.
  intros H. unfold main_setup_gen, float_truediv. rewrite H, random_abc_default.
  reflexivity.
Qed.

Lemma main_setup_zero parsed g :
  (fps parsed =? 0) = true → main_setup parsed g = Raise ZeroDivisionError.
Proof. intros H. unfold main_setup. rewrite main_setup_gen_zero by assumption. reflexivity. Qed.

Lemma main_setup_ok parsed g :
  (fps parsed =? 0) = false →
  main_setup parsed g =
    Ok (Config (niters parsed) (nhist parsed) (nreset parsed) alpha_default (1 / fps parsed),
        init (nth_draw default_min_val default_max_val g 0)
             (nth_draw default_min_val default_max_val g 1)
             (nth_draw default_min_val default_max_val g 2)
             (Rng (draws g) (3 + consumed g))).
Proof. intros H. unfold main_setup. rewrite main_setup_gen_ok by assumption. reflexivity. Qed.


Lemma run_params_in_range cfg a0 b0 c0 g0 k s evs :
  unit_draws g0 →
  in_default_range a0 → in_default_range b0 → in_default_range c0 →
  run cfg k (init a0 b0 c0 g0) = Ok (s, evs) →
  in_default_range (a s) ∧ in_default_range (b s) ∧ in_default_range (c s).
Proof.
  intros Hg Ha Hb Hc. revert s evs. induction k as [|k IH]; intros s evs H.
  - injection H as <- <-. split; [|split]; assumption.
  - apply run_S_inv in H as (s1 & evs1 & evf & H1 & H2 & _).
    pose proof (reached_run _ _ _ _ _ _ _ _ H1) as (_ & Hd & _).
    apply frame_batch in H2 as (seed & hevs & _ & _ & _ & _ & _ & Hreset).
    destruct (reset_due cfg (full_iters s1 + 1)).
    + destruct Hreset as [_ Hrnd]. rewrite random_abc_default in Hrnd.
      injection Hrnd as Ea Eb Ec _.
      assert (Hg1 : unit_draws (gen s1)) by (intros i; rewrite Hd; apply Hg).
      rewrite <- Ea, <- Eb, <- Ec.
      split; [|split]; apply nth_draw_default_range; assumption.
    + destruct Hreset as (_ & Hp & _). injection Hp as -> -> ->. eapply IH. eassumption.
Qed.

(** Started from the command line, the loop only ever iterates with
    parameters between [-10.0] and [10.0]: the first ones and those of every
    reset are drawn with the default bounds of the randomizer (for a random
    source with draws in [[0, 1)]). *)
Theorem main_params_in_range (parsed : args) (g : rng) (k : nat)
    (s : state) (evs : list event) :
  unit_draws g → main parsed g k = Ok (s, evs) →
  in_default_range (a s) ∧ in_default_range (b s) ∧ in_default_range (c s).
Proof.
  intros Hg H. unfold main in H.
  destruct (fps parsed =? 0) eqn:E.
  - rewrite main_setup_zero in H by assumption. discriminate H.
  - rewrite main_setup_ok in H by assumption. cbn [mbind result_bind] in H.
    assert (Hg' : unit_draws (Rng (draws g) (3 + consumed g))) by exact Hg.
    eapply run_params_in_range; [exact Hg'| | | |exact H];
      apply nth_draw_default_range; assumption.
Qed.

Lemma pauses_app evs1 evs2 : pauses (evs1 ++ evs2) = pauses evs1 ++ pauses evs2.
Proof. apply omap_app. Qed.

Lemma run_pauses cfg k s0 s evs :
  run cfg k s0 = Ok (s, evs) → pauses evs = replicate k (pause_time cfg).
Proof.
  revert s evs. induction k as [|k IH]; intros s evs H.
  - injection H as <- <-. reflexivity.
  - apply run_S_inv in H as (s1 & evs1 & evf & H1 & H2 & ->).
    rewrite pauses_app, (IH _ _ H1), (frame_pauses _ _ _ _ H2).
    symmetry. apply replicate_S_end.
Qed.

(** Started from the command line, the loop pauses once per turn, each time
    for [1.0 / fps] seconds. *)
Theorem main_pauses (parsed : args) (g : rng) (k : nat) (s : state) (evs : list event) :
  main parsed g k = Ok (s, evs) → pauses evs = replicate k (1 / fps parsed).
Proof.
  intros H. unfold main in H.
  destruct (fps parsed =? 0) eqn:E.
  - rewrite main_setup_zero in H by assumption. discriminate H.
  - rewrite main_setup_ok in H by assumption. cbn [mbind result_bind] in H.
    apply run_pauses in H. exact H.
Qed.
End MainFacts.

(** The options of a command line without arguments give the pause [0.04]. *)
Example main_setup_default :
  ∃ s, main_setup default_args rng_half =
         Ok (Config 1000 10 10 alpha_default pause_default, s).
Proof. eexists. vm_compute. reflexivity. Qed.

Lemma main_params_in_range_witness :
  ∃ s evs,
    unit_draws rng_half ∧ main (Args 3 2 2 25) rng_half 2 = Ok (s, evs) ∧
    in_default_range (a s) ∧ in_default_range (b s) ∧ in_default_range (c s).
Proof.
  eexists _, _. split; [exact unit_draws_half|]. split; [vm_compute; reflexivity|].
  eapply (main_params_in_range (Args 3 2 2 25) rng_half 2);
    [exact unit_draws_half|vm_compute; reflexivity].
Defined.

Lemma main_pauses_witness :
  ∃ s evs,
    main (Args 3 2 2 25) rng_half 2 = Ok (s, evs) ∧
    pauses evs = replicate 2 (1 / fps (Args 3 2 2 25))%float.
Proof.
  eexists _, _. split; [vm_compute; reflexivity|].
  eapply (main_pauses (Args 3 2 2 25) rng_half 2). vm_compute. reflexivity.
Defined.
